(** * Wallace-tree multiplier generator (scripts/wallace_tree.py)

    A shallow embedding of the Python generator and the properties its
    specification states about it.

    Modelling conventions.
    - Python [int] is [Z]; [//] by a positive constant is [Z.div].
    - Python [float] latencies are IEEE 754 binary64 numbers, the
      [spec_float] of the Standard Library with its rounding addition,
      multiplication and comparison.  Python's [max] keeps its first
      argument unless a later one is strictly greater.
    - A Python [list] of signals that is mutated in place is an object in
      a heap, addressed by a location; every other list is a value.
    - A method is a computation in the monad [M]: it threads the store
      and either returns or raises.  A store survives a raised exception
      as the mutations performed before it.
    - The back-reference [Signal.host] holds the unique name of the
      producing compressor instead of a pointer to it. *)

From Stdlib Require Import ZArith String DecimalString Lia List.
From Stdlib Require Import DecimalZ DecimalPos Ascii SpecFloat.
From stdpp Require Import base option list gmap strings.

Open Scope Z_scope.

(** ** Python prelude *)

Inductive exn : Type :=
| ValueError (msg : string)
| IndexError
| AssertionError
| TypeError.

(** [Stuck] is not a Python behaviour: the model reaches it only through
    a location that was never allocated or a recursion that ran out of
    fuel, and the lemmas below show that neither happens. *)
Inductive Outcome (A : Type) : Type :=
| Return (a : A)
| Raise (e : exn)
| Stuck.
Arguments Return {A} a.
Arguments Raise {A} e.
Arguments Stuck {A}.

(** [str(n)] for an integer. *)
Definition str (n : Z) : string := NilZero.string_of_int (Z.to_int n).

(** [range(lo, hi)]. *)
Definition range (lo hi : Z) : list Z :=
  map (fun k => lo + Z.of_nat k) (seq 0 (Z.to_nat (hi - lo))).

(** [len(l)] and [l[i]] on a list value; a negative index counts from
    the end, anything out of range is an [IndexError] ([None] here). *)
Definition len {A} (l : list A) : Z := Z.of_nat (length l).

Definition index {A} (l : list A) (i : Z) : option A :=
  if i <? 0
  then if len l + i <? 0 then None else l !! Z.to_nat (len l + i)
  else l !! Z.to_nat i.

(** ** Python floats

    A Python [float] is an IEEE 754 binary64 number: a [spec_float]
    with 53 bits of precision and exponents below 1024.  [+] and [*]
    round to nearest, ties to even; [<] and [<=] are false when an
    operand is NaN. *)

Definition prec : Z := 53.
Definition emax : Z := 1024.
Definition float : Type := spec_float.

Definition fadd : float -> float -> float := SFadd prec emax.
Definition fmul : float -> float -> float := SFmul prec emax.
Definition flt : float -> float -> bool := SFltb.
Definition fle : float -> float -> bool := SFleb.

(** [float(n)] for an integer [n], as in [1.5 * 2]. *)
Definition float_of_int (n : Z) : float := binary_normalize prec emax n 0 false.

(** [max(a, b)] keeps [a] unless [b > a]; [max(a, b, c)] is
    [fmax (fmax a b) c]. *)
Definition fmax (a b : float) : float := if flt a b then b else a.

(** A literal such as [1.5] is the binary64 number nearest to it: its
    digits as an integer, divided by the power of ten of its fraction
    (both are exact for a literal of up to 15 digits). *)
Definition float_of_literal (n : Number.number) : option float :=
  match n with
  | Number.Decimal (Decimal.Decimal i f) =>
      Some (SFdiv prec emax
              (float_of_int (Z.of_int (Decimal.app_int i f)))
              (float_of_int (10 ^ Z.of_nat (Decimal.nb_digits f))))
  | _ => None
  end.

Definition literal_of_float (x : float) : option Number.number := None.

Declare Scope float_scope.
Delimit Scope float_scope with float.
Number Notation spec_float float_of_literal literal_of_float : float_scope.
Bind Scope float_scope with float spec_float.

(** ** Delay constants *)

Definition BOOTH_DELAY : float := 4.0.
Definition AND_DELAY : float := 1.0.
Definition OR_DELAY : float := 1.0.
Definition XOR_DELAY : float := 1.5.

(** ** Signals *)

Module Signal.
Record t : Type := mk
  { latency : float;
    name : string;
    host : option string;
    loader : option string }.

Definition init (name : string) (depth : float) (host : option string) : t :=
  {| latency := depth; name := name; host := host; loader := None |}.
End Signal.

Definition TIE_LOW : Signal.t := Signal.init "1'b0" 0.0 None.

(** ** Compressors *)

Module Compressor.
Record t : Type := mk
  { column : Z;
    level : Z;
    name : string }.

Definition init (column level no : Z) (module_name : string) : t :=
  {| column := column;
     level := level;
     name := "u_" +:+ module_name +:+ "_" +:+ str column
                  +:+ "_" +:+ str level +:+ "_" +:+ str no |}.
End Compressor.

Module Compressor2to1.
Definition module_name : string := "cmprs_2to1".
Definition latency_sum : float := XOR_DELAY.
Definition latency_cout : float := AND_DELAY.

Record t : Type := mk
  { super : Compressor.t;
    input_dict : gmap string Signal.t;
    sum : Signal.t;
    cout : Signal.t }.

Definition init (a b : Signal.t) (column level no : Z) : t :=
  let self := Compressor.init column level no module_name in
  let max_ab := fmax (Signal.latency a) (Signal.latency b) in
  let sum_delay := fadd max_ab latency_sum in
  let cout_delay := fadd max_ab latency_cout in
  {| super := self;
     input_dict := <["b" := b]> (<["a" := a]> ∅);
     sum := Signal.init (Compressor.name self +:+ "_sum") sum_delay
              (Some (Compressor.name self));
     cout := Signal.init (Compressor.name self +:+ "_cout") cout_delay
               (Some (Compressor.name self)) |}.
End Compressor2to1.

Module Compressor3to2.
Definition module_name : string := "cmprs_3to2".
Definition latency_sum : float := fmul XOR_DELAY (float_of_int 2).
Definition latency_cout : float := fadd AND_DELAY OR_DELAY.

Record t : Type := mk
  { super : Compressor.t;
    input_dict : gmap string Signal.t;
    sum : Signal.t;
    cout : Signal.t }.

Definition init (a b c : Signal.t) (column level no : Z) : t :=
  let self := Compressor.init column level no module_name in
  let max_abc :=
    fmax (fmax (Signal.latency a) (Signal.latency b)) (Signal.latency c) in
  let sum_delay := fadd max_abc latency_sum in
  let cout_delay := fadd max_abc latency_cout in
  {| super := self;
     input_dict := <["c" := c]> (<["b" := b]> (<["a" := a]> ∅));
     sum := Signal.init (Compressor.name self +:+ "_sum") sum_delay
              (Some (Compressor.name self));
     cout := Signal.init (Compressor.name self +:+ "_cout") cout_delay
               (Some (Compressor.name self)) |}.
End Compressor3to2.

Module Compressor4to2.
Definition module_name : string := "cmprs_4to2".
Definition latency_sum : float := fmul XOR_DELAY (float_of_int 3).
Definition latency_abcd : float := fmul XOR_DELAY (float_of_int 2).
Definition latency_cin : float := AND_DELAY.
Definition latency_cout_a : float := OR_DELAY.
Definition latency_cout_b : float := fadd AND_DELAY OR_DELAY.

Record t : Type := mk
  { super : Compressor.t;
    input_dict : gmap string Signal.t;
    sum : Signal.t;
    cout_a : Signal.t;
    cout_b : Signal.t }.

Definition init (a b c d cin : Signal.t) (column level no : Z) : t :=
  let self := Compressor.init column level no module_name in
  let max_abc :=
    fmax (fmax (Signal.latency a) (Signal.latency b)) (Signal.latency c) in
  let max_all :=
    fmax (fmax max_abc (Signal.latency d)) (Signal.latency cin) in
  let abcd_xor := fadd (fmax max_abc (Signal.latency d)) latency_abcd in
  let cin_and := fadd (Signal.latency cin) latency_cin in
  let sum_delay := fadd max_all latency_sum in
  let cout_a_delay := fadd (fmax abcd_xor cin_and) latency_cout_a in
  let cout_b_delay := fadd max_abc latency_cout_b in
  {| super := self;
     input_dict :=
       <["cin" := cin]> (<["d" := d]> (<["c" := c]> (<["b" := b]>
         (<["a" := a]> ∅))));
     sum := Signal.init (Compressor.name self +:+ "_sum") sum_delay
              (Some (Compressor.name self));
     cout_a := Signal.init (Compressor.name self +:+ "_cout_a")
                 cout_a_delay (Some (Compressor.name self));
     cout_b := Signal.init (Compressor.name self +:+ "_cout_b")
                 cout_b_delay (Some (Compressor.name self)) |}.
End Compressor4to2.

(** What the registry [self.compressors] holds: an instance of one of the
    three subclasses. *)
Inductive AnyCompressor : Type :=
| Is2to1 (c : Compressor2to1.t)
| Is3to2 (c : Compressor3to2.t)
| Is4to2 (c : Compressor4to2.t).

(** ** The store and the monad of methods *)

Definition loc : Type := nat.

(** [heap] holds the list objects that are mutated in place (the live
    list of each column); [compressors] is the list bound to
    [self.compressors]; [stdout] collects what [print] writes. *)
Record Store : Type := mkStore
  { heap : gmap nat (list Signal.t);
    next_loc : loc;
    compressors : list AnyCompressor;
    stdout : list string }.

Definition set_heap (f : gmap nat (list Signal.t) -> gmap nat (list Signal.t))
    (σ : Store) : Store :=
  {| heap := f (heap σ); next_loc := next_loc σ;
     compressors := compressors σ; stdout := stdout σ |}.

Definition set_next_loc (n : loc) (σ : Store) : Store :=
  {| heap := heap σ; next_loc := n;
     compressors := compressors σ; stdout := stdout σ |}.

Definition set_compressors (cs : list AnyCompressor) (σ : Store) : Store :=
  {| heap := heap σ; next_loc := next_loc σ;
     compressors := cs; stdout := stdout σ |}.

Definition set_stdout (out : list string) (σ : Store) : Store :=
  {| heap := heap σ; next_loc := next_loc σ;
     compressors := compressors σ; stdout := out |}.

Definition M (A : Type) : Type := Store -> Store * Outcome A.

#[export] Instance M_ret : MRet M := fun A a σ => (σ, Return a).

#[export] Instance M_bind : MBind M := fun A B f m σ =>
  match m σ with
  | (σ', Return a) => f a σ'
  | (σ', Raise e) => (σ', Raise e)
  | (σ', Stuck) => (σ', Stuck)
  end.

Definition raise {A} (e : exn) : M A := fun σ => (σ, Raise e).
Definition stuck {A} : M A := fun σ => (σ, Stuck).

(** [for x in l: body]. *)
Fixpoint for_each {A} (l : list A) (body : A -> M unit) : M unit :=
  match l with
  | [] => mret tt
  | x :: l' => body x;; for_each l' body
  end.

(** A [for] loop whose body rebinds or extends local variables [acc]. *)
Fixpoint for_acc {A B} (l : list A) (acc : B) (body : B -> A -> M B) : M B :=
  match l with
  | [] => mret acc
  | x :: l' => acc' ← body acc x; for_acc l' acc' body
  end.

(** [l[i]] on a list value. *)
Definition item {A} (l : list A) (i : Z) : M A :=
  match index l i with
  | Some x => mret x
  | None => raise IndexError
  end.

(** *** List objects *)

Definition new_list (v : list Signal.t) : M loc := fun σ =>
  (set_next_loc (S (next_loc σ)) (set_heap <[next_loc σ := v]> σ),
   Return (next_loc σ)).

Definition load (l : loc) : M (list Signal.t) := fun σ =>
  match heap σ !! l with
  | Some v => (σ, Return v)
  | None => (σ, Stuck)
  end.

Definition store (l : loc) (v : list Signal.t) : M unit := fun σ =>
  (set_heap <[l := v]> σ, Return tt).

Definition list_len (l : loc) : M Z := v ← load l; mret (len v).

Definition getitem (l : loc) (i : Z) : M Signal.t := v ← load l; item v i.

Definition clear (l : loc) : M unit := _ ← load l; store l [].

Definition append (l : loc) (x : Signal.t) : M unit :=
  v ← load l; store l (v ++ [x]).

Definition pop (l : loc) : M Signal.t :=
  v ← load l;
  match last v with
  | Some x => store l (removelast v);; mret x
  | None => raise IndexError
  end.

(** [self.compressors = []], [self.compressors.append(c)] and
    [print(s)]. *)
Definition compressors_new : M unit := fun σ =>
  (set_compressors [] σ, Return tt).

Definition compressors_append (c : AnyCompressor) : M unit := fun σ =>
  (set_compressors (compressors σ ++ [c]) σ, Return tt).

Definition print (s : string) : M unit := fun σ =>
  (set_stdout (stdout σ ++ [s]) σ, Return tt).

Definition enumerate {A} (l : list A) : list (Z * A) :=
  zip (range 0 (len l)) l.

(** ** The reduction engine *)

Module WallaceTree.
(** The attributes of [self] that are bound once in [__init__];
    [columns] lists the locations of the per-column live lists and
    [self.compressors] is [compressors] of the store. *)
Record t : Type := mk
  { width : Z;
    result_width : Z;
    pp_num : Z;
    tree_map : list (list Z);
    columns : list loc }.

Definition set_tree_map (m : list (list Z)) (self : t) : t :=
  {| width := width self; result_width := result_width self;
     pp_num := pp_num self; tree_map := m; columns := columns self |}.

Definition set_columns (cs : list loc) (self : t) : t :=
  {| width := width self; result_width := result_width self;
     pp_num := pp_num self; tree_map := tree_map self; columns := cs |}.

Definition get_pp_width (self : t) (row : Z) : M Z :=
  if (row <? 0) || (row >=? pp_num self) then
    raise (ValueError ("Row number(" +:+ str row +:+ ") out of range:["
                         +:+ str (pp_num self - 1) +:+ ":0]."))
  else
    let pp_width :=
      if row =? 0 then width self + 4
      else if row =? pp_num self - 1 then width self + 3
      else width self + 5 in
    mret pp_width.

Definition gen_column (self : t) (column : Z) : M loc :=
  column_list ← new_list [];
  for_each (range 0 (pp_num self)) (fun i =>
    row ← item (tree_map self) i;
    bit ← item row column;
    if bit =? 1 then
      append column_list
        (Signal.init ("pp_ext[" +:+ str i +:+ "][" +:+ str column +:+ "]")
           BOOTH_DELAY None)
    else mret tt);;
  mret column_list.

Definition get_column_num (self : t) (column : Z) : M Z :=
  if (column <? 0) || (column >? result_width self) then
    raise (ValueError ("Column number(" +:+ str column +:+ ") out of "
                         +:+ "range:[" +:+ str (result_width self - 1)
                         +:+ ":0]."))
  else
    col ← item (columns self) column;
    list_len col.

(** The second disjunct of the test is evaluated, and [get_pp_width]
    called, only when the first is false. *)
Definition get_wallace_map (self : t) : M (list (list Z)) :=
  let list_len := result_width self + 2 in
  for_acc (range 0 (pp_num self)) [] (fun map_list i =>
    let start_pos := if i <=? 1 then 0 else i * 2 - 2 in
    tmp_list ← for_acc (range 0 list_len) [] (fun tmp_list j =>
      outside ←
        (if j <? start_pos then mret true
         else w ← get_pp_width self i; mret (j >=? start_pos + w));
      if outside : bool then mret (tmp_list ++ [0])
      else mret (tmp_list ++ [1]));
    mret (map_list ++ [tmp_list])).

(** [__init__]; the defaults [pp_name = "pp"] and [logic_depth = 20]
    are arguments here. *)
Definition init (width : Z) (pp_name : string) (logic_depth : Z) : M t :=
  if width <? 4 then
    raise (ValueError "Width of the Wallace Tree must be at least 4.")
  else if logic_depth <? 3 then
    raise (ValueError "depth of the logic must be at least 3.")
  else
    let self :=
      {| width := width; result_width := 2 * width;
         pp_num := width / 2 + 1; tree_map := []; columns := [] |} in
    m ← get_wallace_map self;
    let self := set_tree_map m self in
    self ← for_acc (range 0 (result_width self)) self (fun self i =>
      col ← gen_column self i;
      mret (set_columns (columns self ++ [col]) self));
    compressors_new;;
    mret self.

Definition generate_tree (self : t) : M unit := mret tt.

(** [column_add]; each recursive call spends one unit of [fuel]. *)
Fixpoint column_add_rec (fuel : nat) (self : t) (col_list : loc)
    (column level no : Z) : M (list Signal.t * list Signal.t) :=
  match fuel with
  | O => stuck
  | S fuel =>
    n ← list_len col_list;
    if negb (n >? 0) then raise AssertionError
    else if n =? 1 then
      clear col_list;;
      s ← getitem col_list 0;
      mret ([], [s])
    else if n =? 2 then
      a ← getitem col_list 0;
      b ← getitem col_list 1;
      let tmp_compressor := Compressor2to1.init a b column level no in
      compressors_append (Is2to1 tmp_compressor);;
      clear col_list;;
      mret ([Compressor2to1.cout tmp_compressor],
            [Compressor2to1.sum tmp_compressor])
    else if n =? 3 then
      a ← getitem col_list 0;
      b ← getitem col_list 1;
      c ← getitem col_list 2;
      let tmp_compressor := Compressor3to2.init a b c column level no in
      compressors_append (Is3to2 tmp_compressor);;
      clear col_list;;
      mret ([Compressor3to2.cout tmp_compressor],
            [Compressor3to2.sum tmp_compressor])
    else if n =? 4 then
      a ← getitem col_list 0;
      b ← getitem col_list 1;
      c ← getitem col_list 2;
      d ← getitem col_list 3;
      let tmp_compressor :=
        Compressor4to2.init a b c d TIE_LOW column level no in
      compressors_append (Is4to2 tmp_compressor);;
      clear col_list;;
      mret ([Compressor4to2.cout_a tmp_compressor;
             Compressor4to2.cout_b tmp_compressor],
            [Compressor4to2.sum tmp_compressor])
    else if n =? 5 then
      a ← getitem col_list 0;
      b ← getitem col_list 1;
      c ← getitem col_list 2;
      d ← getitem col_list 3;
      cin ← getitem col_list 4;
      let tmp_compressor :=
        Compressor4to2.init a b c d cin column level no in
      compressors_append (Is4to2 tmp_compressor);;
      clear col_list;;
      mret ([Compressor4to2.cout_a tmp_compressor;
             Compressor4to2.cout_b tmp_compressor],
            [Compressor4to2.sum tmp_compressor])
    else
      a ← getitem col_list (-1);
      b ← getitem col_list (-2);
      c ← getitem col_list (-3);
      d ← getitem col_list (-4);
      cin ← getitem col_list (-5);
      let tmp_compressor :=
        Compressor4to2.init a b c d cin column level no in
      compressors_append (Is4to2 tmp_compressor);;
      for_each (range 0 5) (fun _ => _ ← pop col_list; mret tt);;
      let tmp_cout := [Compressor4to2.cout_a tmp_compressor;
                       Compressor4to2.cout_b tmp_compressor] in
      let tmp_sum := [Compressor4to2.sum tmp_compressor] in
      r ← column_add_rec fuel self col_list column level (no + 1);
      mret (tmp_cout ++ r.1, tmp_sum ++ r.2)
  end.

(** A list of [n] signals is emptied in at most [n] calls. *)
Definition column_add (self : t) (col_list : loc) (column level no : Z)
    : M (list Signal.t * list Signal.t) :=
  n ← list_len col_list;
  column_add_rec (S (Z.to_nat n)) self col_list column level no.

(** [max(map(len, columns))] raises [ValueError] on an empty sequence;
    [self.tree_reduce()] omits both positional arguments and raises
    [TypeError] when the call is made. *)
Definition tree_reduce (self : t) (columns : list loc) (level : Z)
    : M unit :=
  lens ← for_acc columns [] (fun acc x => n ← list_len x; mret (acc ++ [n]));
  match lens with
  | [] => raise (ValueError "max() arg is an empty sequence")
  | n :: ns =>
    if fold_left Z.max ns n <=? 2 then
      for_each columns (fun col =>
        sigs ← load col;
        for_each sigs (fun sig => print (Signal.name sig)))
    else
      _ ← for_acc (enumerate columns) ([], []) (fun acc ic =>
        r ← column_add self ic.2 ic.1 level 0;
        mret (acc.1 ++ [r.1], acc.2 ++ [r.2]));
      raise TypeError
  end.
End WallaceTree.

(** ** Quantities the properties speak about *)

Definition allocated (σ : Store) (l : loc) : Prop := is_Some (heap σ !! l).

(** The store after [column_add] has registered compressor [k] and
    cleared the list [l]. *)
Definition registered (σ : Store) (l : loc) (k : AnyCompressor) : Store :=
  set_heap <[l := []]> (set_compressors (compressors σ ++ [k]) σ).

(** The values that [get_pp_width] and [get_wallace_map] compute. *)
Definition pp_width (self : WallaceTree.t) (row : Z) : Z :=
  if row =? 0 then WallaceTree.width self + 4
  else if row =? WallaceTree.pp_num self - 1 then WallaceTree.width self + 3
  else WallaceTree.width self + 5.

Definition start_pos (row : Z) : Z := if row <=? 1 then 0 else row * 2 - 2.

Definition layout_bit (self : WallaceTree.t) (row col : Z) : Z :=
  if (col <? start_pos row) || (col >=? start_pos row + pp_width self row)
  then 0 else 1.

Definition layout_row (self : WallaceTree.t) (row : Z) : list Z :=
  map (layout_bit self row) (range 0 (WallaceTree.result_width self + 2)).

Definition layout (self : WallaceTree.t) : list (list Z) :=
  map (layout_row self) (range 0 (WallaceTree.pp_num self)).

(** The primary signal of row [i] in column [c], as [gen_column] names it. *)
Definition pp (i c : Z) : Signal.t :=
  Signal.init ("pp_ext[" +:+ str i +:+ "][" +:+ str c +:+ "]") BOOTH_DELAY None.

(** The primary signals of one column, rows in increasing order. *)
Definition column_signals (self : WallaceTree.t) (column : Z)
    : list Signal.t :=
  map (fun i => pp i column)
    (List.filter (fun i => layout_bit self i column =? 1)
       (range 0 (WallaceTree.pp_num self))).

(** The number of 1-entries of a row, of the whole layout, and the
    number of signals held by the columns of a tree. *)
Definition ones (r : list Z) : nat :=
  length (List.filter (fun b => b =? 1) r).

Definition total_set_bits (m : list (list Z)) : nat :=
  sum_list_with ones m.

Definition column_size (σ : Store) (l : loc) : nat :=
  match heap σ !! l with
  | Some v => length v
  | None => 0%nat
  end.

Definition total_signals (σ : Store) (t : WallaceTree.t) : nat :=
  sum_list_with (column_size σ) (WallaceTree.columns t).

(** Set bits of the layout among the first [k] columns. *)
Definition set_bits_within (m : list (list Z)) (k : Z) : nat :=
  sum_list_with (fun r => ones (take (Z.to_nat k) r)) m.

(** The bit of a row that lies in column [result_width], if any. *)
Definition overflow (t : WallaceTree.t) (row : Z) : nat :=
  if Z.even (WallaceTree.width t) && (WallaceTree.pp_num t - 2 <=? row)
  then 1%nat else 0%nat.

(** A store with one list object, for the examples. *)
Definition one_list (v : list Signal.t) : Store :=
  {| heap := {[ 0%nat := v ]}; next_loc := 1%nat;
     compressors := []; stdout := [] |}.

Definition no_tree : WallaceTree.t :=
  {| WallaceTree.width := 4; WallaceTree.result_width := 8;
     WallaceTree.pp_num := 3; WallaceTree.tree_map := [];
     WallaceTree.columns := [] |}.

Definition empty_store : Store :=
  {| heap := ∅; next_loc := 0%nat; compressors := []; stdout := [] |}.


(** ** Quantities of the further properties *)

(** The three subclasses, the module name each passes to
    [Compressor.__init__], and the identifier this gives. *)
Inductive kind : Type := K2to1 | K3to2 | K4to2.

Definition kind_module_name (k : kind) : string :=
  match k with
  | K2to1 => Compressor2to1.module_name
  | K3to2 => Compressor3to2.module_name
  | K4to2 => Compressor4to2.module_name
  end.

Definition compressor_name (k : kind) (column level no : Z) : string :=
  Compressor.name (Compressor.init column level no (kind_module_name k)).

(** A string without the character [ch], and the characters [str]
    writes. *)
Definition free_of (ch : ascii) (s : string) : Prop :=
  Forall (fun c => c <> ch) (list_ascii_of_string s).

Definition str_alphabet : list ascii := list_ascii_of_string "-0123456789".

(** The suffixes of the output signals, and the signals that a
    compressor of column [column] and level [level] with a sequence
    number of at least [no] can drive. *)
Definition output_suffixes : list string :=
  ["_sum"; "_cout"; "_cout_a"; "_cout_b"].

Definition driven_from (column level no : Z) (s : Signal.t) : Prop :=
  exists k m suffix,
    no <= m /\ suffix ∈ output_suffixes
    /\ Signal.name s = compressor_name k column level m +:+ suffix
    /\ Signal.host s = Some (compressor_name k column level m).

(** Name, input signals (by port) and output signals of a registered
    compressor. *)
Definition any_name (k : AnyCompressor) : string :=
  match k with
  | Is2to1 c => Compressor.name (Compressor2to1.super c)
  | Is3to2 c => Compressor.name (Compressor3to2.super c)
  | Is4to2 c => Compressor.name (Compressor4to2.super c)
  end.

Definition any_input_dict (k : AnyCompressor) : gmap string Signal.t :=
  match k with
  | Is2to1 c => Compressor2to1.input_dict c
  | Is3to2 c => Compressor3to2.input_dict c
  | Is4to2 c => Compressor4to2.input_dict c
  end.

Definition inputs (k : AnyCompressor) : list Signal.t :=
  omap (fun port => any_input_dict k !! port) ["a"; "b"; "c"; "d"; "cin"].

Definition outputs (k : AnyCompressor) : list Signal.t :=
  match k with
  | Is2to1 c => [Compressor2to1.cout c; Compressor2to1.sum c]
  | Is3to2 c => [Compressor3to2.cout c; Compressor3to2.sum c]
  | Is4to2 c =>
      [Compressor4to2.cout_a c; Compressor4to2.cout_b c; Compressor4to2.sum c]
  end.

(** How many carries [column_add] returns for [n] signals. *)
Definition carries_count (n : nat) : nat :=
  (2 * (n / 5)
   + match (n mod 5)%nat with
     | 2%nat | 3%nat => 1
     | 4%nat => 2
     | _ => 0
     end)%nat.

(** The constant input that [column_add] adds to a group of four. *)
Definition tie_low_of (n : nat) : list Signal.t :=
  if (n mod 5 =? 4)%nat then [TIE_LOW] else [].

(** The compressors that one call of [column_add] with sequence number
    [no] can register. *)
Definition registered_from (column level no : Z) (k : AnyCompressor) : Prop :=
  exists kd m, no <= m /\ any_name k = compressor_name kd column level m.

(** What a returning call of [column_add] on the signals [v] hands
    back: [new] are the compressors it registered, [r] the carries and
    the sums. *)
Definition reduced_by (column level no : Z) (v : list Signal.t)
    (new : list AnyCompressor) (r : list Signal.t * list Signal.t) : Prop :=
  length r.2 = ((length v + 4) / 5)%nat
  /\ length r.1 = carries_count (length v)
  /\ length new = ((length v + 4) / 5)%nat
  /\ r.1 ++ r.2 ≡ₚ concat (map outputs new)
  /\ concat (map inputs new) ≡ₚ v ++ tie_low_of (length v)
  /\ NoDup (map Signal.name (r.1 ++ r.2))
  /\ Forall (driven_from column level no) (r.1 ++ r.2).

(** ** Latencies as numbers *)

(** [k / 2^g] as a float: exact when [k] has 53 bits or less. *)
Definition dyadic (g k : Z) : float := binary_normalize prec emax k (- g) false.

(** The number of bits of [k], and the mantissa and exponent of the
    float that holds [k / 2^g]. *)
Definition digits (k : Z) : Z := Zpos (digits2_pos (Z.to_pos k)).
Definition mantissa (k : Z) : positive := Z.to_pos (k * 2 ^ (prec - digits k)).
Definition exponent (g k : Z) : Z := digits k - g - prec.

(** The value of a non-negative float in units of 2^-1074, the smallest
    positive binary64 number; infinity lies above every finite number. *)
Definition scaled (x : float) : Z :=
  match x with
  | S754_finite false m e => Zpos m * 2 ^ (e + 1074)
  | S754_infinity false => 2 ^ 2098
  | _ => 0
  end.

(** What a Python float [x] with [x >= 0] is: a binary64 number that is
    neither NaN nor negative; it may be infinite. *)
Definition nonneg_float (x : float) : Prop :=
  valid_binary prec emax x = true /\ fle 0 x = true.

(** How many units of 2^-g make 0.5. *)
Definition half_units (g : Z) : Z := 2 ^ (g - 1).

(** A signal whose latency is [k / 2^g], small enough for every
    addition of a compressor to be exact: [k / 2^g + 4.5 < 2^(53 - g)]. *)
Definition exact_input (g k : Z) (s : Signal.t) : Prop :=
  0 <= k /\ k + 9 * half_units g < 2 ^ prec
  /\ Signal.latency s = dyadic g k.

(** [out] arrives at least, respectively at most, [n / 2^g] after [x]. *)
Definition later_by (g n : Z) (x out : Signal.t) : Prop :=
  exists kx ko,
    Signal.latency x = dyadic g kx /\ Signal.latency out = dyadic g ko
    /\ 0 <= kx /\ ko < 2 ^ prec /\ kx + n <= ko.

Definition at_most_after (g n : Z) (x out : Signal.t) : Prop :=
  exists kx ko,
    Signal.latency x = dyadic g kx /\ Signal.latency out = dyadic g ko
    /\ 0 <= kx /\ ko < 2 ^ prec /\ ko <= kx + n.

(** A signal whose latency lies between [lo / 2^g] and [hi / 2^g]. *)
Definition arrives_within (g lo hi : Z) (s : Signal.t) : Prop :=
  exists k, lo <= k <= hi /\ Signal.latency s = dyadic g k.

(** The exception that ends [tree_reduce] when some column holds more
    than two signals: the one [column_add] raises on the first column
    that it cannot reduce, and [TypeError] when there is none. *)
Fixpoint first_failure (vs : list (list Signal.t)) : exn :=
  match vs with
  | [] => TypeError
  | v :: vs' =>
      if (length v =? 0)%nat then AssertionError
      else if (length v mod 5 =? 1)%nat then IndexError
      else first_failure vs'
  end.

(** * Properties *)

(** ** Binary64 arithmetic *)


Lemma digits2_pos_bounds p :
  2 ^ (Zpos (digits2_pos p) - 1) <= Zpos p < 2 ^ Zpos (digits2_pos p).
Proof.
  induction p as [p IH|p IH|]; cbn [digits2_pos].
  - rewrite Pos2Z.inj_succ.
    replace (Z.succ (Zpos (digits2_pos p)) - 1) with (Z.succ (Zpos (digits2_pos p) - 1)) by lia.
    rewrite !Z.pow_succ_r by lia. lia.
  - rewrite Pos2Z.inj_succ.
    replace (Z.succ (Zpos (digits2_pos p)) - 1) with (Z.succ (Zpos (digits2_pos p) - 1)) by lia.
    rewrite !Z.pow_succ_r by lia. lia.
  - simpl. lia.
Qed.

Lemma digits2_pos_unique p n :
  2 ^ (n - 1) <= Zpos p < 2 ^ n -> Zpos (digits2_pos p) = n.
Proof.
  intros [H1 H2]. pose proof (digits2_pos_bounds p) as [B1 B2].
  assert (Hn : 0 < n).
  { destruct (Z.lt_ge_cases 0 n) as [|Hn]; [assumption|].
    assert (2 ^ n <= 2 ^ 0) by (apply Z.pow_le_mono_r; lia).
    simpl in *. lia. }
  destruct (Z.lt_trichotomy (Zpos (digits2_pos p)) n) as [Hlt|[Heq|Hgt]];
    [|assumption|].
  - assert (2 ^ Zpos (digits2_pos p) <= 2 ^ (n - 1))
      by (apply Z.pow_le_mono_r; lia). lia.
  - assert (2 ^ n <= 2 ^ (Zpos (digits2_pos p) - 1))
      by (apply Z.pow_le_mono_r; lia). lia.
Qed.

Lemma shift_left_value m d :
  Zpos (Pos.iter xO m d) = Zpos m * 2 ^ Zpos d.
Proof.
  revert m. induction d as [|d IH] using Pos.peano_ind; intros m.
  - simpl. lia.
  - rewrite Pos.iter_succ, Pos2Z.inj_succ, Z.pow_succ_r by lia.
    rewrite Pos2Z.inj_xO, IH. lia.
Qed.

Lemma iter_pos_swap {A} (f : A -> A) p x :
  SpecFloat.iter_pos f p (f x) = f (SpecFloat.iter_pos f p x).
Proof.
  revert x. induction p as [p IH|p IH|]; intros x; simpl;
    rewrite ?IH; reflexivity.
Qed.

Lemma iter_pos_succ {A} (f : A -> A) p x :
  SpecFloat.iter_pos f (Pos.succ p) x = f (SpecFloat.iter_pos f p x).
Proof.
  revert x. induction p as [p IH|p IH|]; intros x; simpl.
  - rewrite !IH, !iter_pos_swap. reflexivity.
  - rewrite !iter_pos_swap. reflexivity.
  - reflexivity.
Qed.

(** Shifting right a mantissa whose low bits are zero loses nothing. *)
Lemma shift_right_exact s : forall m,
  SpecFloat.iter_pos shr_1 s
    {| shr_m := Zpos (Pos.iter xO m s); shr_r := false; shr_s := false |}
  = {| shr_m := Zpos m; shr_r := false; shr_s := false |}.
Proof.
  induction s as [|s IH] using Pos.peano_ind; intros m.
  - reflexivity.
  - rewrite iter_pos_succ, Pos.iter_succ_r. rewrite IH. reflexivity.
Qed.

Lemma emin_eq : SpecFloat.emin prec emax = -1074.
Proof. reflexivity. Qed.

Lemma shr_fexp_canonical m e :
  Zpos (digits2_pos m) = prec -> -1074 <= e ->
  shr_fexp prec emax (Zpos m) e loc_Exact
  = ({| shr_m := Zpos m; shr_r := false; shr_s := false |}, e).
Proof.
  intros Hd He. unfold shr_fexp, fexp. cbn [Zdigits2 shr_record_of_loc].
  rewrite Hd, emin_eq.
  replace (Z.max (prec + e - prec) (-1074) - e) with 0 by lia.
  reflexivity.
Qed.

Lemma binary_round_aux_canonical m e :
  Zpos (digits2_pos m) = prec -> -1074 <= e <= 971 ->
  binary_round_aux prec emax false (Zpos m) e loc_Exact = S754_finite false m e.
Proof.
  intros Hd He. unfold binary_round_aux.
  rewrite shr_fexp_canonical by (assumption || lia).
  cbn [shr_m loc_of_shr_record round_nearest_even].
  rewrite shr_fexp_canonical by (assumption || lia).
  cbn [shr_m].
  replace (e <=? emax - prec) with true; [reflexivity|].
  symmetry. apply Z.leb_le. unfold emax, prec. lia.
Qed.

Lemma pow2_pos n : 0 <= n -> 0 < 2 ^ n.
Proof. intros. apply Z.pow_pos_nonneg; lia. Qed.

Lemma pow2_split a b : 0 <= a -> 0 <= b -> 2 ^ (a + b) = 2 ^ a * 2 ^ b.
Proof. intros. apply Z.pow_add_r; lia. Qed.

Lemma digits2_pos_shift M t :
  0 <= t -> Zpos (digits2_pos (Z.to_pos (Zpos M * 2 ^ t))) = Zpos (digits2_pos M) + t.
Proof.
  intros Ht. pose proof (digits2_pos_bounds M) as [B1 B2].
  pose proof (pow2_pos t Ht).
  apply digits2_pos_unique. rewrite Z2Pos.id by lia.
  replace (Zpos (digits2_pos M) + t - 1) with (Zpos (digits2_pos M) - 1 + t) by lia.
  rewrite !pow2_split by lia. nia.
Qed.

(** Rounding a mantissa and exponent whose value is that of a
    canonical normal number gives that number. *)
Lemma binary_round_exact M E m e c :
  Zpos (digits2_pos m) = prec -> -1074 <= e <= 971 ->
  c <= E -> c <= e ->
  Zpos M * 2 ^ (E - c) = Zpos m * 2 ^ (e - c) ->
  binary_round prec emax false M E = S754_finite false m e.
Proof.
  intros Hd He HcE Hce Hv.
  destruct (Z.le_gt_cases e E) as [HeE|HEe].
  - (* the mantissa is shifted left *)
    assert (Hm : Zpos M * 2 ^ (E - e) = Zpos m).
    { replace (E - c) with ((E - e) + (e - c)) in Hv by lia.
      rewrite pow2_split in Hv by lia.
      pose proof (pow2_pos (e - c) ltac:(lia)). nia. }
    assert (HdM : Zpos (digits2_pos M) + (E - e) = prec).
    { rewrite <- Hd, <- digits2_pos_shift by lia. rewrite Hm. reflexivity. }
    unfold binary_round, fexp. rewrite emin_eq.
    replace (Z.max (Zpos (digits2_pos M) + E - prec) (-1074)) with e by lia.
    unfold shl_align. destruct (e - E) as [|p|p] eqn:Ed; try lia.
    + assert (E = e) by lia. subst E. rewrite Z.sub_diag in Hm.
      assert (M = m) by lia. subst M.
      apply binary_round_aux_canonical; assumption.
    + assert (Pos.iter xO M p = m).
      { apply Pos2Z.inj. rewrite shift_left_value, <- Hm. do 2 f_equal. lia. }
      subst m. apply binary_round_aux_canonical; assumption.
  - (* the mantissa is shifted right, and its low bits are zero *)
    assert (Hm : Zpos M = Zpos m * 2 ^ (e - E)).
    { replace (e - c) with ((e - E) + (E - c)) in Hv by lia.
      rewrite pow2_split in Hv by lia.
      pose proof (pow2_pos (E - c) ltac:(lia)). nia. }
    destruct (e - E) as [|p|p] eqn:Ed; try lia.
    assert (HM : M = Pos.iter xO m p).
    { apply Pos2Z.inj. rewrite shift_left_value. exact Hm. }
    assert (HdM : Zpos (digits2_pos M) = prec + Zpos p).
    { rewrite <- Hd, <- digits2_pos_shift by lia. rewrite <- Hm. reflexivity. }
    unfold binary_round, fexp. rewrite emin_eq.
    replace (Z.max (Zpos (digits2_pos M) + E - prec) (-1074)) with e by lia.
    unfold shl_align. rewrite Ed.
    unfold binary_round_aux.
    replace (shr_fexp prec emax (Zpos M) E loc_Exact)
      with ({| shr_m := Zpos m; shr_r := false; shr_s := false |}, e).
    + cbn [shr_m loc_of_shr_record round_nearest_even].
      rewrite shr_fexp_canonical by (assumption || lia).
      cbn [shr_m].
      replace (e <=? emax - prec) with true; [reflexivity|].
      symmetry. apply Z.leb_le. unfold emax, prec. lia.
    + unfold shr_fexp, fexp. cbn [Zdigits2 shr_record_of_loc].
      rewrite HdM, emin_eq.
      replace (Z.max (prec + Zpos p + E - prec) (-1074) - E) with (Zpos p) by lia.
      unfold shr. rewrite HM, shift_right_exact. f_equal. lia.
Qed.

(** ** Dyadic numbers that a float holds exactly *)

Lemma digits_bounds k : 0 < k -> 2 ^ (digits k - 1) <= k < 2 ^ digits k.
Proof.
  intros Hk. unfold digits. pose proof (digits2_pos_bounds (Z.to_pos k)) as H.
  rewrite Z2Pos.id in H by lia. exact H.
Qed.

Lemma digits_pos k : 0 < digits k.
Proof. unfold digits. lia. Qed.

Lemma digits_le_prec k : 0 < k < 2 ^ prec -> digits k <= prec.
Proof.
  intros Hk. pose proof (digits_bounds k ltac:(lia)) as [B1 B2].
  destruct (Z.le_gt_cases (digits k) prec) as [|Hgt]; [assumption|].
  assert (2 ^ prec <= 2 ^ (digits k - 1)) by (apply Z.pow_le_mono_r; lia).
  lia.
Qed.

Lemma digits_mono k j : 0 < k <= j -> digits k <= digits j.
Proof.
  intros Hk. pose proof (digits_bounds k ltac:(lia)) as [B1 B2].
  pose proof (digits_bounds j ltac:(lia)) as [C1 C2].
  destruct (Z.le_gt_cases (digits k) (digits j)) as [|Hgt]; [assumption|].
  assert (2 ^ digits j <= 2 ^ (digits k - 1)) by (apply Z.pow_le_mono_r; lia).
  lia.
Qed.

Lemma mantissa_value k :
  0 < k < 2 ^ prec -> Zpos (mantissa k) = k * 2 ^ (prec - digits k).
Proof.
  intros Hk. unfold mantissa. pose proof (digits_le_prec k Hk).
  pose proof (pow2_pos (prec - digits k) ltac:(lia)).
  rewrite Z2Pos.id by nia. reflexivity.
Qed.

Lemma mantissa_digits k :
  0 < k < 2 ^ prec -> Zpos (digits2_pos (mantissa k)) = prec.
Proof.
  intros Hk. pose proof (digits_le_prec k Hk).
  unfold mantissa. replace k with (Zpos (Z.to_pos k)) at 1 by (rewrite Z2Pos.id; lia).
  rewrite digits2_pos_shift by lia. fold (digits k). lia.
Qed.

Lemma dyadic_canonical g k :
  0 < k < 2 ^ prec -> 0 <= g <= 1022 ->
  dyadic g k = S754_finite false (mantissa k) (exponent g k).
Proof.
  intros Hk Hg. pose proof (digits_le_prec k Hk). pose proof (digits_pos k).
  unfold dyadic. destruct k as [|K|K]; try lia. cbn [binary_normalize].
  apply (binary_round_exact _ _ _ _ (exponent g (Zpos K))).
  - apply mantissa_digits, Hk.
  - unfold exponent, prec in *. lia.
  - unfold exponent. lia.
  - lia.
  - rewrite Z.sub_diag, Z.mul_1_r, mantissa_value by exact Hk.
    do 2 f_equal. unfold exponent. lia.
Qed.

Lemma dyadic_zero g : dyadic g 0 = S754_zero false.
Proof. reflexivity. Qed.

Lemma shl_align_value mx ex ez :
  ez <= ex -> Zpos (fst (shl_align mx ex ez)) = Zpos mx * 2 ^ (ex - ez).
Proof.
  intros H. unfold shl_align. destruct (ez - ex) as [|p|p] eqn:E; try lia.
  - cbn [fst]. replace (ex - ez) with 0 by lia. lia.
  - cbn [fst]. rewrite shift_left_value. do 2 f_equal. lia.
Qed.

Lemma scale_pow k a b : 0 <= a -> 0 <= b -> k * 2 ^ a * 2 ^ b = k * 2 ^ (a + b).
Proof. intros. rewrite pow2_split by lia. lia. Qed.

(** Addition is exact as long as the sum has 53 bits or less. *)
Lemma fadd_dyadic g k j :
  0 <= g <= 1022 -> 0 <= k -> 0 <= j -> k + j < 2 ^ prec ->
  fadd (dyadic g k) (dyadic g j) = dyadic g (k + j).
Proof.
  intros Hg Hk Hj Hs.
  destruct (Z.eq_dec k 0) as [->|Hk0].
  { rewrite Z.add_0_l. destruct (Z.eq_dec j 0) as [->|Hj0]; [reflexivity|].
    rewrite dyadic_zero, dyadic_canonical by lia. reflexivity. }
  destruct (Z.eq_dec j 0) as [->|Hj0].
  { rewrite dyadic_zero, Z.add_0_r, dyadic_canonical by lia. reflexivity. }
  rewrite (dyadic_canonical g k), (dyadic_canonical g j),
    (dyadic_canonical g (k + j)) by lia.
  pose proof (digits_le_prec k ltac:(lia)) as Dk.
  pose proof (digits_le_prec j ltac:(lia)) as Dj.
  pose proof (digits_le_prec (k + j) ltac:(lia)) as Ds.
  pose proof (digits_mono k (k + j) ltac:(lia)) as Mk.
  pose proof (digits_mono j (k + j) ltac:(lia)) as Mj.
  pose proof (digits_pos k). pose proof (digits_pos j).
  set (ez := Z.min (exponent g k) (exponent g j)).
  change (fadd (S754_finite false (mantissa k) (exponent g k))
               (S754_finite false (mantissa j) (exponent g j)))
    with (binary_normalize prec emax
            (Zpos (fst (shl_align (mantissa k) (exponent g k) ez))
             + Zpos (fst (shl_align (mantissa j) (exponent g j) ez)))
            ez false).
  change (Zpos ?a + Zpos ?b) with (Zpos (a + b)). cbn [binary_normalize].
  apply (binary_round_exact _ _ _ _ ez).
  - apply mantissa_digits. lia.
  - unfold exponent, prec in *. lia.
  - lia.
  - unfold ez, exponent. lia.
  - rewrite Z.sub_diag, Z.mul_1_r, Pos2Z.inj_add.
    rewrite !shl_align_value by (unfold ez; lia).
    rewrite !mantissa_value by lia.
    rewrite !scale_pow by (unfold ez, exponent; lia).
    replace (prec - digits k + (exponent g k - ez)) with (- g - ez)
      by (unfold exponent; lia).
    replace (prec - digits j + (exponent g j - ez)) with (- g - ez)
      by (unfold exponent; lia).
    replace (prec - digits (k + j) + (exponent g (k + j) - ez)) with (- g - ez)
      by (unfold exponent; lia).
    lia.
Qed.

(** Comparison of exact dyadic values is comparison of their numerators. *)
Lemma fcompare_dyadic g k j :
  0 <= g <= 1022 -> 0 <= k < 2 ^ prec -> 0 <= j < 2 ^ prec ->
  SFcompare (dyadic g k) (dyadic g j) = Some (k ?= j).
Proof.
  intros Hg Hk Hj.
  destruct (Z.eq_dec k 0) as [->|Hk0]; destruct (Z.eq_dec j 0) as [->|Hj0];
    rewrite ?dyadic_zero, ?dyadic_canonical by lia; cbn [SFcompare].
  - reflexivity.
  - f_equal. symmetry. apply Z.compare_lt_iff. lia.
  - f_equal. symmetry. apply Z.compare_gt_iff. lia.
  - f_equal.
    pose proof (digits_bounds k ltac:(lia)) as [B1 B2].
    pose proof (digits_bounds j ltac:(lia)) as [C1 C2].
    pose proof (digits_le_prec k ltac:(lia)) as Dk.
    pose proof (digits_le_prec j ltac:(lia)) as Dj.
    unfold exponent.
    destruct (Z.compare_spec (digits k - g - prec) (digits j - g - prec))
      as [E|L|G].
    + assert (Ed : digits k = digits j) by lia.
      change (Pos.compare_cont Eq (mantissa k) (mantissa j))
        with (Zpos (mantissa k) ?= Zpos (mantissa j)).
      rewrite !mantissa_value, Ed by lia.
      pose proof (pow2_pos (prec - digits j) ltac:(lia)).
      destruct (Z.compare_spec k j) as [->|L|G];
        [apply Z.compare_refl|apply Z.compare_lt_iff; nia
        |apply Z.compare_gt_iff; nia].
    + symmetry. apply Z.compare_lt_iff.
      assert (2 ^ digits k <= 2 ^ (digits j - 1))
        by (apply Z.pow_le_mono_r; lia). lia.
    + symmetry. apply Z.compare_gt_iff.
      assert (2 ^ digits j <= 2 ^ (digits k - 1))
        by (apply Z.pow_le_mono_r; lia). lia.
Qed.

Lemma flt_dyadic g k j :
  0 <= g <= 1022 -> 0 <= k < 2 ^ prec -> 0 <= j < 2 ^ prec ->
  flt (dyadic g k) (dyadic g j) = (k <? j).
Proof.
  intros. unfold flt, SFltb, Z.ltb. rewrite fcompare_dyadic by assumption.
  destruct (k ?= j); reflexivity.
Qed.

Lemma fle_dyadic g k j :
  0 <= g <= 1022 -> 0 <= k < 2 ^ prec -> 0 <= j < 2 ^ prec ->
  fle (dyadic g k) (dyadic g j) = (k <=? j).
Proof.
  intros. unfold fle, SFleb, Z.leb. rewrite fcompare_dyadic by assumption.
  destruct (k ?= j); reflexivity.
Qed.

Lemma fmax_dyadic g k j :
  0 <= g <= 1022 -> 0 <= k < 2 ^ prec -> 0 <= j < 2 ^ prec ->
  fmax (dyadic g k) (dyadic g j) = dyadic g (Z.max k j).
Proof.
  intros. unfold fmax. rewrite flt_dyadic by assumption.
  destruct (Z.ltb_spec k j); f_equal; lia.
Qed.

(** The same number on a finer grid. *)
Lemma dyadic_scale g t k :
  0 <= g -> 0 <= t -> g + t <= 1022 -> 0 <= k < 2 ^ prec ->
  dyadic (g + t) (k * 2 ^ t) = dyadic g k.
Proof.
  intros Hg Ht Hgt Hk.
  destruct (Z.eq_dec k 0) as [->|Hk0]; [reflexivity|].
  rewrite (dyadic_canonical g k) by lia.
  pose proof (pow2_pos t Ht).
  pose proof (digits_le_prec k ltac:(lia)). pose proof (digits_pos k).
  unfold dyadic. destruct (k * 2 ^ t) as [|M|M] eqn:EM; try nia.
  cbn [binary_normalize].
  apply (binary_round_exact _ _ _ _ (- (g + t) - prec)).
  - apply mantissa_digits. lia.
  - unfold exponent, prec in *. lia.
  - unfold prec. lia.
  - unfold exponent. lia.
  - rewrite <- EM, mantissa_value by lia.
    rewrite !scale_pow by (unfold exponent; lia).
    f_equal. f_equal. unfold exponent. lia.
Qed.

(** Distinct numerators give distinct floats. *)
Lemma dyadic_inj g k j :
  0 <= g <= 1022 -> 0 <= k < 2 ^ prec -> 0 <= j < 2 ^ prec ->
  dyadic g k = dyadic g j -> k = j.
Proof.
  intros Hg Hk Hj E.
  pose proof (fcompare_dyadic g k j Hg Hk Hj) as C.
  rewrite E, (fcompare_dyadic g j j Hg Hj Hj), Z.compare_refl in C.
  injection C as C. symmetry in C. by apply Z.compare_eq in C.
Qed.

(** ** Non-negative binary64 numbers in general *)

Lemma bounded_cases m e :
  bounded prec emax m e = true ->
  -1074 <= e <= 971
  /\ Zpos (digits2_pos m) <= prec
  /\ (Zpos (digits2_pos m) = prec \/ e = -1074).
Proof.
  unfold bounded, canonical_mantissa, fexp. rewrite emin_eq.
  intros [H1 H2]%andb_true_iff. apply Z.eqb_eq in H1. apply Z.leb_le in H2.
  unfold emax, prec in *. lia.
Qed.

Lemma bounded_intro m e :
  -1074 <= e <= 971 ->
  Zpos (digits2_pos m) = prec \/ (Zpos (digits2_pos m) <= prec /\ e = -1074) ->
  bounded prec emax m e = true.
Proof.
  intros He Hd. unfold bounded, canonical_mantissa, fexp. rewrite emin_eq.
  apply andb_true_iff. split; [apply Z.eqb_eq|apply Z.leb_le];
    unfold emax, prec in *; lia.
Qed.

Lemma scaled_finite_pos m e : -1074 <= e -> 0 < scaled (S754_finite false m e).
Proof.
  intros He. cbn [scaled]. pose proof (pow2_pos (e + 1074) ltac:(lia)). nia.
Qed.

Lemma scaled_finite_below_infinity m e :
  bounded prec emax m e = true -> scaled (S754_finite false m e) < 2 ^ 2098.
Proof.
  intros (He & Hd & _)%bounded_cases. cbn [scaled].
  pose proof (digits2_pos_bounds m) as [_ B].
  assert (2 ^ Zpos (digits2_pos m) <= 2 ^ prec)
    by (apply Z.pow_le_mono_r; lia).
  assert (2 ^ (e + 1074) <= 2 ^ 2045) by (apply Z.pow_le_mono_r; lia).
  pose proof (pow2_pos (e + 1074) ltac:(lia)).
  change (2 ^ 2098) with (2 ^ prec * 2 ^ 2045). nia.
Qed.

Lemma scaled_finite_compare m1 e1 m2 e2 :
  bounded prec emax m1 e1 = true -> bounded prec emax m2 e2 = true ->
  e1 < e2 ->
  scaled (S754_finite false m1 e1) < scaled (S754_finite false m2 e2).
Proof.
  intros (He1 & Hd1 & _)%bounded_cases (He2 & _ & Hd2)%bounded_cases Hlt.
  destruct Hd2 as [Hd2|]; [|lia]. cbn [scaled].
  pose proof (digits2_pos_bounds m1) as [_ B1].
  pose proof (digits2_pos_bounds m2) as [B2 _]. rewrite Hd2 in B2.
  assert (2 ^ Zpos (digits2_pos m1) <= 2 ^ prec)
    by (apply Z.pow_le_mono_r; lia).
  assert (2 ^ (e1 + 1074 + 1) <= 2 ^ (e2 + 1074))
    by (apply Z.pow_le_mono_r; lia).
  rewrite Z.pow_add_r in * by lia.
  pose proof (pow2_pos (e1 + 1074) ltac:(lia)).
  change (2 ^ prec) with (2 * 2 ^ (prec - 1)) in *.
  change (2 ^ 1) with 2 in *. nia.
Qed.

(** On non-negative binary64 numbers the comparison of floats is the
    comparison of their values. *)
Lemma fcompare_scaled x y :
  nonneg_float x -> nonneg_float y ->
  SFcompare x y = Some (scaled x ?= scaled y).
Proof.
  intros [Vx Nx] [Vy Ny].
  destruct x as [sx|[|]| |[|] mx ex]; try discriminate;
    destruct y as [sy|[|]| |[|] my ey]; try discriminate;
    cbn [valid_binary] in Vx, Vy; cbn [SFcompare]; f_equal; symmetry.
  - apply (proj2 (Z.compare_lt_iff _ _)). apply bounded_cases in Vy.
    apply scaled_finite_pos. lia.
  - apply (proj2 (Z.compare_gt_iff _ _)).
    by apply scaled_finite_below_infinity.
  - apply (proj2 (Z.compare_gt_iff _ _)). apply bounded_cases in Vx.
    apply scaled_finite_pos. lia.
  - apply (proj2 (Z.compare_lt_iff _ _)).
    by apply scaled_finite_below_infinity.
  - destruct (Z.compare_spec ex ey) as [->|L|G].
    + cbn [scaled]. apply bounded_cases in Vx.
      pose proof (pow2_pos (ey + 1074) ltac:(lia)).
      change (PosDef.Pos.compare_cont Eq mx my) with (Zpos mx ?= Zpos my).
      destruct (Z.compare_spec (Zpos mx) (Zpos my)) as [->|L|G];
        [apply Z.compare_refl|apply (proj2 (Z.compare_lt_iff _ _)); nia
        |apply (proj2 (Z.compare_gt_iff _ _)); nia].
    + apply (proj2 (Z.compare_lt_iff _ _)). by apply scaled_finite_compare.
    + apply (proj2 (Z.compare_gt_iff _ _)). by apply scaled_finite_compare.
Qed.

Lemma fle_scaled x y :
  nonneg_float x -> nonneg_float y -> fle x y = (scaled x <=? scaled y).
Proof.
  intros. unfold fle, SFleb, Z.leb. rewrite fcompare_scaled by assumption.
  destruct (scaled x ?= scaled y); reflexivity.
Qed.

Lemma flt_scaled x y :
  nonneg_float x -> nonneg_float y -> flt x y = (scaled x <? scaled y).
Proof.
  intros. unfold flt, SFltb, Z.ltb. rewrite fcompare_scaled by assumption.
  destruct (scaled x ?= scaled y); reflexivity.
Qed.

Lemma fmax_nonneg x y :
  nonneg_float x -> nonneg_float y ->
  nonneg_float (fmax x y) /\ scaled (fmax x y) = Z.max (scaled x) (scaled y).
Proof.
  intros Hx Hy. unfold fmax. rewrite flt_scaled by assumption.
  destruct (Z.ltb_spec (scaled x) (scaled y)); split; try assumption; lia.
Qed.

(** ** Rounding never goes below the representable numbers under it *)

Lemma shr_1_div r : 0 <= shr_m r -> shr_m (shr_1 r) = shr_m r / 2.
Proof.
  destruct r as [m rb sb]. cbn [shr_m]. intros Hm.
  destruct m as [|[p|p|]|p]; cbn [shr_1 shr_m]; try lia.
  - reflexivity.
  - apply (Z.div_unique _ _ _ 1); lia.
  - apply (Z.div_unique _ _ _ 0); lia.
  - reflexivity.
Qed.

Lemma shr_iter_div p : forall r,
  0 <= shr_m r ->
  shr_m (SpecFloat.iter_pos shr_1 p r) = shr_m r / 2 ^ Zpos p.
Proof.
  induction p as [|p IH] using Pos.peano_ind; intros r Hr.
  - cbn [SpecFloat.iter_pos]. rewrite shr_1_div by assumption. reflexivity.
  - rewrite iter_pos_succ, shr_1_div, IH by
      (rewrite ?IH by assumption; try apply Z.div_pos;
       try apply pow2_pos; lia).
    rewrite Pos2Z.inj_succ, Z.pow_succ_r, Z.div_div by
      (try apply pow2_pos; lia).
    f_equal. lia.
Qed.

Lemma round_nearest_even_bounds q l :
  q <= round_nearest_even q l <= q + 1.
Proof.
  destruct l as [|[| |]]; cbn [round_nearest_even];
    try destruct (Z.even q); lia.
Qed.

(** [binary_round] on a mantissa that needs no left shift: the result
    is infinite, or a binary64 number that is not below the mantissa
    with its [s] low bits cleared. *)
Lemma binary_round_lower M E :
  -1074 <= E ->
  E <= fexp prec emax (Zpos (digits2_pos M) + E) ->
  let s := fexp prec emax (Zpos (digits2_pos M) + E) - E in
  binary_round prec emax false M E = S754_infinity false
  \/ exists m e,
       binary_round prec emax false M E = S754_finite false m e
       /\ bounded prec emax m e = true
       /\ E <= e
       /\ Zpos M / 2 ^ s * 2 ^ s <= Zpos m * 2 ^ (e - E).
Proof.
  intros HE Hs s. pose proof (digits2_pos_bounds M) as [B1 B2].
  remember (binary_round prec emax false M E) as r eqn:Er.
  unfold binary_round, shl_align in Er.
  destruct (fexp prec emax (Zpos (digits2_pos M) + E) - E) as [|p|p] eqn:Es;
    [| |lia].
  - (* no shift at all *)
    unfold binary_round_aux, shr_fexp in Er.
    cbn [Zdigits2 shr_record_of_loc] in Er.
    rewrite Es in Er. cbn [shr shr_m loc_of_shr_record round_nearest_even] in Er.
    cbn [Zdigits2 shr_record_of_loc] in Er. rewrite Es in Er.
    cbn [shr shr_m] in Er.
    destruct (Z.leb_spec E (emax - prec)) as [Hle|Hgt]; [right|by left].
    exists M, E. split; [exact Er|]. split; [|split; [lia|]].
    + unfold bounded, canonical_mantissa. apply andb_true_iff.
      split; [apply Z.eqb_eq; lia|by apply Z.leb_le].
    + subst s. change (2 ^ 0) with 1. rewrite Z.sub_diag.
      change (2 ^ 0) with 1. rewrite Z.div_1_r. lia.
  - (* [p] low bits are shifted out *)
    assert (Hd : Zpos (digits2_pos M) = prec + Zpos p).
    { unfold fexp in Es. rewrite emin_eq in Es. unfold prec in *. lia. }
    unfold binary_round_aux in Er. unfold shr_fexp at 1 in Er.
    cbn [Zdigits2 shr_record_of_loc] in Er. rewrite Es in Er. cbn [shr] in Er.
    set (mrs := SpecFloat.iter_pos shr_1 p _) in Er.
    assert (Hq : shr_m mrs = Zpos M / 2 ^ Zpos p).
    { unfold mrs. rewrite shr_iter_div by (cbn; lia). reflexivity. }
    rewrite Hq in Er. revert Er. generalize (loc_of_shr_record mrs). intros l Er.
    clear mrs Hq. set (q := Zpos M / 2 ^ Zpos p) in *.
    pose proof (pow2_pos (Zpos p) ltac:(lia)) as Hp.
    assert (Hq1 : 2 ^ (prec - 1) <= q).
    { apply Z.div_le_lower_bound; [lia|].
      rewrite <- pow2_split by (unfold prec; lia).
      rewrite Hd in B1. replace (Zpos p + (prec - 1))
        with (prec + Zpos p - 1) by lia. exact B1. }
    assert (Hq2 : q < 2 ^ prec).
    { apply Z.div_lt_upper_bound; [lia|].
      rewrite <- pow2_split by (unfold prec; lia).
      rewrite Hd in B2. replace (Zpos p + prec) with (prec + Zpos p) by lia.
      exact B2. }
    pose proof (round_nearest_even_bounds q l) as Hr.
    set (m1 := round_nearest_even q l) in *.
    assert (Hfloor : Zpos M / 2 ^ s * 2 ^ s <= m1 * 2 ^ Zpos p).
    { subst s. fold q. nia. }
    clearbody m1.
    change (2 ^ (prec - 1)) with 4503599627370496 in *.
    change (2 ^ prec) with 9007199254740992 in *.
    destruct m1 as [|m1|m1]; try lia.
    destruct (Z.eq_dec (Zpos m1) 9007199254740992) as [Htop|Hlow].
    + (* the mantissa was rounded up to 2^53 *)
      injection Htop as ->.
      replace (shr_fexp prec emax 9007199254740992 (E + Zpos p) loc_Exact)
        with ({| shr_m := 4503599627370496; shr_r := false; shr_s := false |},
              E + Zpos p + 1) in Er.
      2:{ unfold shr_fexp, fexp. rewrite emin_eq.
          cbn [Zdigits2 shr_record_of_loc].
          change (Zpos (digits2_pos 9007199254740992)) with 54.
          replace (Z.max (54 + (E + Zpos p) - prec) (-1074) - (E + Zpos p))
            with 1 by (unfold prec; lia).
          reflexivity. }
      cbn [shr_m] in Er.
      destruct (Z.leb_spec (E + Zpos p + 1) (emax - prec)) as [Hle|Hgt];
        [right|by left].
      exists 4503599627370496%positive, (E + Zpos p + 1).
      split; [exact Er|]. split; [|split; [lia|]].
      * apply bounded_intro; [unfold emax, prec in *; lia|].
        left. reflexivity.
      * replace (E + Zpos p + 1 - E) with (Zpos p + 1) by lia.
        rewrite pow2_split by lia. change (2 ^ 1) with 2. lia.
    + assert (Hd1 : Zpos (digits2_pos m1) = prec).
      { apply digits2_pos_unique.
        change (2 ^ (prec - 1)) with 4503599627370496.
        change (2 ^ prec) with 9007199254740992. lia. }
      rewrite shr_fexp_canonical in Er by (assumption || lia).
      cbn [shr_m] in Er.
      destruct (Z.leb_spec (E + Zpos p) (emax - prec)) as [Hle|Hgt];
        [right|by left].
      exists m1, (E + Zpos p). split; [exact Er|]. split; [|split; [lia|]].
      * apply bounded_intro; [unfold emax, prec in *; lia|by left].
      * replace (E + Zpos p - E) with (Zpos p) by lia. exact Hfloor.
Qed.

Lemma floor_keeps x M s :
  0 < x <= M -> 0 <= s ->
  (exists t, x = t * 2 ^ s) \/ (exists n, s <= n /\ x < 2 ^ n /\ 2 ^ n <= M) ->
  x <= M / 2 ^ s * 2 ^ s.
Proof.
  intros Hx Hs H. pose proof (pow2_pos s Hs) as Hp.
  destruct H as [[t ->]|(n & Hn & H1 & H2)].
  - assert (t <= M / 2 ^ s) by (apply Z.div_le_lower_bound; lia). nia.
  - assert (2 ^ (n - s) <= M / 2 ^ s).
    { apply Z.div_le_lower_bound; [lia|].
      rewrite <- pow2_split by lia. replace (s + (n - s)) with n by lia.
      exact H2. }
    assert (2 ^ n = 2 ^ (n - s) * 2 ^ s).
    { rewrite <- pow2_split by lia. f_equal. lia. }
    nia.
Qed.

Lemma digits2_pos_mono p q :
  Zpos p <= Zpos q -> Zpos (digits2_pos p) <= Zpos (digits2_pos q).
Proof. intros H. apply (digits_mono (Zpos p) (Zpos q)). lia. Qed.

Lemma digits2_pos_shl mx ex ez :
  ez <= ex ->
  Zpos (digits2_pos (fst (shl_align mx ex ez)))
  = Zpos (digits2_pos mx) + (ex - ez).
Proof.
  intros H. rewrite <- digits2_pos_shift by lia.
  rewrite <- shl_align_value by assumption. reflexivity.
Qed.

(** The sum of two positive binary64 numbers is a non-negative
    binary64 number (possibly infinite) that is not below the first. *)
Lemma fadd_finite_lower mx ex my ey :
  bounded prec emax mx ex = true -> bounded prec emax my ey = true ->
  nonneg_float (fadd (S754_finite false mx ex) (S754_finite false my ey))
  /\ scaled (S754_finite false mx ex)
     <= scaled (fadd (S754_finite false mx ex) (S754_finite false my ey)).
Proof.
  intros Vx Vy.
  pose proof (scaled_finite_below_infinity _ _ Vx) as Hinf.
  destruct (bounded_cases _ _ Vx) as (Hex & Hdx & Cx).
  destruct (bounded_cases _ _ Vy) as (Hey & Hdy & Cy).
  set (ez := Z.min ex ey).
  set (a := fst (shl_align mx ex ez)). set (b := fst (shl_align my ey ez)).
  change (fadd (S754_finite false mx ex) (S754_finite false my ey))
    with (binary_round prec emax false (a + b) ez).
  assert (Ha : Zpos a = Zpos mx * 2 ^ (ex - ez))
    by (apply shl_align_value; unfold ez; lia).
  assert (Hb : Zpos b = Zpos my * 2 ^ (ey - ez))
    by (apply shl_align_value; unfold ez; lia).
  assert (Hda : Zpos (digits2_pos a) = Zpos (digits2_pos mx) + (ex - ez))
    by (apply digits2_pos_shl; unfold ez; lia).
  assert (Hdb : Zpos (digits2_pos b) = Zpos (digits2_pos my) + (ey - ez))
    by (apply digits2_pos_shl; unfold ez; lia).
  pose proof (digits2_pos_mono a (a + b) ltac:(lia)) as Ma.
  pose proof (digits2_pos_mono b (a + b) ltac:(lia)) as Mb.
  pose proof (digits2_pos_bounds (a + b)) as [B1 B2].
  pose proof (digits2_pos_bounds a) as [A1 A2].
  set (dM := Zpos (digits2_pos (a + b))) in *.
  assert (Hfexp : ez <= fexp prec emax (dM + ez)).
  { unfold fexp. rewrite emin_eq. clearbody a b dM.
    clear Ha Hb B1 B2 A1 A2 Hinf. unfold ez, prec in *. lia. }
  assert (Hez : -1074 <= ez) by (unfold ez; lia).
  destruct (binary_round_lower (a + b) ez Hez Hfexp)
    as [->|(m & e & -> & Vm & He & Hfloor)].
  { split; [split; reflexivity|]. cbn [scaled] in *. lia. }
  split; [split; [exact Vm|reflexivity]|].
  fold dM in Hfloor. set (s := fexp prec emax (dM + ez) - ez) in *.
  assert (Hkeep : Zpos a <= Zpos (a + b) / 2 ^ s * 2 ^ s).
  { apply floor_keeps; [lia|lia|].
    destruct (Z.eq_dec s 0) as [->|Hs0].
    { left. exists (Zpos a). change (2 ^ 0) with 1. lia. }
    assert (Hs : s = dM - prec).
    { unfold s, fexp in *. rewrite emin_eq in *. unfold prec in *. lia. }
    destruct (Z.eq_dec (Zpos (digits2_pos a)) dM) as [Ed|Nd].
    - left. exists (Zpos mx * 2 ^ (ex - ez - s)).
      rewrite scale_pow by lia. rewrite Ha. do 2 f_equal. lia.
    - right. exists (dM - 1). unfold prec in *.
      split; [lia|]. split; [|exact B1].
      assert (2 ^ Zpos (digits2_pos a) <= 2 ^ (dM - 1))
        by (apply Z.pow_le_mono_r; lia). lia. }
  cbn [scaled].
  assert (Hezx : ez <= ex) by (unfold ez; lia).
  replace (e + 1074) with ((e - ez) + (ez + 1074)) by lia.
  replace (ex + 1074) with ((ex - ez) + (ez + 1074)) by lia.
  rewrite (pow2_split (e - ez) (ez + 1074)),
    (pow2_split (ex - ez) (ez + 1074)) by lia.
  rewrite !Z.mul_assoc, <- Ha.
  apply Z.mul_le_mono_nonneg_r; [apply Z.lt_le_incl, pow2_pos|]; lia.
Qed.

Lemma scaled_nonneg x : 0 <= scaled x.
Proof.
  destruct x as [s|[|]| |[|] m e]; cbn [scaled]; lia.
Qed.

(** Adding a non-negative number never gives less: Python's
    [x + y >= x] for floats [x >= 0] and [y >= 0]. *)
Lemma fadd_nonneg x y :
  nonneg_float x -> nonneg_float y ->
  nonneg_float (fadd x y) /\ scaled x <= scaled (fadd x y).
Proof.
  intros [Vx Nx] [Vy Ny].
  destruct x as [sx|[|]| |[|] mx ex]; try discriminate;
    destruct y as [sy|[|]| |[|] my ey]; try discriminate.
  - destruct sx, sy; (split; [split; reflexivity|reflexivity]).
  - split; [split; reflexivity|]. cbn. lia.
  - split; [split; [exact Vy|reflexivity]|].
    change (fadd (S754_zero sx) (S754_finite false my ey))
      with (S754_finite false my ey).
    change (scaled (S754_zero sx)) with 0. apply scaled_nonneg.
  - split; [split; reflexivity|reflexivity].
  - split; [split; reflexivity|reflexivity].
  - split; [split; reflexivity|reflexivity].
  - split; [split; [exact Vx|reflexivity]|reflexivity].
  - split; [split; reflexivity|].
    change (fadd (S754_finite false mx ex) (S754_infinity false))
      with (S754_infinity false).
    apply Z.lt_le_incl. by apply scaled_finite_below_infinity.
  - by apply fadd_finite_lower.
Qed.

Lemma fadd_ge_left x y :
  nonneg_float x -> nonneg_float y -> fle x (fadd x y) = true.
Proof.
  intros Hx Hy. destruct (fadd_nonneg x y Hx Hy) as [Hs Hle].
  rewrite fle_scaled by assumption. by apply Z.leb_le.
Qed.

(** ** The delay constants on an exact grid *)

Lemma half_units_pos g : 1 <= g -> 1 <= half_units g.
Proof.
  intros Hg. unfold half_units. pose proof (pow2_pos (g - 1) ltac:(lia)). lia.
Qed.

(** A grid on which 0.5 is below 2^53 units has at most 53 fractional
    bits. *)
Lemma grid_bound g : 1 <= g -> half_units g < 2 ^ prec -> g <= 53.
Proof.
  intros Hg H. destruct (Z.le_gt_cases g 53) as [|Hgt]; [assumption|].
  assert (2 ^ prec <= half_units g)
    by (unfold half_units; apply Z.pow_le_mono_r; unfold prec; lia).
  lia.
Qed.

Lemma literal_on_grid g n :
  1 <= g <= 1022 -> 0 <= n < 2 ^ prec ->
  dyadic g (n * half_units g) = dyadic 1 n.
Proof.
  intros Hg Hn. unfold half_units.
  replace g with (1 + (g - 1)) at 1 by lia.
  apply dyadic_scale; lia.
Qed.

Lemma fadd_literal g k n :
  1 <= g <= 1022 -> 0 <= k -> 0 <= n -> k + n * half_units g < 2 ^ prec ->
  fadd (dyadic g k) (dyadic 1 n) = dyadic g (k + n * half_units g).
Proof.
  intros Hg Hk Hn Hs. pose proof (half_units_pos g ltac:(lia)).
  rewrite <- (literal_on_grid g n) by nia.
  apply fadd_dyadic; nia.
Qed.

Lemma literal_nonneg n : 0 <= n < 2 ^ prec -> nonneg_float (dyadic 1 n).
Proof.
  intros Hn. destruct (Z.eq_dec n 0) as [->|Hn0]; [split; reflexivity|].
  rewrite dyadic_canonical by lia. split; [|reflexivity].
  cbn [valid_binary]. pose proof (digits_le_prec n ltac:(lia)).
  pose proof (digits_pos n).
  apply bounded_intro; [unfold exponent, prec in *; lia|].
  left. apply mantissa_digits. lia.
Qed.

(** ** The compressor delay model *)

Lemma latency_sum_3to2 : Compressor3to2.latency_sum = 3.0%float.
Proof. vm_compute. reflexivity. Qed.

Lemma latency_cout_3to2 : Compressor3to2.latency_cout = 2.0%float.
Proof. vm_compute. reflexivity. Qed.

Lemma latency_sum_4to2 : Compressor4to2.latency_sum = 4.5%float.
Proof. vm_compute. reflexivity. Qed.

Lemma latency_abcd_4to2 : Compressor4to2.latency_abcd = 3.0%float.
Proof. vm_compute. reflexivity. Qed.

Lemma latency_cout_b_4to2 : Compressor4to2.latency_cout_b = 2.0%float.
Proof. vm_compute. reflexivity. Qed.

Section DelayModel.
Variables a b c d cin : Signal.t.
Variables column level no : Z.

Abbreviation la := (Signal.latency a).
Abbreviation lb := (Signal.latency b).
Abbreviation lc := (Signal.latency c).
Abbreviation ld := (Signal.latency d).
Abbreviation lcin := (Signal.latency cin).

Lemma latency_2to1 :
  let k := Compressor2to1.init a b column level no in
  Signal.latency (Compressor2to1.sum k) = fadd (fmax la lb) 1.5
  /\ Signal.latency (Compressor2to1.cout k) = fadd (fmax la lb) 1.0.
Proof. split; reflexivity. Qed.

Lemma latency_3to2 :
  let k := Compressor3to2.init a b c column level no in
  Signal.latency (Compressor3to2.sum k) = fadd (fmax (fmax la lb) lc) 3.0
  /\ Signal.latency (Compressor3to2.cout k) = fadd (fmax (fmax la lb) lc) 2.0.
Proof.
  cbv zeta; cbn [Compressor3to2.init Compressor3to2.sum Compressor3to2.cout
                 Signal.init Signal.latency].
  rewrite latency_sum_3to2, latency_cout_3to2. split; reflexivity.
Qed.

Lemma latency_4to2 :
  let k := Compressor4to2.init a b c d cin column level no in
  Signal.latency (Compressor4to2.sum k)
  = fadd (fmax (fmax (fmax (fmax la lb) lc) ld) lcin) 4.5
  /\ Signal.latency (Compressor4to2.cout_a k)
     = fadd (fmax (fadd (fmax (fmax (fmax la lb) lc) ld) 3.0)
                  (fadd lcin 1.0)) 1.0
  /\ Signal.latency (Compressor4to2.cout_b k)
     = fadd (fmax (fmax la lb) lc) 2.0.
Proof.
  cbv zeta; cbn [Compressor4to2.init Compressor4to2.sum
                 Compressor4to2.cout_a Compressor4to2.cout_b
                 Signal.init Signal.latency].
  rewrite latency_sum_4to2, latency_abcd_4to2, latency_cout_b_4to2.
  repeat split; reflexivity.
Qed.

(** *** Inputs on an exact grid: every addition is exact *)

Section Grid.
Variables g ka kb kc kd kcin : Z.
Hypothesis Hg : 1 <= g.
Hypothesis Ha : exact_input g ka a.
Hypothesis Hb : exact_input g kb b.
Hypothesis Hc : exact_input g kc c.
Hypothesis Hd : exact_input g kd d.
Hypothesis Hcin : exact_input g kcin cin.

Abbreviation u := (half_units g).

Lemma grid_2to1 :
  let k := Compressor2to1.init a b column level no in
  Signal.latency (Compressor2to1.sum k) = dyadic g (Z.max ka kb + 3 * u)
  /\ Signal.latency (Compressor2to1.cout k) = dyadic g (Z.max ka kb + 2 * u).
Proof.
  destruct Ha as (A1 & A2 & Ea), Hb as (B1 & B2 & Eb).
  pose proof (half_units_pos g Hg) as Hu.
  pose proof (grid_bound g Hg ltac:(lia)) as Hg50.
  destruct latency_2to1 as [E1 E2]. cbv zeta in *. rewrite E1, E2, Ea, Eb.
  rewrite fmax_dyadic by lia.
  change 1.5%float with (dyadic 1 3). change 1.0%float with (dyadic 1 2).
  rewrite !fadd_literal by lia. split; reflexivity.
Qed.

Lemma grid_3to2 :
  let k := Compressor3to2.init a b c column level no in
  Signal.latency (Compressor3to2.sum k)
  = dyadic g (Z.max (Z.max ka kb) kc + 6 * u)
  /\ Signal.latency (Compressor3to2.cout k)
     = dyadic g (Z.max (Z.max ka kb) kc + 4 * u).
Proof.
  destruct Ha as (A1 & A2 & Ea), Hb as (B1 & B2 & Eb), Hc as (C1 & C2 & Ec).
  pose proof (half_units_pos g Hg) as Hu.
  pose proof (grid_bound g Hg ltac:(lia)) as Hg50.
  destruct latency_3to2 as [E1 E2]. cbv zeta in *. rewrite E1, E2, Ea, Eb, Ec.
  rewrite !fmax_dyadic by lia.
  change 3.0%float with (dyadic 1 6). change 2.0%float with (dyadic 1 4).
  rewrite !fadd_literal by lia. split; reflexivity.
Qed.

Lemma grid_4to2 :
  let k := Compressor4to2.init a b c d cin column level no in
  Signal.latency (Compressor4to2.sum k)
  = dyadic g (Z.max (Z.max (Z.max (Z.max ka kb) kc) kd) kcin + 9 * u)
  /\ Signal.latency (Compressor4to2.cout_a k)
     = dyadic g (Z.max (Z.max (Z.max (Z.max ka kb) kc) kd + 6 * u)
                       (kcin + 2 * u) + 2 * u)
  /\ Signal.latency (Compressor4to2.cout_b k)
     = dyadic g (Z.max (Z.max ka kb) kc + 4 * u).
Proof.
  destruct Ha as (A1 & A2 & Ea), Hb as (B1 & B2 & Eb), Hc as (C1 & C2 & Ec),
    Hd as (D1 & D2 & Ed), Hcin as (I1 & I2 & Ei).
  pose proof (half_units_pos g Hg) as Hu.
  pose proof (grid_bound g Hg ltac:(lia)) as Hg50.
  destruct latency_4to2 as (E1 & E2 & E3). cbv zeta in *.
  rewrite E1, E2, E3, Ea, Eb, Ec, Ed, Ei.
  rewrite !(fmax_dyadic g ka kb), !(fmax_dyadic g _ kc), !(fmax_dyadic g _ kd),
    (fmax_dyadic g _ kcin) by lia.
  change 4.5%float with (dyadic 1 9). change 3.0%float with (dyadic 1 6).
  change 2.0%float with (dyadic 1 4). change 1.0%float with (dyadic 1 2).
  rewrite (fadd_literal g _ 9), (fadd_literal g _ 4), (fadd_literal g _ 6),
    (fadd_literal g kcin 2) by lia.
  rewrite fmax_dyadic by lia.
  rewrite fadd_literal by lia. repeat split; reflexivity.
Qed.
End Grid.
End DelayModel.

(** ** Running a computation *)

Lemma run_bind {A B} (m : M A) (f : A -> M B) (σ : Store) :
  (m ≫= f) σ =
  match m σ with
  | (σ', Return a) => f a σ'
  | (σ', Raise e) => (σ', Raise e)
  | (σ', Stuck) => (σ', Stuck)
  end.
Proof. reflexivity. Qed.

Lemma bind_Return {A B} (m : M A) (f : A -> M B) σ σ' a :
  m σ = (σ', Return a) -> (m ≫= f) σ = f a σ'.
Proof. intros E. rewrite run_bind, E. reflexivity. Qed.

Lemma bind_Raise {A B} (m : M A) (f : A -> M B) σ σ' e :
  m σ = (σ', Raise e) -> (m ≫= f) σ = (σ', Raise e).
Proof. intros E. rewrite run_bind, E. reflexivity. Qed.

Section ListObjects.
Variable σ : Store.
Variable l : loc.
Variable v : list Signal.t.
Hypothesis Hl : heap σ !! l = Some v.

Lemma load_eq : load l σ = (σ, Return v).
Proof. unfold load. rewrite Hl. reflexivity. Qed.

Lemma list_len_eq : list_len l σ = (σ, Return (len v)).
Proof. unfold list_len. rewrite (bind_Return _ _ _ _ _ load_eq). reflexivity. Qed.

Lemma getitem_eq i x :
  index v i = Some x -> getitem l i σ = (σ, Return x).
Proof.
  intros E. unfold getitem. rewrite (bind_Return _ _ _ _ _ load_eq).
  unfold item. rewrite E. reflexivity.
Qed.

Lemma getitem_IndexError i :
  index v i = None -> getitem l i σ = (σ, Raise IndexError).
Proof.
  intros E. unfold getitem. rewrite (bind_Return _ _ _ _ _ load_eq).
  unfold item. rewrite E. reflexivity.
Qed.

Lemma clear_eq : clear l σ = (set_heap <[l := []]> σ, Return tt).
Proof. unfold clear. rewrite (bind_Return _ _ _ _ _ load_eq). reflexivity. Qed.

Lemma append_eq x :
  append l x σ = (set_heap <[l := v ++ [x]]> σ, Return tt).
Proof. unfold append. rewrite (bind_Return _ _ _ _ _ load_eq). reflexivity. Qed.
End ListObjects.

Lemma pop_eq σ l v x :
  heap σ !! l = Some (v ++ [x]) ->
  pop l σ = (set_heap <[l := v]> σ, Return x).
Proof.
  intros Hl. unfold pop. rewrite (bind_Return _ _ _ _ _ (load_eq _ _ _ Hl)).
  rewrite last_snoc, removelast_last. reflexivity.
Qed.

Lemma heap_set_heap_insert σ l v :
  heap (set_heap <[l := v]> σ) !! l = Some v.
Proof. simpl. apply lookup_insert_eq. Qed.

Lemma set_heap_insert_twice σ l v w :
  set_heap <[l := w]> (set_heap <[l := v]> σ) = set_heap <[l := w]> σ.
Proof. unfold set_heap. simpl. rewrite insert_insert_eq. reflexivity. Qed.

Lemma compressors_append_eq k σ :
  compressors_append k σ
  = (set_compressors (compressors σ ++ [k]) σ, Return tt).
Proof. reflexivity. Qed.

Lemma len_app {A} (u w : list A) : len (u ++ w) = len u + len w.
Proof. unfold len. rewrite length_app. lia. Qed.

Lemma len_nonneg {A} (u : list A) : 0 <= len u.
Proof. unfold len. lia. Qed.

(** [l[-k]] is the [k]-th element from the end. *)
Lemma index_from_end {A} (u w : list A) (k : Z) x :
  len w = k -> 0 < k -> w !! 0%nat = Some x ->
  index (u ++ w) (- k) = Some x.
Proof.
  intros Hk Hpos Hx. unfold index.
  destruct (Z.ltb_spec (- k) 0); [|lia].
  rewrite len_app.
  destruct (Z.ltb_spec (len u + len w + - k) 0);
    [pose proof (len_nonneg u); lia|].
  replace (Z.to_nat (len u + len w + - k)) with (length u + 0)%nat
    by (unfold len in *; lia).
  rewrite lookup_app_r by lia.
  replace (length u + 0 - length u)%nat with 0%nat by lia. exact Hx.
Qed.

(** ** One call of [column_add] *)

Ltac len_tests :=
  repeat match goal with
  | |- context [negb (?n >? ?k)] =>
      let b := eval vm_compute in (negb (n >? k)) in
      change (negb (n >? k)) with b; cbv iota
  | |- context [?n =? ?k] =>
      let b := eval vm_compute in (n =? k) in
      change (n =? k) with b; cbv iota
  end.

Section ColumnAdd.
Variables (fuel : nat) (self : WallaceTree.t) (σ : Store) (l : loc).
Variables column level no : Z.


Lemma column_add_rec_0 :
  heap σ !! l = Some [] ->
  WallaceTree.column_add_rec (S fuel) self l column level no σ
  = (σ, Raise AssertionError).
Proof.
  intros Hl. cbn [WallaceTree.column_add_rec].
  rewrite (bind_Return _ _ _ _ _ (list_len_eq _ _ _ Hl)).
  reflexivity.
Qed.

Lemma column_add_rec_1 s :
  heap σ !! l = Some [s] ->
  WallaceTree.column_add_rec (S fuel) self l column level no σ
  = (set_heap <[l := []]> σ, Raise IndexError).
Proof.
  intros Hl. cbn [WallaceTree.column_add_rec].
  rewrite (bind_Return _ _ _ _ _ (list_len_eq _ _ _ Hl)). len_tests.
  rewrite (bind_Return _ _ _ _ _ (clear_eq _ _ _ Hl)).
  rewrite (bind_Raise _ _ _ _ _
             (getitem_IndexError _ _ [] (heap_set_heap_insert _ _ _) 0 eq_refl)).
  reflexivity.
Qed.

Lemma column_add_rec_2 a b :
  heap σ !! l = Some [a; b] ->
  let k := Compressor2to1.init a b column level no in
  WallaceTree.column_add_rec (S fuel) self l column level no σ
  = (registered σ l (Is2to1 k),
     Return ([Compressor2to1.cout k], [Compressor2to1.sum k])).
Proof.
  intros Hl k. cbn [WallaceTree.column_add_rec].
  rewrite (bind_Return _ _ _ _ _ (list_len_eq _ _ _ Hl)). len_tests.
  rewrite (bind_Return _ _ _ _ _ (getitem_eq _ _ _ Hl 0 a eq_refl)).
  rewrite (bind_Return _ _ _ _ _ (getitem_eq _ _ _ Hl 1 b eq_refl)).
  rewrite (bind_Return _ _ _ _ _ (compressors_append_eq _ _)).
  rewrite (bind_Return _ _ _ _ _ (clear_eq (set_compressors _ σ) _ _ Hl)).
  reflexivity.
Qed.

Lemma column_add_rec_3 a b c :
  heap σ !! l = Some [a; b; c] ->
  let k := Compressor3to2.init a b c column level no in
  WallaceTree.column_add_rec (S fuel) self l column level no σ
  = (registered σ l (Is3to2 k),
     Return ([Compressor3to2.cout k], [Compressor3to2.sum k])).
Proof.
  intros Hl k. cbn [WallaceTree.column_add_rec].
  rewrite (bind_Return _ _ _ _ _ (list_len_eq _ _ _ Hl)). len_tests.
  rewrite (bind_Return _ _ _ _ _ (getitem_eq _ _ _ Hl 0 a eq_refl)).
  rewrite (bind_Return _ _ _ _ _ (getitem_eq _ _ _ Hl 1 b eq_refl)).
  rewrite (bind_Return _ _ _ _ _ (getitem_eq _ _ _ Hl 2 c eq_refl)).
  rewrite (bind_Return _ _ _ _ _ (compressors_append_eq _ _)).
  rewrite (bind_Return _ _ _ _ _ (clear_eq (set_compressors _ σ) _ _ Hl)).
  reflexivity.
Qed.

Lemma column_add_rec_4 a b c d :
  heap σ !! l = Some [a; b; c; d] ->
  let k := Compressor4to2.init a b c d TIE_LOW column level no in
  WallaceTree.column_add_rec (S fuel) self l column level no σ
  = (registered σ l (Is4to2 k),
     Return ([Compressor4to2.cout_a k; Compressor4to2.cout_b k],
             [Compressor4to2.sum k])).
Proof.
  intros Hl k. cbn [WallaceTree.column_add_rec].
  rewrite (bind_Return _ _ _ _ _ (list_len_eq _ _ _ Hl)). len_tests.
  rewrite (bind_Return _ _ _ _ _ (getitem_eq _ _ _ Hl 0 a eq_refl)).
  rewrite (bind_Return _ _ _ _ _ (getitem_eq _ _ _ Hl 1 b eq_refl)).
  rewrite (bind_Return _ _ _ _ _ (getitem_eq _ _ _ Hl 2 c eq_refl)).
  rewrite (bind_Return _ _ _ _ _ (getitem_eq _ _ _ Hl 3 d eq_refl)).
  rewrite (bind_Return _ _ _ _ _ (compressors_append_eq _ _)).
  rewrite (bind_Return _ _ _ _ _ (clear_eq (set_compressors _ σ) _ _ Hl)).
  reflexivity.
Qed.

Lemma column_add_rec_5 a b c d cin :
  heap σ !! l = Some [a; b; c; d; cin] ->
  let k := Compressor4to2.init a b c d cin column level no in
  WallaceTree.column_add_rec (S fuel) self l column level no σ
  = (registered σ l (Is4to2 k),
     Return ([Compressor4to2.cout_a k; Compressor4to2.cout_b k],
             [Compressor4to2.sum k])).
Proof.
  intros Hl k. cbn [WallaceTree.column_add_rec].
  rewrite (bind_Return _ _ _ _ _ (list_len_eq _ _ _ Hl)). len_tests.
  rewrite (bind_Return _ _ _ _ _ (getitem_eq _ _ _ Hl 0 a eq_refl)).
  rewrite (bind_Return _ _ _ _ _ (getitem_eq _ _ _ Hl 1 b eq_refl)).
  rewrite (bind_Return _ _ _ _ _ (getitem_eq _ _ _ Hl 2 c eq_refl)).
  rewrite (bind_Return _ _ _ _ _ (getitem_eq _ _ _ Hl 3 d eq_refl)).
  rewrite (bind_Return _ _ _ _ _ (getitem_eq _ _ _ Hl 4 cin eq_refl)).
  rewrite (bind_Return _ _ _ _ _ (compressors_append_eq _ _)).
  rewrite (bind_Return _ _ _ _ _ (clear_eq (set_compressors _ σ) _ _ Hl)).
  reflexivity.
Qed.
End ColumnAdd.

(** The five most recently appended signals, and their removal. *)
Section LastFive.
Variables (rest : list Signal.t) (s5 s4 s3 s2 s1 : Signal.t).

Abbreviation v := (rest ++ [s5; s4; s3; s2; s1]).

Lemma index_last_five :
  index v (-1) = Some s1 /\ index v (-2) = Some s2
  /\ index v (-3) = Some s3 /\ index v (-4) = Some s4
  /\ index v (-5) = Some s5.
Proof.
  repeat split.
  - replace (rest ++ [s5; s4; s3; s2; s1])
      with ((rest ++ [s5; s4; s3; s2]) ++ [s1])
      by (rewrite <- app_assoc; reflexivity).
    exact (index_from_end _ [s1] 1 s1 eq_refl eq_refl eq_refl).
  - replace (rest ++ [s5; s4; s3; s2; s1])
      with ((rest ++ [s5; s4; s3]) ++ [s2; s1])
      by (rewrite <- app_assoc; reflexivity).
    exact (index_from_end _ [s2; s1] 2 s2 eq_refl eq_refl eq_refl).
  - replace (rest ++ [s5; s4; s3; s2; s1])
      with ((rest ++ [s5; s4]) ++ [s3; s2; s1])
      by (rewrite <- app_assoc; reflexivity).
    exact (index_from_end _ [s3; s2; s1] 3 s3 eq_refl eq_refl eq_refl).
  - replace (rest ++ [s5; s4; s3; s2; s1])
      with ((rest ++ [s5]) ++ [s4; s3; s2; s1])
      by (rewrite <- app_assoc; reflexivity).
    exact (index_from_end _ [s4; s3; s2; s1] 4 s4 eq_refl eq_refl eq_refl).
  - exact (index_from_end rest [s5; s4; s3; s2; s1] 5 s5
             eq_refl eq_refl eq_refl).
Qed.

Lemma pop_five σ l :
  heap σ !! l = Some v ->
  for_each (range 0 5) (fun _ => _ ← pop l; mret tt) σ
  = (set_heap <[l := rest]> σ, Return tt).
Proof.
  intros Hl.
  change (range 0 5) with [0; 1; 2; 3; 4]. cbn [for_each].
  assert (P : forall σ0 u x (k : unit -> M unit),
             heap σ0 !! l = Some (u ++ [x]) ->
             ((_ ← pop l; mret tt) ≫= k) σ0
             = k tt (set_heap <[l := u]> σ0)).
  { intros σ0 u x k H.
    rewrite (bind_Return _ _ σ0 (set_heap <[l := u]> σ0) tt); [done|].
    rewrite (bind_Return _ _ _ _ _ (pop_eq _ _ _ _ H)). reflexivity. }
  rewrite (P σ (rest ++ [s5; s4; s3; s2]) s1)
    by (rewrite <- app_assoc; exact Hl).
  rewrite (P _ (rest ++ [s5; s4; s3]) s2)
    by (rewrite <- app_assoc; apply heap_set_heap_insert).
  rewrite (P _ (rest ++ [s5; s4]) s3)
    by (rewrite <- app_assoc; apply heap_set_heap_insert).
  rewrite (P _ (rest ++ [s5]) s4)
    by (rewrite <- app_assoc; apply heap_set_heap_insert).
  rewrite (P _ rest s5) by apply heap_set_heap_insert.
  rewrite !set_heap_insert_twice. reflexivity.
Qed.
End LastFive.

(** More than five signals: the last five feed a 4:2 compressor, most
    recent first, are popped, and the rest is reduced with the next
    sequence number; this step's outputs come first. *)
Lemma column_add_rec_more fuel self σ l column level no rest s5 s4 s3 s2 s1 :
  rest <> [] ->
  heap σ !! l = Some (rest ++ [s5; s4; s3; s2; s1]) ->
  let k := Compressor4to2.init s1 s2 s3 s4 s5 column level no in
  WallaceTree.column_add_rec (S fuel) self l column level no σ
  = (r ← WallaceTree.column_add_rec fuel self l column level (no + 1);
     mret ([Compressor4to2.cout_a k; Compressor4to2.cout_b k] ++ r.1,
           [Compressor4to2.sum k] ++ r.2))
      (set_heap <[l := rest]>
         (set_compressors (compressors σ ++ [Is4to2 k]) σ)).
Proof.
  intros Hne Hl k. cbn [WallaceTree.column_add_rec].
  rewrite (bind_Return _ _ _ _ _ (list_len_eq _ _ _ Hl)).
  assert (Hn : 5 < len (rest ++ [s5; s4; s3; s2; s1])).
  { rewrite len_app. destruct rest; [done|]. unfold len; simpl; lia. }
  destruct (Z.gtb_spec (len (rest ++ [s5; s4; s3; s2; s1])) 0); [|lia].
  cbn [negb].
  destruct (Z.eqb_spec (len (rest ++ [s5; s4; s3; s2; s1])) 1); [lia|].
  destruct (Z.eqb_spec (len (rest ++ [s5; s4; s3; s2; s1])) 2); [lia|].
  destruct (Z.eqb_spec (len (rest ++ [s5; s4; s3; s2; s1])) 3); [lia|].
  destruct (Z.eqb_spec (len (rest ++ [s5; s4; s3; s2; s1])) 4); [lia|].
  destruct (Z.eqb_spec (len (rest ++ [s5; s4; s3; s2; s1])) 5); [lia|].
  destruct (index_last_five rest s5 s4 s3 s2 s1) as (I1 & I2 & I3 & I4 & I5).
  rewrite (bind_Return _ _ _ _ _ (getitem_eq _ _ _ Hl _ _ I1)).
  rewrite (bind_Return _ _ _ _ _ (getitem_eq _ _ _ Hl _ _ I2)).
  rewrite (bind_Return _ _ _ _ _ (getitem_eq _ _ _ Hl _ _ I3)).
  rewrite (bind_Return _ _ _ _ _ (getitem_eq _ _ _ Hl _ _ I4)).
  rewrite (bind_Return _ _ _ _ _ (getitem_eq _ _ _ Hl _ _ I5)).
  rewrite (bind_Return _ _ _ _ _ (compressors_append_eq _ _)).
  rewrite (bind_Return _ _ _ _ _
             (pop_five rest s5 s4 s3 s2 s1 (set_compressors _ σ) l Hl)).
  reflexivity.
Qed.

(** A list of six or more signals ends in five signals after a
    non-empty rest. *)
Lemma split_last_five {A} (v : list A) :
  (5 < length v)%nat ->
  exists rest s5 s4 s3 s2 s1,
    rest <> [] /\ v = rest ++ [s5; s4; s3; s2; s1]
    /\ length v = (length rest + 5)%nat.
Proof.
  intros Hv.
  exists (take (length v - 5) v).
  destruct (drop (length v - 5) v) as [|s5 [|s4 [|s3 [|s2 [|s1 [|s0 t]]]]]] eqn:E;
    pose proof (f_equal length E) as EL; rewrite length_drop in EL;
    simpl in EL; try lia.
  exists s5, s4, s3, s2, s1. split; [|split].
  - intros T. apply (f_equal length) in T. rewrite length_take in T.
    simpl in T. lia.
  - rewrite <- E. symmetry. apply take_drop.
  - rewrite length_take. lia.
Qed.

(** [column_add] always returns or raises on an allocated list: it is
    never stuck, touches only that list object in the heap, and leaves
    it empty unless the list was empty already. *)
Lemma column_add_rec_total fuel : forall self σ l v column level no,
  heap σ !! l = Some v ->
  (length v < fuel)%nat ->
  exists σ' o,
    WallaceTree.column_add_rec fuel self l column level no σ = (σ', o)
    /\ o <> Stuck
    /\ heap σ' = match v with [] => heap σ | _ => <[l := []]> (heap σ) end
    /\ next_loc σ' = next_loc σ /\ stdout σ' = stdout σ.
Proof.
  induction fuel as [|fuel IH]; intros self σ l v column level no Hl Hf; [lia|].
  destruct v as [|a [|b [|c [|d [|e [|f t]]]]]].
  - rewrite (column_add_rec_0 _ _ _ _ _ _ _ Hl). eauto 10.
  - rewrite (column_add_rec_1 _ _ _ _ _ _ _ _ Hl). eauto 10.
  - rewrite (column_add_rec_2 _ _ _ _ _ _ _ _ _ Hl). eauto 10.
  - rewrite (column_add_rec_3 _ _ _ _ _ _ _ _ _ _ Hl). eauto 10.
  - rewrite (column_add_rec_4 _ _ _ _ _ _ _ _ _ _ _ Hl). eauto 10.
  - rewrite (column_add_rec_5 _ _ _ _ _ _ _ _ _ _ _ _ Hl). eauto 10.
  - destruct (split_last_five (a :: b :: c :: d :: e :: f :: t))
      as (rest & s5 & s4 & s3 & s2 & s1 & Hne & Ev & Hlen); [simpl; lia|].
    rewrite Ev in Hl.
    rewrite (column_add_rec_more _ _ _ _ _ _ _ _ _ _ _ _ _ Hne Hl).
    set (σ1 := set_heap <[l := rest]> _).
    destruct (IH self σ1 l rest column level (no + 1))
      as (σ' & o & E & Ho & Hh & Hn & Hs).
    { apply heap_set_heap_insert. }
    { lia. }
    rewrite run_bind, E.
    assert (Hh' : heap σ' = <[l := []]> (heap σ)).
    { rewrite Hh. destruct rest; [done|]. simpl. apply insert_insert_eq. }
    destruct o as [r|ex|]; [| |done]; eexists _, _;
      (split; [reflexivity|]); (split; [done|]); (split; [exact Hh'|done]).
Qed.

(** Which lists [column_add] can reduce: it raises [AssertionError] on
    the empty list and [IndexError] on a list of 5k + 1 signals, whose
    recursion ends in the one-signal branch; on every other list it
    returns one sum for each group of up to five signals. *)
Lemma column_add_rec_outcome fuel : forall self σ l v column level no,
  heap σ !! l = Some v ->
  (length v < fuel)%nat ->
  exists σ' o,
    WallaceTree.column_add_rec fuel self l column level no σ = (σ', o)
    /\ match o with
       | Raise AssertionError => v = []
       | Raise IndexError => (length v mod 5 = 1)%nat
       | Return (carries, sums) =>
           v <> [] /\ (length v mod 5 <> 1)%nat
           /\ length sums = ((length v + 4) / 5)%nat
       | _ => False
       end.
Proof.
  induction fuel as [|fuel IH]; intros self σ l v column level no Hl Hf; [lia|].
  destruct v as [|a [|b [|c [|d [|e [|f t]]]]]].
  - rewrite (column_add_rec_0 _ _ _ _ _ _ _ Hl). eexists _, _.
    split; [reflexivity|done].
  - rewrite (column_add_rec_1 _ _ _ _ _ _ _ _ Hl). eexists _, _.
    split; [reflexivity|done].
  - rewrite (column_add_rec_2 _ _ _ _ _ _ _ _ _ Hl). eexists _, _.
    split; [reflexivity|]. repeat split; done.
  - rewrite (column_add_rec_3 _ _ _ _ _ _ _ _ _ _ Hl). eexists _, _.
    split; [reflexivity|]. repeat split; done.
  - rewrite (column_add_rec_4 _ _ _ _ _ _ _ _ _ _ _ Hl). eexists _, _.
    split; [reflexivity|]. repeat split; done.
  - rewrite (column_add_rec_5 _ _ _ _ _ _ _ _ _ _ _ _ Hl). eexists _, _.
    split; [reflexivity|]. repeat split; done.
  - destruct (split_last_five (a :: b :: c :: d :: e :: f :: t))
      as (rest & s5 & s4 & s3 & s2 & s1 & Hne & Ev & Hlen); [simpl; lia|].
    rewrite Ev in Hl.
    rewrite (column_add_rec_more _ _ _ _ _ _ _ _ _ _ _ _ _ Hne Hl).
    set (σ1 := set_heap <[l := rest]> _).
    destruct (IH self σ1 l rest column level (no + 1))
      as (σ' & o & E & Ho); [apply heap_set_heap_insert|lia|].
    rewrite run_bind, E. rewrite Hlen.
    assert (Hmod : ((length rest + 5) mod 5 = length rest mod 5)%nat).
    { replace (length rest + 5)%nat with (length rest + 1 * 5)%nat by lia.
      apply Nat.Div0.mod_add. }
    assert (Hdiv : ((length rest + 5 + 4) / 5 = S ((length rest + 4) / 5))%nat).
    { replace (length rest + 5 + 4)%nat with (length rest + 4 + 1 * 5)%nat by lia.
      rewrite Nat.div_add by lia. lia. }
    destruct o as [[cs ss]|[| | |]|]; try done; eexists _, _;
      (split; [reflexivity|]).
    + destruct Ho as (_ & Hm & Hs). split; [done|]. rewrite Hmod, Hdiv.
      split; [done|]. simpl. rewrite Hs. reflexivity.
    + rewrite Hmod. exact Ho.
Qed.

Lemma column_add_unfold self σ l v column level no :
  heap σ !! l = Some v ->
  WallaceTree.column_add self l column level no σ
  = WallaceTree.column_add_rec (S (length v)) self l column level no σ.
Proof.
  intros Hl. unfold WallaceTree.column_add.
  rewrite (bind_Return _ _ _ _ _ (list_len_eq _ _ _ Hl)).
  unfold len. rewrite Nat2Z.id. reflexivity.
Qed.

(** [column_add] is total on allocated lists. *)
Lemma column_add_total self σ l v column level no :
  heap σ !! l = Some v ->
  exists σ' o,
    WallaceTree.column_add self l column level no σ = (σ', o)
    /\ o <> Stuck
    /\ heap σ' = match v with [] => heap σ | _ => <[l := []]> (heap σ) end
    /\ next_loc σ' = next_loc σ /\ stdout σ' = stdout σ.
Proof.
  intros Hl. rewrite (column_add_unfold _ _ _ _ _ _ _ Hl).
  apply (column_add_rec_total _ _ _ _ v); [exact Hl|lia].
Qed.

(** C2. The specification lets [column_add] on a list of exactly one
    signal return an empty carry list and that signal as the only sum.
    The code clears the list first and then reads [col_list[0]] from the
    emptied list: the call raises [IndexError], having created no
    compressor and having emptied the list. *)
Theorem column_add_single_raises self σ l s column level no :
  heap σ !! l = Some [s] ->
  WallaceTree.column_add self l column level no σ
  = (set_heap <[l := []]> σ, Raise IndexError).
Proof.
  intros Hl. rewrite (column_add_unfold _ _ _ _ _ _ _ Hl).
  exact (column_add_rec_1 _ _ _ _ _ _ _ s Hl).
Qed.

Lemma column_add_single_raises_witness :
  WallaceTree.column_add no_tree 0%nat 0 0 0 (one_list [pp 0 0])
  = (set_heap <[0%nat := []]> (one_list [pp 0 0]), Raise IndexError).
Proof. apply (column_add_single_raises no_tree (one_list [pp 0 0]) 0%nat (pp 0 0)). reflexivity. Defined.

(** C3. The specification lets [column_add] on six signals return two
    sums (the 4:2 sum and the passed-through signal) and two carries.
    The code builds the 4:2 compressor on the last five signals, most
    recent first, registers it and pops the five; the recursive call on
    the one remaining signal then raises [IndexError] as in C2, so no
    sum and no carry is returned and the first signal is lost with the
    emptied list. *)
Theorem column_add_six_raises self σ l s1 s2 s3 s4 s5 s6 column level no :
  heap σ !! l = Some [s1; s2; s3; s4; s5; s6] ->
  let k := Compressor4to2.init s6 s5 s4 s3 s2 column level no in
  WallaceTree.column_add self l column level no σ
  = (set_heap <[l := []]> (set_compressors (compressors σ ++ [Is4to2 k]) σ),
     Raise IndexError).
Proof.
  intros Hl k. rewrite (column_add_unfold _ _ _ _ _ _ _ Hl). cbn [length].
  rewrite (column_add_rec_more _ _ _ _ _ _ _ [s1] s2 s3 s4 s5 s6); [|done|exact Hl].
  rewrite run_bind.
  rewrite (column_add_rec_1 _ _ _ _ _ _ _ s1 (heap_set_heap_insert _ _ _)).
  rewrite set_heap_insert_twice. reflexivity.
Qed.

Lemma column_add_six_raises_witness :
  exists σ',
    WallaceTree.column_add no_tree 0%nat 3 0 0
      (one_list [pp 0 3; pp 1 3; pp 2 3; pp 3 3; pp 4 3; pp 5 3])
    = (σ', Raise IndexError)
    /\ heap σ' !! 0%nat = Some [] /\ length (compressors σ') = 1%nat.
Proof.
  eexists. split.
  - apply (column_add_six_raises no_tree
             (one_list [pp 0 3; pp 1 3; pp 2 3; pp 3 3; pp 4 3; pp 5 3])
             0%nat (pp 0 3) (pp 1 3) (pp 2 3) (pp 3 3) (pp 4 3) (pp 5 3)).
    reflexivity.
  - split; reflexivity.
Defined.

(** C6. The output latencies follow the fixed delay formulas, with
    Python's [max] and rounding [+]: for 2:1, sum = max(a,b) + 1.5 and
    carry = max(a,b) + 1.0; for 3:2, sum = max(a,b,c) + 3.0 and carry =
    max(a,b,c) + 2.0; for 4:2, sum = max(a,b,c,d,cin) + 4.5, carry_a =
    max(max(max(a,b,c),d) + 3.0, cin + 1.0) + 1.0 and carry_b =
    max(a,b,c) + 2.0.  In particular [column_add] on two signals of
    latency [L] each returns one carry of latency [L + 1.0] and one sum
    of latency [L + 1.5]; when [L] is [k / 2^g] and the sum has 53 bits
    or less, these additions are exact. *)
Theorem compressor_delay_formulas
    (a b c d cin : Signal.t) (column level no : Z)
    (self : WallaceTree.t) (σ : Store) (l : loc) (s1 s2 : Signal.t)
    (L : float) :
  heap σ !! l = Some [s1; s2] ->
  Signal.latency s1 = L ->
  Signal.latency s2 = L ->
  let la := Signal.latency a in
  let lb := Signal.latency b in
  let lc := Signal.latency c in
  let ld := Signal.latency d in
  let lcin := Signal.latency cin in
  let k2 := Compressor2to1.init a b column level no in
  let k3 := Compressor3to2.init a b c column level no in
  let k4 := Compressor4to2.init a b c d cin column level no in
  (Signal.latency (Compressor2to1.sum k2) = fadd (fmax la lb) 1.5
   /\ Signal.latency (Compressor2to1.cout k2) = fadd (fmax la lb) 1.0)
  /\ (Signal.latency (Compressor3to2.sum k3)
      = fadd (fmax (fmax la lb) lc) 3.0
      /\ Signal.latency (Compressor3to2.cout k3)
         = fadd (fmax (fmax la lb) lc) 2.0)
  /\ (Signal.latency (Compressor4to2.sum k4)
      = fadd (fmax (fmax (fmax (fmax la lb) lc) ld) lcin) 4.5
      /\ Signal.latency (Compressor4to2.cout_a k4)
         = fadd (fmax (fadd (fmax (fmax (fmax la lb) lc) ld) 3.0)
                      (fadd lcin 1.0)) 1.0
      /\ Signal.latency (Compressor4to2.cout_b k4)
         = fadd (fmax (fmax la lb) lc) 2.0)
  /\ (exists carry sum σ',
        WallaceTree.column_add self l column level no σ
        = (σ', Return ([carry], [sum]))
        /\ Signal.latency sum = fadd L 1.5
        /\ Signal.latency carry = fadd L 1.0)
  /\ (forall g k,
        1 <= g -> 0 <= k -> k + 3 * half_units g < 2 ^ prec ->
        L = dyadic g k ->
        fadd L 1.5 = dyadic g (k + 3 * half_units g)
        /\ fadd L 1.0 = dyadic g (k + 2 * half_units g)).
Proof.
  intros Hl H1 H2 la lb lc ld lcin k2 k3 k4.
  split; [exact (latency_2to1 a b column level no)|].
  split; [exact (latency_3to2 a b c column level no)|].
  split; [exact (latency_4to2 a b c d cin column level no)|].
  split.
  - rewrite (column_add_unfold _ _ _ _ _ _ _ Hl).
    rewrite (column_add_rec_2 _ _ _ _ _ _ _ _ _ Hl).
    eexists _, _, _. split; [reflexivity|].
    destruct (latency_2to1 s1 s2 column level no) as [Es Ec].
    cbv zeta in Es, Ec. rewrite Es, Ec, H1, H2.
    assert (Em : fmax L L = L) by (unfold fmax; destruct (flt L L); reflexivity).
    rewrite Em. split; reflexivity.
  - intros g k Hg Hk Hs ->.
    pose proof (half_units_pos g Hg) as Hu.
    pose proof (grid_bound g Hg ltac:(lia)) as Hg53.
    change 1.5%float with (dyadic 1 3). change 1.0%float with (dyadic 1 2).
    rewrite !fadd_literal by lia. split; reflexivity.
Qed.

Lemma compressor_delay_formulas_witness :
  exists carry sum σ',
    WallaceTree.column_add no_tree 0%nat 0 0 0 (one_list [pp 0 0; pp 1 0])
    = (σ', Return ([carry], [sum]))
    /\ Signal.latency sum = fadd 4.0 1.5
    /\ Signal.latency carry = fadd 4.0 1.0.
Proof.
  refine (proj1 (proj2 (proj2 (proj2
    (compressor_delay_formulas TIE_LOW TIE_LOW TIE_LOW TIE_LOW TIE_LOW
       0 0 0 no_tree (one_list [pp 0 0; pp 1 0]) 0%nat
       (pp 0 0) (pp 1 0) 4.0 _ _ _))))); reflexivity.
Defined.

(** ** Outputs against inputs *)

Lemma literal_1_0 : nonneg_float 1.0%float.
Proof. split; reflexivity. Qed.
Lemma literal_1_5 : nonneg_float 1.5%float.
Proof. split; reflexivity. Qed.
Lemma literal_2_0 : nonneg_float 2.0%float.
Proof. split; reflexivity. Qed.
Lemma literal_3_0 : nonneg_float 3.0%float.
Proof. split; reflexivity. Qed.
Lemma literal_4_5 : nonneg_float 4.5%float.
Proof. split; reflexivity. Qed.

(** [x + c] is not below any [y <= x], for non-negative floats. *)
Lemma fadd_not_below x c :
  nonneg_float x -> nonneg_float c ->
  nonneg_float (fadd x c)
  /\ forall y, nonneg_float y -> scaled y <= scaled x ->
       fle y (fadd x c) = true.
Proof.
  intros Hx Hc. destruct (fadd_nonneg x c Hx Hc) as [Hn Hle].
  split; [exact Hn|]. intros y Hy Hyx.
  rewrite fle_scaled by assumption. apply Z.leb_le. lia.
Qed.

Lemma later_by_one g x out kx ko :
  1 <= g -> half_units g < 2 ^ prec ->
  Signal.latency x = dyadic g kx -> Signal.latency out = dyadic g ko ->
  0 <= kx -> ko < 2 ^ prec -> kx + 2 * half_units g <= ko ->
  later_by g (2 * half_units g) x out
  /\ flt (Signal.latency x) (Signal.latency out) = true
  /\ fle (fadd (Signal.latency x) AND_DELAY) (Signal.latency out) = true.
Proof.
  intros Hg Hu Ex Eo Hkx Hko Hle.
  pose proof (half_units_pos g Hg). pose proof (grid_bound g Hg Hu).
  split; [by exists kx, ko|]. rewrite Ex, Eo. split.
  - rewrite flt_dyadic by lia. apply Z.ltb_lt. lia.
  - change AND_DELAY with (dyadic 1 2).
    rewrite fadd_literal, fle_dyadic by lia. apply Z.leb_le. lia.
Qed.

(** C4, as stated, fails in two ways.  The second carry of a 4:2
    compressor is computed from [a], [b], [c] alone: with [d] arriving
    at 10.0 and every other input at 0.0 it is 2.0, below the latest
    input.  And the additions round: with both inputs of a 2:1
    compressor at 2^53 the carry arrives at 2^53 as well, not later
    than its inputs, and with both at 0.2 it arrives less than 1.0
    after them. *)
Lemma outputs_not_later_by_one :
  let z := Signal.init "z" 0.0 None in
  let late := Signal.init "late" 10.0 None in
  let k4 := Compressor4to2.init z z z late z 0 0 0 in
  let big := Signal.init "big" (dyadic 0 (2 ^ 53)) None in
  let k2 := Compressor2to1.init big big 0 0 0 in
  let fifth := Signal.init "fifth" 0.2 None in
  let k2' := Compressor2to1.init fifth fifth 0 0 0 in
  (nonneg_float (Signal.latency z) /\ nonneg_float (Signal.latency late)
   /\ fle (Signal.latency late) (Signal.latency (Compressor4to2.cout_b k4))
      = false)
  /\ (nonneg_float (Signal.latency big)
      /\ Signal.latency (Compressor2to1.cout k2) = Signal.latency big
      /\ flt (Signal.latency big) (Signal.latency (Compressor2to1.cout k2))
         = false)
  /\ (nonneg_float (Signal.latency fifth)
      /\ scaled (Signal.latency (Compressor2to1.cout k2'))
         < scaled (Signal.latency fifth) + scaled 1.0).
Proof.
  cbv zeta. repeat split; vm_compute; reflexivity.
Qed.

(** C4, amended.  For input latencies that are non-negative binary64
    numbers no output of a 2:1 or 3:2 compressor, and neither the sum
    nor the first carry of a 4:2 compressor, is earlier than an input;
    the second carry of a 4:2 compressor is not earlier than [a], [b],
    [c], the inputs it is computed from.  When the input latencies are
    multiples of one 2^-g with room for 4.5 below 2^(53-g), so that
    every addition is exact, these outputs are later than these inputs
    by at least [AND_DELAY] = 1.0. *)
Theorem compressor_outputs_after_inputs
    (a b c d cin : Signal.t) (column level no : Z) :
  let k2 := Compressor2to1.init a b column level no in
  let k3 := Compressor3to2.init a b c column level no in
  let k4 := Compressor4to2.init a b c d cin column level no in
  let not_before (ins : list Signal.t) (out : Signal.t) :=
    Forall (fun x => fle (Signal.latency x) (Signal.latency out) = true)
      ins in
  let after g (ins : list Signal.t) (out : Signal.t) :=
    Forall (fun x =>
              later_by g (2 * half_units g) x out
              /\ flt (Signal.latency x) (Signal.latency out) = true
              /\ fle (fadd (Signal.latency x) AND_DELAY) (Signal.latency out)
                 = true)
      ins in
  (Forall (fun x => nonneg_float (Signal.latency x)) [a; b; c; d; cin] ->
   (not_before [a; b] (Compressor2to1.sum k2)
    /\ not_before [a; b] (Compressor2to1.cout k2))
   /\ (not_before [a; b; c] (Compressor3to2.sum k3)
       /\ not_before [a; b; c] (Compressor3to2.cout k3))
   /\ (not_before [a; b; c; d; cin] (Compressor4to2.sum k4)
       /\ not_before [a; b; c; d; cin] (Compressor4to2.cout_a k4)
       /\ not_before [a; b; c] (Compressor4to2.cout_b k4)))
  /\ (forall g ka kb kc kd kcin,
        1 <= g ->
        exact_input g ka a -> exact_input g kb b -> exact_input g kc c ->
        exact_input g kd d -> exact_input g kcin cin ->
        (after g [a; b] (Compressor2to1.sum k2)
         /\ after g [a; b] (Compressor2to1.cout k2))
        /\ (after g [a; b; c] (Compressor3to2.sum k3)
            /\ after g [a; b; c] (Compressor3to2.cout k3))
        /\ (after g [a; b; c; d; cin] (Compressor4to2.sum k4)
            /\ after g [a; b; c; d; cin] (Compressor4to2.cout_a k4)
            /\ after g [a; b; c] (Compressor4to2.cout_b k4))).
Proof.
  cbv zeta.
  destruct (latency_2to1 a b column level no) as [E1 E2].
  destruct (latency_3to2 a b c column level no) as [E3 E4].
  destruct (latency_4to2 a b c d cin column level no) as (E5 & E6 & E7).
  cbv zeta in *. split.
  - intros H.
    apply Forall_cons in H as [Na H]; apply Forall_cons in H as [Nb H];
      apply Forall_cons in H as [Nc H]; apply Forall_cons in H as [Nd H];
      apply Forall_cons in H as [Ni _].
    rewrite E1, E2, E3, E4, E5, E6, E7.
    destruct (fmax_nonneg _ _ Na Nb) as [N2 S2].
    destruct (fmax_nonneg _ _ N2 Nc) as [N3 S3].
    destruct (fmax_nonneg _ _ N3 Nd) as [N4 S4].
    destruct (fmax_nonneg _ _ N4 Ni) as [N5 S5].
    destruct (fadd_not_below _ _ N4 literal_3_0) as [Ny1 Hy1].
    destruct (fadd_nonneg _ _ N4 literal_3_0) as [_ Ly1].
    destruct (fadd_nonneg _ _ Ni literal_1_0) as [Ny2 Ly2].
    destruct (fmax_nonneg _ _ Ny1 Ny2) as [NY SY].
    repeat split; repeat (apply Forall_cons; split); try apply Forall_nil_2;
      first [ apply (fadd_not_below _ _ N2 literal_1_5)
            | apply (fadd_not_below _ _ N2 literal_1_0)
            | apply (fadd_not_below _ _ N3 literal_3_0)
            | apply (fadd_not_below _ _ N3 literal_2_0)
            | apply (fadd_not_below _ _ N5 literal_4_5)
            | apply (fadd_not_below _ _ NY literal_1_0) ];
      try assumption; lia.
  - intros g ka kb kc kd kcin Hg Ha Hb Hc Hd Hi.
    destruct (grid_2to1 a b column level no g ka kb Hg Ha Hb) as [G1 G2].
    destruct (grid_3to2 a b c column level no g ka kb kc Hg Ha Hb Hc)
      as [G3 G4].
    destruct (grid_4to2 a b c d cin column level no g ka kb kc kd kcin
                Hg Ha Hb Hc Hd Hi) as (G5 & G6 & G7).
    cbv zeta in *.
    destruct Ha as (A1 & A2 & Ea), Hb as (B1 & B2 & Eb), Hc as (C1 & C2 & Ec),
      Hd as (D1 & D2 & Ed), Hi as (I1 & I2 & Ei).
    pose proof (half_units_pos g Hg) as Hu.
    repeat split; repeat (apply Forall_cons; split); try apply Forall_nil_2;
      (eapply later_by_one; [exact Hg| |eassumption|eassumption|..]; lia).
Qed.

Lemma compressor_outputs_after_inputs_witness :
  let x := Signal.init "x" 4.0 None in
  let y := Signal.init "y" 5.5 None in
  let k2 := Compressor2to1.init x y 0 0 0 in
  fle (Signal.latency y) (Signal.latency (Compressor2to1.cout k2)) = true
  /\ later_by 1 2 y (Compressor2to1.cout k2).
Proof.
  cbv zeta.
  pose (x := Signal.init "x" 4.0 None). pose (y := Signal.init "y" 5.5 None).
  destruct (compressor_outputs_after_inputs x y x x x 0 0 0) as [A B].
  split.
  - assert (N : Forall (fun s => nonneg_float (Signal.latency s))
                  [x; y; x; x; x])
      by (repeat (apply List.Forall_cons; [split; reflexivity|]);
          apply List.Forall_nil).
    destruct (A N) as [[_ H] _].
    apply Forall_cons in H as [_ H]. apply Forall_cons in H as [H _]. exact H.
  - assert (Ex : exact_input 1 8 x) by (repeat split; try reflexivity; lia).
    assert (Ey : exact_input 1 11 y) by (repeat split; try reflexivity; lia).
    destruct (B 1 8 11 8 8 8 ltac:(lia) Ex Ey Ex Ex Ex) as [[_ H] _].
    apply Forall_cons in H as [_ H]. apply Forall_cons in H as [[H _] _].
    exact H.
Defined.

(** ** One level of [tree_reduce] *)

(** Reading the lengths changes nothing. *)
Lemma lens_loop σ : forall (columns : list loc) (acc : list Z),
  Forall (allocated σ) columns ->
  exists ns,
    for_acc columns acc (fun acc x => n ← list_len x; mret (acc ++ [n])) σ
    = (σ, Return (acc ++ ns))
    /\ Forall2 (fun l n => exists v, heap σ !! l = Some v /\ n = len v)
         columns ns.
Proof.
  induction columns as [|l columns IH]; intros acc Hall.
  - exists []. rewrite app_nil_r. split; [reflexivity|constructor].
  - apply Forall_cons in Hall as [[v Hv] Hall].
    destruct (IH (acc ++ [len v]) Hall) as (ns & E & F).
    exists (len v :: ns). split.
    + cbn [for_acc].
      rewrite (bind_Return _ _ σ σ (acc ++ [len v])).
      * rewrite E, <- app_assoc. reflexivity.
      * rewrite (bind_Return _ _ _ _ _ (list_len_eq _ _ _ Hv)). reflexivity.
    + constructor; eauto.
Qed.

Lemma fold_max_le (ns : list Z) : forall n b,
  fold_left Z.max ns n <= b <-> n <= b /\ Forall (fun k => k <= b) ns.
Proof.
  induction ns as [|k ns IH]; intros n b; simpl.
  - split; [intros; split; [done|constructor]|tauto].
  - rewrite IH, Forall_cons, Z.max_lub_iff. tauto.
Qed.

(** The loop over the columns is never stuck on allocated columns. *)
Lemma reduce_loop self level : forall (ics : list (Z * loc)) σ acc,
  Forall (fun ic => allocated σ ic.2) ics ->
  exists σ' o,
    for_acc ics acc (fun acc ic =>
      r ← WallaceTree.column_add self ic.2 ic.1 level 0;
      mret (acc.1 ++ [r.1], acc.2 ++ [r.2])) σ = (σ', o)
    /\ o <> Stuck.
Proof.
  induction ics as [|[i l] ics IH]; intros σ acc Hall.
  - eexists _, _. split; [reflexivity|done].
  - apply Forall_cons in Hall as [[v Hv] Hall]. simpl in Hv.
    destruct (column_add_total self σ l v i level 0 Hv)
      as (σ1 & o & E & Ho & Hh & _).
    cbn [for_acc]. rewrite run_bind, run_bind. simpl. rewrite E.
    destruct o as [r|e|]; [|eexists _, _; split; [reflexivity|done]|done].
    apply IH. eapply Forall_impl; [exact Hall|].
    intros [j l'] [w Hw]. simpl in *. unfold allocated. simpl. rewrite Hh.
    destruct v; [by eexists|].
    destruct (decide (l = l')) as [->|Hne].
    + rewrite lookup_insert_eq. by eexists.
    + rewrite lookup_insert_ne by done. by eexists.
Qed.

Lemma Forall_allocated_enumerate σ (columns : list loc) :
  Forall (allocated σ) columns ->
  Forall (fun ic : Z * loc => allocated σ ic.2) (enumerate columns).
Proof.
  intros H. unfold enumerate. apply Forall_forall. intros [i l] Hin.
  apply elem_of_zip_r in Hin. simpl.
  rewrite Forall_forall in H. by apply H.
Qed.

(** When no column holds more than two signals, [tree_reduce] prints
    the names of the remaining signals, column by column, and returns
    without touching the columns or the registry. *)
Lemma print_loop : forall (sigs : list Signal.t) σ,
  for_each sigs (fun sig => print (Signal.name sig)) σ
  = (set_stdout (stdout σ ++ map Signal.name sigs) σ, Return tt).
Proof.
  induction sigs as [|s sigs IH]; intros σ.
  - simpl. rewrite app_nil_r. destruct σ; reflexivity.
  - cbn [for_each]. rewrite run_bind. cbn [print]. rewrite IH.
    unfold set_stdout. simpl. rewrite <- app_assoc. reflexivity.
Qed.

Lemma print_columns_loop : forall (columns : list loc) vs σ,
  Forall2 (fun l v => heap σ !! l = Some v) columns vs ->
  for_each columns (fun col =>
    sigs ← load col;
    for_each sigs (fun sig => print (Signal.name sig))) σ
  = (set_stdout (stdout σ ++ map Signal.name (concat vs)) σ, Return tt).
Proof.
  intros columns vs σ F. revert σ F.
  induction vs as [|v vs IH] in columns |- *; intros σ F.
  - apply Forall2_nil_inv_r in F as ->. simpl. rewrite app_nil_r.
    destruct σ; reflexivity.
  - apply Forall2_cons_inv_r in F as (l & columns' & Hl & F & ->).
    cbn [for_each concat].
    rewrite (bind_Return _ _ σ (set_stdout (stdout σ ++ map Signal.name v) σ) tt).
    + rewrite (IH columns' (set_stdout (stdout σ ++ map Signal.name v) σ) F).
      unfold set_stdout. simpl.
      rewrite map_app, <- app_assoc. reflexivity.
    + rewrite (bind_Return _ _ _ _ _ (load_eq _ _ _ Hl)). apply print_loop.
Qed.

Lemma tree_reduce_reduced self (columns : list loc) vs level σ :
  columns <> [] ->
  Forall2 (fun l v => heap σ !! l = Some v /\ len v <= 2) columns vs ->
  WallaceTree.tree_reduce self columns level σ
  = (set_stdout (stdout σ ++ map Signal.name (concat vs)) σ, Return tt).
Proof.
  intros Hne F. unfold WallaceTree.tree_reduce.
  assert (Hall : Forall (allocated σ) columns).
  { apply Forall_forall. intros l Hin.
    apply list_elem_of_lookup in Hin as [i Hi].
    destruct (Forall2_lookup_l _ _ _ _ _ F Hi) as (v & _ & Hv & _).
    by exists v. }
  destruct (lens_loop σ columns [] Hall) as (ns & E & Fn).
  rewrite (bind_Return _ _ _ _ _ E). simpl.
  destruct ns as [|n ns].
  { apply Forall2_nil_inv_r in Fn. done. }
  assert (Hle : fold_left Z.max ns n <= 2).
  { apply fold_max_le. apply (proj1 (Forall_cons (fun k => k <= 2) n ns)).
    apply Forall_forall. intros k Hk. apply list_elem_of_lookup in Hk as [i Hi].
    destruct (Forall2_lookup_r _ _ _ _ _ Fn Hi) as (l & Hl & w & Hw & ->).
    destruct (Forall2_lookup_l _ _ _ _ _ F Hl) as (v & _ & Hv & Hlen).
    rewrite Hw in Hv. injection Hv as ->. exact Hlen. }
  destruct (Z.leb_spec (fold_left Z.max ns n) 2); [|lia].
  apply print_columns_loop. eapply Forall2_impl; [exact F|].
  intros l v [Hv _]. exact Hv.
Qed.

(** C1. The specification lets [tree_reduce] reduce level after level,
    move the carries of column [c] to column [c + 1], and stop when
    every column holds at most two signals or fail after [logic_depth]
    levels.  The code stops in the first level: as soon as one column
    holds more than two signals it passes every column to [column_add],
    drops the carries and sums it collected, and calls
    [self.tree_reduce()] without arguments, so the call raises (a
    [TypeError] when no [column_add] raised before).  It never returns
    normally and never starts a second level. *)
Theorem tree_reduce_raises self (columns : list loc) level σ :
  Forall (allocated σ) columns ->
  Exists (fun l => exists v, heap σ !! l = Some v /\ 2 < len v) columns ->
  exists σ' e,
    WallaceTree.tree_reduce self columns level σ = (σ', Raise e).
Proof.
  intros Hall Hbig. unfold WallaceTree.tree_reduce.
  destruct (lens_loop σ columns [] Hall) as (ns & E & F).
  rewrite (bind_Return _ _ _ _ _ E). simpl.
  destruct ns as [|n ns].
  { eexists _, _. reflexivity. }
  destruct (Z.leb_spec (fold_left Z.max ns n) 2) as [Hle|_].
  { exfalso. apply fold_max_le in Hle.
    assert (Hns : Forall (fun k => k <= 2) (n :: ns))
      by (apply Forall_cons; tauto).
    apply Exists_exists in Hbig as (l & Hin & v & Hv & Hlen).
    apply list_elem_of_lookup in Hin as [i Hi].
    destruct (Forall2_lookup_l _ _ _ _ _ F Hi) as (k & Hk & w & Hw & ->).
    rewrite Forall_forall in Hns.
    specialize (Hns (len w) (list_elem_of_lookup_2 _ _ _ Hk)).
    rewrite Hv in Hw. injection Hw as <-. lia. }
  destruct (reduce_loop self level (enumerate columns) σ ([], [])
              (Forall_allocated_enumerate _ _ Hall)) as (σ' & o & E' & Ho).
  rewrite run_bind, E'.
  destruct o as [r|e|]; [|eexists _, _; reflexivity|done].
  eexists _, _. reflexivity.
Qed.

(** ** The partial-product layout *)

Lemma elem_of_range lo hi x : x ∈ range lo hi <-> lo <= x < hi.
Proof.
  unfold range. rewrite list_elem_of_fmap. split.
  - intros (k & -> & Hk). apply elem_of_seq in Hk. lia.
  - intros H. exists (Z.to_nat (x - lo)). split; [lia|].
    apply elem_of_seq. lia.
Qed.

Lemma length_range lo hi : length (range lo hi) = Z.to_nat (hi - lo).
Proof. unfold range. rewrite length_map, length_seq. reflexivity. Qed.

Lemma range_lookup n (k : nat) :
  (k < Z.to_nat n)%nat -> range 0 n !! k = Some (Z.of_nat k).
Proof.
  intros Hk. unfold range. rewrite list_lookup_fmap, lookup_seq_lt by lia.
  reflexivity.
Qed.

Lemma range_snoc n : 0 <= n -> range 0 (n + 1) = range 0 n ++ [n].
Proof.
  intros Hn. unfold range.
  replace (Z.to_nat (n + 1 - 0)) with (Z.to_nat (n - 0) + 1)%nat by lia.
  rewrite seq_app, map_app. simpl. f_equal. f_equal. lia.
Qed.

Lemma index_map_range {A} (f : Z -> A) n i :
  0 <= i < n -> index (map f (range 0 n)) i = Some (f i).
Proof.
  intros Hi. unfold index. destruct (Z.ltb_spec i 0); [lia|].
  change (map f (range 0 n)) with (f <$> range 0 n).
  rewrite list_lookup_fmap, range_lookup by lia.
  simpl. f_equal. f_equal. lia.
Qed.

Section Layout.
Variable self : WallaceTree.t.


Lemma get_pp_width_in_range row σ :
  0 <= row < WallaceTree.pp_num self ->
  WallaceTree.get_pp_width self row σ = (σ, Return (pp_width self row)).
Proof.
  intros Hr. unfold WallaceTree.get_pp_width.
  destruct (Z.ltb_spec row 0); [lia|].
  destruct (Z.geb_spec row (WallaceTree.pp_num self)); [lia|].
  reflexivity.
Qed.

Lemma get_pp_width_out_of_range row σ :
  row < 0 \/ WallaceTree.pp_num self <= row ->
  WallaceTree.get_pp_width self row σ
  = (σ, Raise (ValueError ("Row number(" +:+ str row
                             +:+ ") out of range:["
                             +:+ str (WallaceTree.pp_num self - 1) +:+ ":0]."))).
Proof.
  intros Hr. unfold WallaceTree.get_pp_width.
  destruct (Z.ltb_spec row 0); [reflexivity|].
  destruct (Z.geb_spec row (WallaceTree.pp_num self)); [|lia].
  reflexivity.
Qed.

Lemma layout_row_loop row σ : forall (js : list Z) (acc : list Z),
  0 <= row < WallaceTree.pp_num self ->
  for_acc js acc (fun tmp_list j =>
    outside ←
      (if j <? start_pos row then mret true
       else w ← WallaceTree.get_pp_width self row;
            mret (j >=? start_pos row + w));
    if outside : bool then mret (tmp_list ++ [0])
    else mret (tmp_list ++ [1])) σ
  = (σ, Return (acc ++ map (layout_bit self row) js)).
Proof.
  intros js. induction js as [|j js IH]; intros acc Hr.
  - simpl. rewrite app_nil_r. reflexivity.
  - cbn [for_acc map].
    rewrite (bind_Return _ _ σ σ (acc ++ [layout_bit self row j])).
    + rewrite IH by done. rewrite <- app_assoc. reflexivity.
    + unfold layout_bit. destruct (j <? start_pos row); [reflexivity|].
      rewrite run_bind, run_bind, get_pp_width_in_range by done.
      simpl. destruct (j >=? start_pos row + pp_width self row); reflexivity.
Qed.

Lemma layout_loop σ : forall (rows : list Z) (acc : list (list Z)),
  Forall (fun row => 0 <= row < WallaceTree.pp_num self) rows ->
  for_acc rows acc (fun map_list i =>
    let start_pos := if i <=? 1 then 0 else i * 2 - 2 in
    tmp_list ←
      for_acc (range 0 (WallaceTree.result_width self + 2)) []
        (fun tmp_list j =>
           outside ←
             (if j <? start_pos then mret true
              else w ← WallaceTree.get_pp_width self i;
                   mret (j >=? start_pos + w));
           if outside : bool then mret (tmp_list ++ [0])
           else mret (tmp_list ++ [1]));
    mret (map_list ++ [tmp_list])) σ
  = (σ, Return (acc ++ map (layout_row self) rows)).
Proof.
  intros rows. induction rows as [|i rows IH]; intros acc Hall.
  - simpl. rewrite app_nil_r. reflexivity.
  - apply Forall_cons in Hall as [Hi Hall].
    cbn [for_acc map].
    rewrite (bind_Return _ _ σ σ (acc ++ [layout_row self i])).
    + rewrite IH by done. rewrite <- app_assoc. reflexivity.
    + cbv zeta. fold (start_pos i).
      rewrite (bind_Return _ _ _ _ _ (layout_row_loop i σ _ [] Hi)).
      reflexivity.
Qed.

Lemma get_wallace_map_eq σ :
  WallaceTree.get_wallace_map self σ = (σ, Return (layout self)).
Proof.
  unfold WallaceTree.get_wallace_map. cbv zeta.
  rewrite (layout_loop σ _ []); [reflexivity|].
  apply Forall_forall. intros row Hrow. apply elem_of_range in Hrow.
  lia.
Qed.
End Layout.

(** ** Column construction *)

Lemma item_eq {A} (l : list A) i x σ :
  index l i = Some x -> item l i σ = (σ, Return x).
Proof. intros E. unfold item. rewrite E. reflexivity. Qed.

Lemma item_IndexError {A} (l : list A) i σ :
  index l i = None -> item l i σ = (σ, Raise IndexError).
Proof. intros E. unfold item. rewrite E. reflexivity. Qed.

Lemma set_heap_insert_id σ l v :
  heap σ !! l = Some v -> set_heap <[l := v]> σ = σ.
Proof.
  intros H. destruct σ as [h n cs out]. unfold set_heap. simpl in *.
  rewrite insert_id by done. reflexivity.
Qed.

Section GenColumn.
Variable self : WallaceTree.t.
Variable column : Z.
Hypothesis Hmap : WallaceTree.tree_map self = layout self.
Hypothesis Hcol : 0 <= column < WallaceTree.result_width self + 2.

Lemma gen_column_loop l : forall (rows : list Z) σ v,
  Forall (fun i => 0 <= i < WallaceTree.pp_num self) rows ->
  heap σ !! l = Some v ->
  for_each rows (fun i =>
    row ← item (WallaceTree.tree_map self) i;
    bit ← item row column;
    if bit =? 1 then
      append l
        (Signal.init ("pp_ext[" +:+ str i +:+ "][" +:+ str column +:+ "]")
           BOOTH_DELAY None)
    else mret tt) σ
  = (set_heap
       <[l := v ++ map (fun i => pp i column)
                    (List.filter (fun i => layout_bit self i column =? 1)
                       rows)]> σ,
     Return tt).
Proof.
  induction rows as [|i rows IH]; intros σ v Hall Hl.
  - simpl. rewrite app_nil_r, set_heap_insert_id by done. reflexivity.
  - apply Forall_cons in Hall as [Hi Hall]. cbn [for_each List.filter].
    assert (Ebody :
      (row ← item (WallaceTree.tree_map self) i;
       bit ← item row column;
       if bit =? 1 then append l (pp i column) else mret tt) σ
      = (if layout_bit self i column =? 1
         then set_heap <[l := v ++ [pp i column]]> σ else σ, Return tt)).
    { rewrite (bind_Return _ _ σ σ (layout_row self i)).
      2:{ apply item_eq. rewrite Hmap. apply index_map_range, Hi. }
      rewrite (bind_Return _ _ σ σ (layout_bit self i column)).
      2:{ apply item_eq, index_map_range, Hcol. }
      destruct (layout_bit self i column =? 1); [|reflexivity].
      apply append_eq, Hl. }
    rewrite (bind_Return _ _ _ _ _ Ebody).
    destruct (layout_bit self i column =? 1).
    + rewrite (IH _ (v ++ [pp i column]) Hall (heap_set_heap_insert _ _ _)).
      rewrite set_heap_insert_twice. simpl. rewrite <- app_assoc.
      reflexivity.
    + apply IH; done.
Qed.

Lemma gen_column_eq σ :
  WallaceTree.gen_column self column σ
  = (set_next_loc (S (next_loc σ))
       (set_heap <[next_loc σ := column_signals self column]> σ),
     Return (next_loc σ)).
Proof.
  assert (Hrows : Forall (fun i => 0 <= i < WallaceTree.pp_num self)
                    (range 0 (WallaceTree.pp_num self))).
  { apply Forall_forall. intros i Hi. apply elem_of_range in Hi. lia. }
  unfold WallaceTree.gen_column.
  rewrite (bind_Return _ _ σ
             (set_next_loc (S (next_loc σ))
                (set_heap <[next_loc σ := []]> σ)) (next_loc σ) eq_refl).
  rewrite (bind_Return _ _ _ _ _
             (gen_column_loop (next_loc σ)
                (range 0 (WallaceTree.pp_num self)) _ []
                Hrows (lookup_insert_eq _ _ _))).
  unfold column_signals, set_heap, set_next_loc. simpl.
  rewrite insert_insert_eq. reflexivity.
Qed.
End GenColumn.

Lemma range_cons lo hi : lo < hi -> range lo hi = lo :: range (lo + 1) hi.
Proof.
  intros H. unfold range.
  replace (Z.to_nat (hi - lo)) with (S (Z.to_nat (hi - (lo + 1)))) by lia.
  cbn [seq map]. f_equal; [lia|].
  rewrite <- seq_shift, map_map. apply map_ext. intros k. lia.
Qed.

Lemma range_nil lo hi : hi <= lo -> range lo hi = [].
Proof.
  intros H. unfold range. replace (Z.to_nat (hi - lo)) with 0%nat by lia.
  reflexivity.
Qed.

(** The loop of [__init__] that builds the columns: column [lo + k]
    becomes the list object at the [k]-th fresh location. *)
Lemma columns_loop : forall (n : nat) lo self σ,
  WallaceTree.tree_map self = layout self ->
  0 <= lo -> lo + Z.of_nat n <= WallaceTree.result_width self + 2 ->
  exists σ',
    for_acc (range lo (lo + Z.of_nat n)) self (fun self i =>
      col ← WallaceTree.gen_column self i;
      mret (WallaceTree.set_columns (WallaceTree.columns self ++ [col]) self))
      σ
    = (σ', Return (WallaceTree.set_columns
                     (WallaceTree.columns self
                        ++ map (fun k => (next_loc σ + k)%nat) (seq 0 n))
                     self))
    /\ next_loc σ' = (next_loc σ + n)%nat
    /\ compressors σ' = compressors σ /\ stdout σ' = stdout σ
    /\ (forall k, (k < n)%nat ->
          heap σ' !! (next_loc σ + k)%nat
          = Some (column_signals self (lo + Z.of_nat k)))
    /\ (forall l, (l < next_loc σ)%nat -> heap σ' !! l = heap σ !! l).
Proof.
  induction n as [|n IH]; intros lo self σ Hmap Hlo Hhi.
  - exists σ. rewrite range_nil by lia. simpl. rewrite app_nil_r.
    destruct self. repeat split; try done; try lia.
  - rewrite range_cons by lia. cbn [for_acc].
    set (self1 := WallaceTree.set_columns
                    (WallaceTree.columns self ++ [next_loc σ]) self).
    set (σ1 := set_next_loc (S (next_loc σ))
                 (set_heap <[next_loc σ := column_signals self lo]> σ)).
    destruct (IH (lo + 1) self1 σ1) as (σ' & E & Hn & Hc & Hs & Hk & Hold);
      [exact Hmap|lia|unfold self1; simpl; lia|].
    exists σ'. split; [|repeat split].
    + rewrite (bind_Return _ _ σ σ1 self1).
      2:{ rewrite (bind_Return _ _ _ _ _ (gen_column_eq self lo Hmap ltac:(lia) σ)).
          reflexivity. }
      replace (lo + Z.of_nat (S n)) with (lo + 1 + Z.of_nat n) by lia.
      rewrite E. f_equal. f_equal. unfold self1, WallaceTree.set_columns.
      simpl. f_equal. rewrite <- app_assoc. f_equal. simpl. f_equal; [lia|].
      rewrite <- seq_shift, map_map. apply map_ext. intros k. lia.
    + rewrite Hn. simpl. lia.
    + rewrite Hc. reflexivity.
    + rewrite Hs. reflexivity.
    + intros [|k] Hlt.
      * rewrite Nat.add_0_r, Hold by (simpl; lia). simpl.
        rewrite lookup_insert_eq. do 2 f_equal. lia.
      * replace (next_loc σ + S k)%nat with (next_loc σ1 + k)%nat
          by (simpl; lia).
        rewrite Hk by lia. f_equal.
        replace (lo + 1 + Z.of_nat k) with (lo + Z.of_nat (S k)) by lia.
        reflexivity.
    + intros l Hl. rewrite Hold by (simpl; lia). simpl.
      apply lookup_insert_ne. lia.
Qed.

(** What [__init__] builds for a valid configuration. *)
Lemma init_valid width pp_name logic_depth σ :
  4 <= width -> 3 <= logic_depth ->
  exists t σ',
    WallaceTree.init width pp_name logic_depth σ = (σ', Return t)
    /\ WallaceTree.width t = width
    /\ WallaceTree.result_width t = 2 * width
    /\ WallaceTree.pp_num t = width / 2 + 1
    /\ WallaceTree.tree_map t = layout t
    /\ WallaceTree.columns t
       = map (fun k => (next_loc σ + k)%nat) (seq 0 (Z.to_nat (2 * width)))
    /\ (forall c, 0 <= c < 2 * width ->
          heap σ' !! (next_loc σ + Z.to_nat c)%nat
          = Some (column_signals t c))
    /\ compressors σ' = [] /\ stdout σ' = stdout σ.
Proof.
  intros Hw Hd. unfold WallaceTree.init.
  destruct (Z.ltb_spec width 4); [lia|].
  destruct (Z.ltb_spec logic_depth 3); [lia|].
  cbv zeta.
  set (self0 := {| WallaceTree.width := width;
                   WallaceTree.result_width := 2 * width;
                   WallaceTree.pp_num := width / 2 + 1;
                   WallaceTree.tree_map := []; WallaceTree.columns := [] |}).
  rewrite (bind_Return _ _ _ _ _ (get_wallace_map_eq self0 σ)).
  set (self1 := WallaceTree.set_tree_map (layout self0) self0).
  destruct (columns_loop (Z.to_nat (2 * width)) 0 self1 σ)
    as (σ' & E & Hn & Hc & Hs & Hk & Hold);
    [reflexivity|lia|simpl; lia|].
  replace (0 + Z.of_nat (Z.to_nat (2 * width))) with (2 * width) in E by lia.
  change (WallaceTree.result_width self1) with (2 * width).
  rewrite (bind_Return _ _ _ _ _ E).
  eexists _, _. split; [reflexivity|].
  repeat split; try reflexivity.
  - intros c Hcr. rewrite <- (Z2Nat.id c) at 2 by lia.
    simpl. rewrite Hk by lia. reflexivity.
  - simpl. exact Hs.
Qed.

(** ** Construction *)

Lemma init_invalid width pp_name logic_depth σ :
  width < 4 \/ logic_depth < 3 ->
  exists msg,
    WallaceTree.init width pp_name logic_depth σ
    = (σ, Raise (ValueError msg)).
Proof.
  intros H. unfold WallaceTree.init.
  destruct (Z.ltb_spec width 4); [eexists; reflexivity|].
  destruct (Z.ltb_spec logic_depth 3); [eexists; reflexivity|lia].
Qed.

Lemma init_inv width pp_name logic_depth σ σ' t :
  WallaceTree.init width pp_name logic_depth σ = (σ', Return t) ->
  4 <= width /\ 3 <= logic_depth
  /\ WallaceTree.width t = width
  /\ WallaceTree.result_width t = 2 * width
  /\ WallaceTree.pp_num t = width / 2 + 1
  /\ WallaceTree.tree_map t = layout t
  /\ WallaceTree.columns t
     = map (fun k => (next_loc σ + k)%nat) (seq 0 (Z.to_nat (2 * width)))
  /\ (forall c, 0 <= c < 2 * width ->
        heap σ' !! (next_loc σ + Z.to_nat c)%nat = Some (column_signals t c))
  /\ compressors σ' = [] /\ stdout σ' = stdout σ.
Proof.
  intros E.
  destruct (Z.lt_ge_cases width 4) as [Hw|Hw].
  { destruct (init_invalid width pp_name logic_depth σ (or_introl Hw)) as [m Em].
    congruence. }
  destruct (Z.lt_ge_cases logic_depth 3) as [Hd|Hd].
  { destruct (init_invalid width pp_name logic_depth σ (or_intror Hd)) as [m Em].
    congruence. }
  destruct (init_valid width pp_name logic_depth σ Hw Hd) as (t' & σ'' & E' & H).
  rewrite E in E'. injection E' as <- <-. tauto.
Qed.

(** C10. Construction raises a [ValueError] exactly when [width < 4] or
    [logic_depth < 3]; for [width >= 4] and [logic_depth >= 3] it
    succeeds with [result_width = 2 * width] and
    [pp_num = width / 2 + 1]. *)
Theorem init_fails_iff_invalid width pp_name logic_depth σ :
  ((exists σ' msg,
      WallaceTree.init width pp_name logic_depth σ
      = (σ', Raise (ValueError msg)))
   <-> width < 4 \/ logic_depth < 3)
  /\ (4 <= width /\ 3 <= logic_depth ->
      exists t σ',
        WallaceTree.init width pp_name logic_depth σ = (σ', Return t)
        /\ WallaceTree.result_width t = 2 * width
        /\ WallaceTree.pp_num t = width / 2 + 1).
Proof.
  split; [split|].
  - intros (σ' & msg & E).
    destruct (Z.lt_ge_cases width 4) as [Hw|Hw]; [tauto|].
    destruct (Z.lt_ge_cases logic_depth 3) as [Hd|Hd]; [tauto|].
    destruct (init_valid width pp_name logic_depth σ Hw Hd) as (t & σ'' & E' & _).
    congruence.
  - intros H. destruct (init_invalid width pp_name logic_depth σ H) as [msg E].
    eauto.
  - intros [Hw Hd].
    destruct (init_valid width pp_name logic_depth σ Hw Hd)
      as (t & σ' & E & _ & Hr & Hp & _).
    eauto.
Qed.

Lemma init_fails_iff_invalid_witness :
  (exists t σ',
     WallaceTree.init 8 "pp" 20 empty_store = (σ', Return t)
     /\ WallaceTree.result_width t = 2 * 8
     /\ WallaceTree.pp_num t = 8 / 2 + 1)
  /\ (exists σ' msg,
        WallaceTree.init 3 "pp" 20 empty_store = (σ', Raise (ValueError msg)))
  /\ (exists σ' msg,
        WallaceTree.init 8 "pp" 2 empty_store = (σ', Raise (ValueError msg))).
Proof.
  split; [|split].
  - apply (proj2 (init_fails_iff_invalid 8 "pp" 20 empty_store)). lia.
  - apply (proj2 (proj1 (init_fails_iff_invalid 3 "pp" 20 empty_store))). lia.
  - apply (proj2 (proj1 (init_fails_iff_invalid 8 "pp" 2 empty_store))). lia.
Defined.

(** C8. After a successful construction the compressor registry is
    empty, and [generate_tree] returns [None] leaving the tree and the
    whole store as they were. *)
Theorem generate_tree_changes_nothing width pp_name logic_depth σ σ' t :
  WallaceTree.init width pp_name logic_depth σ = (σ', Return t) ->
  compressors σ' = []
  /\ WallaceTree.generate_tree t σ' = (σ', Return tt).
Proof.
  intros E. apply init_inv in E. split; [tauto|reflexivity].
Qed.

Lemma generate_tree_changes_nothing_witness :
  exists σ' t,
    WallaceTree.init 4 "pp" 20 empty_store = (σ', Return t)
    /\ compressors σ' = []
    /\ WallaceTree.generate_tree t σ' = (σ', Return tt).
Proof.
  eexists _, _. split.
  - vm_compute. reflexivity.
  - apply (generate_tree_changes_nothing 4 "pp" 20 empty_store).
    vm_compute. reflexivity.
Defined.

(** ** Range checks of the accessors *)

Lemma index_map_seq {A} (f : nat -> A) (n : nat) (i : Z) :
  0 <= i < Z.of_nat n -> index (map f (seq 0 n)) i = Some (f (Z.to_nat i)).
Proof.
  intros Hi. unfold index. destruct (Z.ltb_spec i 0); [lia|].
  change (map f (seq 0 n)) with (f <$> seq 0 n).
  rewrite list_lookup_fmap, lookup_seq_lt by lia. reflexivity.
Qed.

Lemma index_map_seq_None {A} (f : nat -> A) (n : nat) (i : Z) :
  Z.of_nat n <= i -> index (map f (seq 0 n)) i = None.
Proof.
  intros Hi. unfold index. destruct (Z.ltb_spec i 0); [lia|].
  apply lookup_ge_None. rewrite length_map, length_seq. lia.
Qed.

(** C9. On a constructed tree [get_pp_width] raises the [ValueError]
    that reports the row exactly when the row lies outside
    [0, pp_num), and [get_column_num] succeeds on every column of
    [0, result_width) and raises the [ValueError] that reports the
    column for a negative column and for a column above
    [result_width].  The specification asks for that range error on
    every column outside [0, result_width); at
    [column = result_width] the guard [column > self.result_width] of
    the code does not fire, and the call fails in
    [self.columns[column]] with [IndexError]. *)
Theorem range_checks width pp_name logic_depth σ σ' t :
  WallaceTree.init width pp_name logic_depth σ = (σ', Return t) ->
  (forall row,
     (row < 0 \/ WallaceTree.pp_num t <= row ->
      WallaceTree.get_pp_width t row σ'
      = (σ', Raise (ValueError ("Row number(" +:+ str row
                                  +:+ ") out of range:["
                                  +:+ str (WallaceTree.pp_num t - 1)
                                  +:+ ":0]."))))
     /\ (0 <= row < WallaceTree.pp_num t ->
         exists n, WallaceTree.get_pp_width t row σ' = (σ', Return n)))
  /\ (forall column,
        (column < 0 \/ WallaceTree.result_width t < column ->
         WallaceTree.get_column_num t column σ'
         = (σ', Raise (ValueError ("Column number(" +:+ str column
                                     +:+ ") out of " +:+ "range:["
                                     +:+ str (WallaceTree.result_width t - 1)
                                     +:+ ":0]."))))
        /\ (0 <= column < WallaceTree.result_width t ->
            exists n, WallaceTree.get_column_num t column σ' = (σ', Return n)))
  /\ WallaceTree.get_column_num t (WallaceTree.result_width t) σ'
     = (σ', Raise IndexError).
Proof.
  intros E.
  destruct (init_inv _ _ _ _ _ _ E)
    as (Hw & Hd & Ew & Er & Ep & Em & Ec & Hh & _).
  split; [|split].
  - intros row. split; intros Hr.
    + apply get_pp_width_out_of_range, Hr.
    + eexists. apply get_pp_width_in_range, Hr.
  - intros column. unfold WallaceTree.get_column_num. split; intros Hc.
    + destruct (Z.ltb_spec column 0); [reflexivity|].
      destruct (Z.gtb_spec column (WallaceTree.result_width t)); [|lia].
      reflexivity.
    + destruct (Z.ltb_spec column 0); [lia|].
      destruct (Z.gtb_spec column (WallaceTree.result_width t)); [lia|].
      cbn [orb]. eexists.
      rewrite (bind_Return _ _ σ' σ' (next_loc σ + Z.to_nat column)%nat).
      * apply list_len_eq, Hh. lia.
      * apply item_eq. rewrite Ec. apply index_map_seq. lia.
  - unfold WallaceTree.get_column_num.
    destruct (Z.ltb_spec (WallaceTree.result_width t) 0); [lia|].
    rewrite Z.gtb_ltb, Z.ltb_irrefl. cbn [orb].
    rewrite (bind_Raise _ _ σ' σ' IndexError); [reflexivity|].
    apply item_IndexError. rewrite Ec. apply index_map_seq_None. lia.
Qed.

Lemma range_checks_witness :
  exists σ' t,
    WallaceTree.init 4 "pp" 20 empty_store = (σ', Return t)
    /\ WallaceTree.get_column_num t 8 σ' = (σ', Raise IndexError)
    /\ WallaceTree.get_column_num t 9 σ'
       = (σ', Raise (ValueError "Column number(9) out of range:[7:0]."))
    /\ WallaceTree.get_column_num t 7 σ' = (σ', Return 3).
Proof.
  eexists _, _. split.
  - vm_compute. reflexivity.
  - split; [|split; vm_compute; reflexivity].
    refine (proj2 (proj2 (range_checks 4 "pp" 20 empty_store _ _ _))).
    vm_compute. reflexivity.
Defined.

(** ** Shape of the layout *)

Lemma len_map {A B} (f : A -> B) (l : list A) : len (map f l) = len l.
Proof. unfold len. rewrite length_map. reflexivity. Qed.

Lemma len_range n : 0 <= n -> len (range 0 n) = n.
Proof. intros H. unfold len. rewrite length_range. lia. Qed.

Lemma layout_bit_spec self row col :
  (layout_bit self row col = 0 \/ layout_bit self row col = 1)
  /\ (layout_bit self row col = 1
      <-> start_pos row <= col < start_pos row + pp_width self row).
Proof.
  unfold layout_bit.
  destruct (Z.ltb_spec col (start_pos row));
    destruct (Z.geb_spec col (start_pos row + pp_width self row));
    cbn [orb]; split; try tauto; split; intros; (lia || discriminate || done).
Qed.

(** C5. For every width of at least 4 the layout has
    [pp_num = width / 2 + 1] rows of [result_width + 2] entries; the
    populated width is [width + 4] for row 0, [width + 3] for the last
    row and [width + 5] for the rows between; a row starts at column 0
    for rows 0 and 1 and at [2 * row - 2] otherwise; and an entry is 1
    exactly when its column lies in [start, start + pp_width).  For
    width 8 this gives 5 rows, [result_width = 16] and the row widths
    12, 13, 13, 13, 11. *)
Theorem layout_matrix width pp_name logic_depth σ :
  4 <= width -> 3 <= logic_depth ->
  exists t σ',
    WallaceTree.init width pp_name logic_depth σ = (σ', Return t)
    /\ let n := WallaceTree.pp_num t in
       let rw := WallaceTree.result_width t in
       let populated row :=
         if row =? 0 then width + 4
         else if row =? n - 1 then width + 3
         else width + 5 in
       let start row := if row <=? 1 then 0 else 2 * row - 2 in
       n = width / 2 + 1 /\ rw = 2 * width
       /\ len (WallaceTree.tree_map t) = n
       /\ Forall (fun r => len r = rw + 2) (WallaceTree.tree_map t)
       /\ (forall row, 0 <= row < n ->
             WallaceTree.get_pp_width t row σ' = (σ', Return (populated row)))
       /\ (forall row col, 0 <= row < n -> 0 <= col < rw + 2 ->
             exists r b,
               index (WallaceTree.tree_map t) row = Some r
               /\ index r col = Some b
               /\ (b = 0 \/ b = 1)
               /\ (b = 1 <-> start row <= col < start row + populated row))
       /\ (width = 8 ->
           n = 5 /\ rw = 16
           /\ map populated (range 0 n) = [12; 13; 13; 13; 11]).
Proof.
  intros Hw Hd.
  destruct (init_valid width pp_name logic_depth σ Hw Hd)
    as (t & σ' & E & Ew & Er & Ep & Em & _).
  exists t, σ'. split; [exact E|]. cbv zeta.
  assert (Hn : 3 <= WallaceTree.pp_num t).
  { rewrite Ep. pose proof (Z.div_le_lower_bound width 2 2). lia. }
  split; [exact Ep|]. split; [exact Er|]. split; [|split; [|split; [|split]]].
  - rewrite Em. unfold layout. rewrite len_map, len_range by lia. reflexivity.
  - rewrite Em. unfold layout. apply Forall_forall. intros r Hr.
    apply list_elem_of_fmap in Hr as (row & -> & _).
    unfold layout_row. rewrite len_map, len_range by lia. reflexivity.
  - intros row Hrow. rewrite (get_pp_width_in_range t row σ' Hrow).
    unfold pp_width. rewrite Ew. reflexivity.
  - intros row col Hrow Hcol.
    exists (layout_row t row), (layout_bit t row col).
    split; [rewrite Em; apply index_map_range, Hrow|].
    split; [apply index_map_range, Hcol|].
    destruct (layout_bit_spec t row col) as [H01 H1].
    split; [exact H01|]. rewrite H1. unfold start_pos, pp_width.
    rewrite Ew. replace (row * 2 - 2) with (2 * row - 2) by lia. reflexivity.
  - intros ->. rewrite Ep, Er. repeat split.
Qed.

Lemma layout_matrix_witness :
  exists t σ',
    WallaceTree.init 8 "pp" 20 empty_store = (σ', Return t)
    /\ WallaceTree.pp_num t = 5 /\ WallaceTree.result_width t = 16
    /\ len (WallaceTree.tree_map t) = 5.
Proof.
  destruct (layout_matrix 8 "pp" 20 empty_store ltac:(lia) ltac:(lia))
    as (t & σ' & E & Hn & Hrw & Hlen & _).
  exists t, σ'. cbv zeta in *. rewrite Hlen, Hn, Hrw. repeat split. exact E.
Defined.

(** ** Counting set bits and primary signals *)

Lemma length_filter_map {A B} (p : B -> bool) (f : A -> B) (l : list A) :
  length (List.filter p (map f l))
  = length (List.filter (fun x => p (f x)) l).
Proof.
  induction l as [|x l IH]; [reflexivity|]. simpl.
  destruct (p (f x)); simpl; rewrite IH; reflexivity.
Qed.

Lemma count_interval a b : forall n : nat,
  length (List.filter (fun j => (a <=? j) && (j <? b))
            (range 0 (Z.of_nat n)))
  = Z.to_nat (Z.min b (Z.of_nat n) - Z.max a 0).
Proof.
  induction n as [|n IH].
  - rewrite range_nil by lia. simpl. lia.
  - replace (Z.of_nat (S n)) with (Z.of_nat n + 1) by lia.
    rewrite range_snoc, List.filter_app, length_app, IH by lia. simpl.
    destruct (Z.leb_spec a (Z.of_nat n)); destruct (Z.ltb_spec (Z.of_nat n) b);
      simpl; lia.
Qed.

Lemma layout_bit_interval self row col :
  (layout_bit self row col =? 1)
  = (start_pos row <=? col) && (col <? start_pos row + pp_width self row).
Proof.
  unfold layout_bit.
  destruct (Z.ltb_spec col (start_pos row));
    destruct (Z.geb_spec col (start_pos row + pp_width self row));
    destruct (Z.leb_spec (start_pos row) col);
    destruct (Z.ltb_spec col (start_pos row + pp_width self row));
    simpl; lia || reflexivity.
Qed.

(** Set bits of row [row] among the first [m] columns. *)
Lemma count_row_bits self row m :
  0 <= m ->
  length (List.filter (fun col => layout_bit self row col =? 1) (range 0 m))
  = Z.to_nat (Z.min (start_pos row + pp_width self row) m
              - Z.max (start_pos row) 0).
Proof.
  intros Hm.
  rewrite (List.filter_ext _ _ (layout_bit_interval self row)).
  replace m with (Z.of_nat (Z.to_nat m)) at 1 by lia.
  rewrite count_interval, Z2Nat.id by lia. reflexivity.
Qed.

(** Counting the pairs that satisfy [p] by rows or by columns. *)
Lemma count_exchange {A B} (p : A -> B -> bool) (xs : list A) (ys : list B) :
  sum_list_with (fun y => length (List.filter (fun x => p x y) xs)) ys
  = sum_list_with (fun x => length (List.filter (p x) ys)) xs.
Proof.
  induction xs as [|x xs IH]; simpl.
  - induction ys; simpl; congruence.
  - rewrite <- IH. clear IH.
    induction ys as [|y ys IHy]; simpl; [reflexivity|].
    destruct (p x y); simpl; rewrite IHy; lia.
Qed.

Lemma sum_list_with_ext_in {A} (f g : A -> nat) (l : list A) :
  (forall x, x ∈ l -> f x = g x) ->
  sum_list_with f l = sum_list_with g l.
Proof.
  induction l as [|x l IH]; intros H; simpl; [reflexivity|].
  rewrite H, IH; [reflexivity| |left].
  intros y Hy. apply H. by right.
Qed.

Lemma sum_list_with_plus {A} (f g : A -> nat) (l : list A) :
  sum_list_with (fun x => (f x + g x)%nat) l
  = (sum_list_with f l + sum_list_with g l)%nat.
Proof. induction l as [|x l IH]; simpl; lia. Qed.

Lemma sum_list_with_zero {A} (f : A -> nat) (l : list A) :
  (forall x, x ∈ l -> f x = 0%nat) -> sum_list_with f l = 0%nat.
Proof.
  induction l as [|x l IH]; intros H; simpl; [reflexivity|].
  rewrite H, IH; [reflexivity| |left].
  intros y Hy. apply H. by right.
Qed.

Lemma sum_list_with_map {A B} (f : B -> nat) (g : A -> B) (l : list A) :
  sum_list_with f (map g l) = sum_list_with (fun x => f (g x)) l.
Proof. induction l as [|x l IH]; simpl; congruence. Qed.

Lemma take_range a b :
  0 <= a <= b -> take (Z.to_nat a) (range 0 b) = range 0 a.
Proof.
  intros H. unfold range.
  change (map ?f ?l) with (f <$> l). rewrite <- fmap_take, take_seq.
  do 2 f_equal. lia.
Qed.

Lemma even_cases w :
  (Z.even w = true /\ w = 2 * (w / 2))
  \/ (Z.even w = false /\ w = 2 * (w / 2) + 1).
Proof.
  rewrite Zeven_mod. pose proof (Z.div_mod w 2 ltac:(lia)).
  pose proof (Z.mod_pos_bound w 2 ltac:(lia)).
  destruct (Z.eqb_spec (w mod 2) 0); [left|right]; split; (done || lia).
Qed.

Section BitsOfATree.
Variable t : WallaceTree.t.
Variable width : Z.
Hypothesis Hw : 4 <= width.
Hypothesis Ew : WallaceTree.width t = width.
Hypothesis Er : WallaceTree.result_width t = 2 * width.
Hypothesis Ep : WallaceTree.pp_num t = width / 2 + 1.

Lemma row_fits row :
  0 <= row < WallaceTree.pp_num t ->
  0 <= start_pos row /\ 0 < pp_width t row
  /\ start_pos row + pp_width t row
     = Z.min (start_pos row + pp_width t row) (2 * width)
       + Z.of_nat (overflow t row)
  /\ start_pos row + pp_width t row <= 2 * width + 1
  /\ start_pos row <= 2 * width.
Proof.
  intros Hrow. unfold start_pos, pp_width, overflow. rewrite Ew, Ep in *.
  destruct (even_cases width) as [[-> Hq]|[-> Hq]]; cbn [andb];
    destruct (Z.leb_spec row 1); destruct (Z.eqb_spec row 0);
    destruct (Z.eqb_spec row (width / 2 + 1 - 1));
    destruct (Z.leb_spec (width / 2 + 1 - 2) row); simpl Z.of_nat; lia.
Qed.

Lemma ones_layout_row row :
  0 <= row < WallaceTree.pp_num t ->
  Z.of_nat (ones (layout_row t row)) = pp_width t row.
Proof.
  intros Hrow. destruct (row_fits row Hrow) as (H0 & Hp & _ & Hle & _).
  unfold ones, layout_row. rewrite length_filter_map.
  rewrite count_row_bits by lia. rewrite Er. lia.
Qed.

Lemma ones_layout_row_split row :
  0 <= row < WallaceTree.pp_num t ->
  ones (layout_row t row)
  = (ones (take (Z.to_nat (WallaceTree.result_width t)) (layout_row t row))
     + overflow t row)%nat.
Proof.
  intros Hrow. destruct (row_fits row Hrow) as (H0 & Hp & Hsplit & Hle & Hs).
  pose proof (ones_layout_row row Hrow) as Hfull.
  unfold ones in *. unfold layout_row in *.
  change (map ?f ?l) with (f <$> l) at 1. rewrite <- fmap_take.
  change (?f <$> ?l) with (map f l). rewrite take_range by lia.
  rewrite !length_filter_map.
  rewrite length_filter_map in Hfull.
  rewrite (count_row_bits t row (WallaceTree.result_width t)) by lia.
  rewrite Er in Hfull |- *. lia.
Qed.

Lemma overflow_total :
  sum_list_with (overflow t) (range 0 (WallaceTree.pp_num t))
  = if Z.even width then 2%nat else 0%nat.
Proof.
  assert (Hn : 3 <= WallaceTree.pp_num t).
  { rewrite Ep. pose proof (Z.div_le_lower_bound width 2 2). lia. }
  replace (WallaceTree.pp_num t)
    with (WallaceTree.pp_num t - 2 + 1 + 1) at 1 by lia.
  rewrite !range_snoc by lia.
  rewrite !sum_list_with_app.
  rewrite sum_list_with_zero.
  - unfold overflow. rewrite Ew. simpl.
    destruct (Z.leb_spec (WallaceTree.pp_num t - 2) (WallaceTree.pp_num t - 2));
      [|lia].
    destruct (Z.leb_spec (WallaceTree.pp_num t - 2)
                (WallaceTree.pp_num t - 2 + 1)); [|lia].
    destruct (Z.even width); reflexivity.
  - intros row Hrow. apply elem_of_range in Hrow. unfold overflow.
    destruct (Z.leb_spec (WallaceTree.pp_num t - 2) row); [lia|].
    rewrite andb_false_r. reflexivity.
Qed.
End BitsOfATree.

Lemma sum_list_with_range (f : Z -> nat) n :
  sum_list_with f (range 0 n)
  = sum_list_with (fun k => f (Z.of_nat k)) (seq 0 (Z.to_nat n)).
Proof.
  unfold range. rewrite sum_list_with_map, Z.sub_0_r. reflexivity.
Qed.

Lemma primary_signal_attributes self column s :
  s ∈ column_signals self column ->
  Signal.latency s = BOOTH_DELAY /\ Signal.host s = None.
Proof.
  unfold column_signals. intros Hs.
  apply list_elem_of_fmap in Hs as (i & -> & _). split; reflexivity.
Qed.

(** C7, as stated, fails for width 4: the layout has 24 set bits, the
    columns of the tree hold 22 primary signals. *)
Lemma set_bits_exceed_signals_width_4 :
  exists t σ',
    WallaceTree.init 4 "pp" 20 empty_store = (σ', Return t)
    /\ total_set_bits (WallaceTree.tree_map t) = 24%nat
    /\ total_signals σ' t = 22%nat
    /\ total_set_bits (WallaceTree.tree_map t) <> total_signals σ' t.
Proof.
  eexists _, _. split; [vm_compute; reflexivity|].
  split; [vm_compute; reflexivity|]. split; [vm_compute; reflexivity|].
  vm_compute. discriminate.
Qed.

(** C7, amended.  For every width of at least 4 the number of 1-entries
    of every layout row equals the width formula of that row, and every
    primary signal has latency [BOOTH_DELAY] = 4.0 and no producer.  The
    columns of the tree hold as many primary signals as the layout has
    set bits in its columns [0, result_width); the whole layout, which
    is [result_width + 2] columns wide, has as many set bits for an odd
    width and two more for an even width. *)
Theorem set_bits_and_primary_signals width pp_name logic_depth σ :
  4 <= width -> 3 <= logic_depth ->
  exists t σ',
    WallaceTree.init width pp_name logic_depth σ = (σ', Return t)
    /\ (forall row r,
          0 <= row < WallaceTree.pp_num t ->
          index (WallaceTree.tree_map t) row = Some r ->
          WallaceTree.get_pp_width t row σ'
          = (σ', Return (Z.of_nat (ones r))))
    /\ total_signals σ' t
       = set_bits_within (WallaceTree.tree_map t) (WallaceTree.result_width t)
    /\ total_set_bits (WallaceTree.tree_map t)
       = (total_signals σ' t + if Z.even width then 2 else 0)%nat
    /\ (forall l v s,
          l ∈ WallaceTree.columns t -> heap σ' !! l = Some v -> s ∈ v ->
          Signal.latency s = BOOTH_DELAY /\ Signal.host s = None).
Proof.
  intros Hw Hd.
  destruct (init_valid width pp_name logic_depth σ Hw Hd)
    as (t & σ' & E & Ew & Er & Ep & Em & Ec & Hh & _).
  exists t, σ'. split; [exact E|].
  assert (Hn : 3 <= WallaceTree.pp_num t).
  { rewrite Ep. pose proof (Z.div_le_lower_bound width 2 2). lia. }
  assert (Hsig : total_signals σ' t
                 = set_bits_within (WallaceTree.tree_map t)
                     (WallaceTree.result_width t)).
  { unfold total_signals, set_bits_within.
    rewrite Ec, Em. unfold layout. rewrite !sum_list_with_map.
    transitivity
      (sum_list_with
         (fun c => length (List.filter (fun i => layout_bit t i c =? 1)
                             (range 0 (WallaceTree.pp_num t))))
         (range 0 (WallaceTree.result_width t))).
    - rewrite sum_list_with_range, Er.
      apply sum_list_with_ext_in. intros k Hk. apply elem_of_seq in Hk.
      unfold column_size.
      replace k with (Z.to_nat (Z.of_nat k)) at 1 by lia.
      rewrite Hh by lia. unfold column_signals. apply length_map.
    - rewrite (count_exchange (fun i c => layout_bit t i c =? 1)).
      apply sum_list_with_ext_in. intros row Hrow. unfold ones, layout_row.
      change (map ?f ?l) with (f <$> l) at 1. rewrite <- fmap_take.
      change (?f <$> ?l) with (map f l). rewrite take_range by lia.
      rewrite length_filter_map. reflexivity. }
  split; [|split; [exact Hsig|split]].
  - intros row r Hrow Hr. rewrite Em in Hr. unfold layout in Hr.
    rewrite index_map_range in Hr by done. injection Hr as <-.
    rewrite (ones_layout_row t width Hw Ew Er Ep row Hrow).
    apply get_pp_width_in_range, Hrow.
  - rewrite Hsig. unfold total_set_bits, set_bits_within.
    rewrite Em. unfold layout. rewrite !sum_list_with_map.
    rewrite <- (overflow_total t width Hw Ew Ep), <- sum_list_with_plus.
    apply sum_list_with_ext_in. intros row Hrow. apply elem_of_range in Hrow.
    apply (ones_layout_row_split t width Hw Ew Er Ep row Hrow).
  - intros l v s Hl Hv Hs. rewrite Ec in Hl.
    apply list_elem_of_fmap in Hl as (k & -> & Hk). apply elem_of_seq in Hk.
    replace k with (Z.to_nat (Z.of_nat k)) in Hv by lia.
    rewrite Hh in Hv by lia. injection Hv as <-.
    exact (primary_signal_attributes _ _ _ Hs).
Qed.

Lemma set_bits_and_primary_signals_witness :
  exists t σ',
    WallaceTree.init 5 "pp" 20 empty_store = (σ', Return t)
    /\ total_set_bits (WallaceTree.tree_map t) = total_signals σ' t.
Proof.
  destruct (set_bits_and_primary_signals 5 "pp" 20 empty_store
              ltac:(lia) ltac:(lia)) as (t & σ' & E & _ & _ & Hb & _).
  exists t, σ'. split; [exact E|]. rewrite Hb. simpl. lia.
Defined.

(** ** The first level on a tree of width 4 *)

(** Columns 0 and 1 hold two signals and columns 2 to 7 three, so no
    [column_add] raises: eight compressors are registered, every
    column is left empty, no carry reaches a neighbouring column, and
    the recursive call raises [TypeError]. *)
Lemma tree_reduce_raises_witness :
  exists t σ1 σ2,
    WallaceTree.init 4 "pp" 20 empty_store = (σ1, Return t)
    /\ (exists σ' e,
          WallaceTree.tree_reduce t (WallaceTree.columns t) 0 σ1
          = (σ', Raise e))
    /\ WallaceTree.tree_reduce t (WallaceTree.columns t) 0 σ1
       = (σ2, Raise TypeError)
    /\ Forall (fun l => heap σ2 !! l = Some []) (WallaceTree.columns t)
    /\ length (compressors σ2) = 8%nat.
Proof.
  eexists _, _, _. split; [vm_compute; reflexivity|]. split; [|split].
  - apply tree_reduce_raises.
    + repeat (apply List.Forall_cons; [eexists; vm_compute; reflexivity|]).
      apply List.Forall_nil.
    + apply Exists_exists. exists 2%nat. split.
      * apply list_elem_of_In. vm_compute. tauto.
      * eexists. split; vm_compute; reflexivity.
  - vm_compute. reflexivity.
  - split; [|vm_compute; reflexivity].
    repeat (apply List.Forall_cons; [vm_compute; reflexivity|]).
    apply List.Forall_nil.
Defined.

(** * Further properties

    Properties read off the code: how compressors and signals are
    named, what [column_add] returns and when, the timing of the
    outputs, the columns of a constructed tree, and how [tree_reduce]
    ends. *)

(** ** Naming *)

Lemma list_ascii_of_string_app s1 s2 :
  list_ascii_of_string (s1 +:+ s2)
  = list_ascii_of_string s1 ++ list_ascii_of_string s2.
Proof. induction s1 as [|c s1 IH]; simpl; [reflexivity|]. by rewrite IH. Qed.

Lemma list_ascii_of_string_inj s1 s2 :
  list_ascii_of_string s1 = list_ascii_of_string s2 -> s1 = s2.
Proof.
  intros H. rewrite <- (string_of_list_ascii_of_string s1),
    <- (string_of_list_ascii_of_string s2), H. reflexivity.
Qed.

Lemma append_inj_l s1 s2 suffix :
  s1 +:+ suffix = s2 +:+ suffix -> s1 = s2.
Proof.
  intros H. apply (f_equal list_ascii_of_string) in H.
  rewrite !list_ascii_of_string_app in H.
  apply app_inv_tail in H. by apply list_ascii_of_string_inj.
Qed.

Lemma append_last_differs s1 s2 t1 t2 c1 c2 :
  c1 <> c2 ->
  s1 +:+ t1 +:+ String c1 "" <> s2 +:+ t2 +:+ String c2 "".
Proof.
  intros Hc H. apply (f_equal list_ascii_of_string) in H.
  rewrite !list_ascii_of_string_app in H. simpl in H.
  rewrite !app_assoc in H. apply app_inj_tail in H as [_ H]. congruence.
Qed.

(** A field that does not hold the character [ch] ends at the first
    [ch]. *)
Lemma split_at ch s1 : forall s2 r1 r2,
  free_of ch s1 -> free_of ch s2 ->
  s1 +:+ String ch r1 = s2 +:+ String ch r2 -> s1 = s2 /\ r1 = r2.
Proof.
  unfold free_of.
  induction s1 as [|c s1 IH]; intros [|c' s2] r1 r2 H1 H2 E; simpl in *.
  - injection E as E. by subst.
  - injection E as Ec _. apply Forall_cons in H2 as [H2 _]. by subst.
  - injection E as Ec _. apply Forall_cons in H1 as [H1 _]. by subst.
  - injection E as Ec E. apply Forall_cons in H1 as [_ H1].
    apply Forall_cons in H2 as [_ H2].
    destruct (IH s2 r1 r2 H1 H2 E) as [E1 E2]. by subst.
Qed.

Lemma string_of_uint_free_of ch d :
  ch ∉ str_alphabet -> free_of ch (NilEmpty.string_of_uint d).
Proof.
  intros Hch. unfold free_of.
  induction d; simpl; try apply Forall_nil_2;
    (apply Forall_cons; split; [|assumption]);
    intros <-; apply Hch, list_elem_of_In; simpl; auto 20.
Qed.

Lemma str_free_of ch n : ch ∉ str_alphabet -> free_of ch (str n).
Proof.
  intros Hch.
  assert (Hc : forall c, c ∈ str_alphabet -> c <> ch) by (intros c Hc <-; done).
  assert (Hin : forall c, In c str_alphabet -> c <> ch).
  { intros c Hc'. by apply Hc, list_elem_of_In. }
  unfold str, NilZero.string_of_int, NilZero.string_of_uint.
  destruct (Z.to_int n) as [d|d]; destruct d;
    try apply (string_of_uint_free_of _ (_ _) Hch);
    try (apply Forall_cons; split; [apply Hin; simpl; auto 20|]);
    try apply (string_of_uint_free_of _ (_ _) Hch);
    repeat (apply Forall_cons; split; [apply Hin; simpl; auto 20|]);
    apply Forall_nil_2.
Qed.

Lemma underscore_not_in_str : "_"%char ∉ str_alphabet.
Proof. intros H. apply list_elem_of_In in H. simpl in H. intuition discriminate. Qed.

Lemma bracket_not_in_str : "]"%char ∉ str_alphabet.
Proof. intros H. apply list_elem_of_In in H. simpl in H. intuition discriminate. Qed.

(** [str] is one-to-one: it is undone by parsing. *)
Lemma str_inj n n' : str n = str n' -> n = n'.
Proof.
  intros E. apply DecimalZ.to_int_inj.
  assert (P : forall z, NilZero.int_of_string (str z) = Some (Z.to_int z)).
  { intros z. apply NilZero.isi; destruct z; simpl; try discriminate;
      intros [= H]; by apply Unsigned.to_uint_nonnil in H. }
  pose proof (P n) as Pn. rewrite E, P in Pn. by injection Pn.
Qed.


Lemma compressor_name_eq k column level no :
  compressor_name k column level no
  = "u_" +:+ kind_module_name k +:+ "_" +:+ str column
         +:+ "_" +:+ str level +:+ "_" +:+ str no.
Proof. reflexivity. Qed.

Lemma compressor_name_same_kind k column level no column' level' no' :
  compressor_name k column level no = compressor_name k column' level' no' ->
  column = column' /\ level = level' /\ no = no'.
Proof.
  rewrite !compressor_name_eq. intros E.
  apply (inj (String.app "u_")) in E.
  apply (inj (String.app (kind_module_name k))) in E.
  apply (inj (String.app "_")) in E.
  apply (split_at "_") in E as [Ec E];
    try apply str_free_of, underscore_not_in_str.
  apply (split_at "_") in E as [El En];
    try apply str_free_of, underscore_not_in_str.
  auto using str_inj.
Qed.

Lemma compressor_name_fields k column level no k' column' level' no' :
  compressor_name k column level no = compressor_name k' column' level' no' ->
  k = k' /\ column = column' /\ level = level' /\ no = no'.
Proof.
  intros E.
  assert (Ek : k = k').
  { rewrite !compressor_name_eq in E.
    destruct k, k'; try reflexivity; simpl in E; discriminate. }
  subst k'. split; [reflexivity|].
  exact (compressor_name_same_kind _ _ _ _ _ _ _ E).
Qed.

(** X1. The identifier of a compressor determines its kind, column,
    level and sequence number. *)
Theorem compressor_name_inj k column level no k' column' level' no' :
  compressor_name k column level no = compressor_name k' column' level' no' ->
  k = k' /\ column = column' /\ level = level' /\ no = no'.
Proof. apply compressor_name_fields. Qed.

Lemma compressor_name_inj_witness :
  compressor_name K4to2 12 3 45 = "u_cmprs_4to2_12_3_45"
  /\ (K4to2 = K4to2 /\ 12 = 12 /\ 3 = 3 /\ 45 = 45).
Proof.
  split; [reflexivity|].
  apply (compressor_name_inj K4to2 12 3 45 K4to2 12 3 45). reflexivity.
Defined.


Lemma output_suffix_cases suffix :
  suffix ∈ output_suffixes ->
  suffix = "_sum" \/ suffix = "_cout" \/ suffix = "_cout_a"
  \/ suffix = "_cout_b".
Proof.
  unfold output_suffixes. rewrite !elem_of_cons, elem_of_nil. tauto.
Qed.

(** The name of an output signal determines its compressor and its
    role. *)
Lemma output_name_inj n1 n2 suffix1 suffix2 :
  suffix1 ∈ output_suffixes -> suffix2 ∈ output_suffixes ->
  n1 +:+ suffix1 = n2 +:+ suffix2 -> n1 = n2 /\ suffix1 = suffix2.
Proof.
  intros H1 H2 E.
  apply output_suffix_cases in H1 as [-> | [-> | [-> | ->]]];
    apply output_suffix_cases in H2 as [-> | [-> | [-> | ->]]];
    try (split; [exact (append_inj_l _ _ _ E)|reflexivity]);
    exfalso; revert E;
    first
      [ apply (append_last_differs n1 n2 "_su" "_cou" "m" "t")
      | apply (append_last_differs n1 n2 "_su" "_cout_" "m" "a")
      | apply (append_last_differs n1 n2 "_su" "_cout_" "m" "b")
      | apply (append_last_differs n1 n2 "_cou" "_su" "t" "m")
      | apply (append_last_differs n1 n2 "_cou" "_cout_" "t" "a")
      | apply (append_last_differs n1 n2 "_cou" "_cout_" "t" "b")
      | apply (append_last_differs n1 n2 "_cout_" "_su" "a" "m")
      | apply (append_last_differs n1 n2 "_cout_" "_cou" "a" "t")
      | apply (append_last_differs n1 n2 "_cout_" "_cout_" "a" "b")
      | apply (append_last_differs n1 n2 "_cout_" "_su" "b" "m")
      | apply (append_last_differs n1 n2 "_cout_" "_cou" "b" "t")
      | apply (append_last_differs n1 n2 "_cout_" "_cout_" "b" "a") ];
    discriminate.
Qed.

Lemma driven_from_weaken column level no no' s :
  no' <= no -> driven_from column level no s -> driven_from column level no' s.
Proof.
  intros H (k & m & suffix & Hm & R). exists k, m, suffix. split; [lia|exact R].
Qed.

(** A signal of sequence number [no] is not among signals of larger
    numbers. *)
Lemma name_not_among_later column level no k suffix (rest : list Signal.t) :
  suffix ∈ output_suffixes ->
  Forall (driven_from column level (no + 1)) rest ->
  compressor_name k column level no +:+ suffix ∉ map Signal.name rest.
Proof.
  intros Hs Hrest Hin.
  apply list_elem_of_fmap in Hin as (s & Es & Hin).
  rewrite Forall_forall in Hrest.
  destruct (Hrest s Hin) as (k' & m & suffix' & Hm & Hs' & En & _).
  rewrite En in Es. apply output_name_inj in Es as [Es _]; [|done|done].
  apply compressor_name_fields in Es. lia.
Qed.


(** ** What [column_add] registers and returns *)

Lemma driven_by_init k column level no suffix s :
  suffix ∈ output_suffixes ->
  Signal.name s = compressor_name k column level no +:+ suffix ->
  Signal.host s = Some (compressor_name k column level no) ->
  driven_from column level no s.
Proof. intros H1 H2 H3. exists k, no, suffix. split; [lia|done]. Qed.

Lemma suffix_in_1 : "_sum" ∈ output_suffixes.
Proof. unfold output_suffixes. set_solver. Qed.
Lemma suffix_in_2 : "_cout" ∈ output_suffixes.
Proof. unfold output_suffixes. set_solver. Qed.
Lemma suffix_in_3 : "_cout_a" ∈ output_suffixes.
Proof. unfold output_suffixes. set_solver. Qed.
Lemma suffix_in_4 : "_cout_b" ∈ output_suffixes.
Proof. unfold output_suffixes. set_solver. Qed.

Lemma suffixes_apart n suffix1 suffix2 :
  suffix1 ∈ output_suffixes -> suffix2 ∈ output_suffixes ->
  suffix1 <> suffix2 -> n +:+ suffix1 <> n +:+ suffix2.
Proof.
  intros H1 H2 Hne E. apply output_name_inj in E as [_ E]; done.
Qed.

(** The outputs of one compressor carry different names. *)
Lemma outputs_2to1 a b column level no :
  let k := Compressor2to1.init a b column level no in
  NoDup (map Signal.name [Compressor2to1.cout k; Compressor2to1.sum k])
  /\ Forall (driven_from column level no)
       [Compressor2to1.cout k; Compressor2to1.sum k].
Proof.
  cbv zeta. split.
  - change (NoDup [compressor_name K2to1 column level no +:+ "_cout";
                   compressor_name K2to1 column level no +:+ "_sum"]).
    apply NoDup_cons. split; [|apply NoDup_singleton].
    rewrite list_elem_of_singleton.
    apply suffixes_apart; [apply suffix_in_2|apply suffix_in_1|done].
  - repeat apply Forall_cons_2; try apply Forall_nil_2.
    + apply (driven_by_init K2to1 _ _ _ "_cout"); [apply suffix_in_2|reflexivity|reflexivity].
    + apply (driven_by_init K2to1 _ _ _ "_sum"); [apply suffix_in_1|reflexivity|reflexivity].
Qed.

Lemma outputs_3to2 a b c column level no :
  let k := Compressor3to2.init a b c column level no in
  NoDup (map Signal.name [Compressor3to2.cout k; Compressor3to2.sum k])
  /\ Forall (driven_from column level no)
       [Compressor3to2.cout k; Compressor3to2.sum k].
Proof.
  cbv zeta. split.
  - change (NoDup [compressor_name K3to2 column level no +:+ "_cout";
                   compressor_name K3to2 column level no +:+ "_sum"]).
    apply NoDup_cons. split; [|apply NoDup_singleton].
    rewrite list_elem_of_singleton.
    apply suffixes_apart; [apply suffix_in_2|apply suffix_in_1|done].
  - repeat apply Forall_cons_2; try apply Forall_nil_2.
    + apply (driven_by_init K3to2 _ _ _ "_cout"); [apply suffix_in_2|reflexivity|reflexivity].
    + apply (driven_by_init K3to2 _ _ _ "_sum"); [apply suffix_in_1|reflexivity|reflexivity].
Qed.

Lemma outputs_4to2 a b c d cin column level no :
  let k := Compressor4to2.init a b c d cin column level no in
  NoDup (map Signal.name
           [Compressor4to2.cout_a k; Compressor4to2.cout_b k;
            Compressor4to2.sum k])
  /\ Forall (driven_from column level no)
       [Compressor4to2.cout_a k; Compressor4to2.cout_b k;
        Compressor4to2.sum k].
Proof.
  cbv zeta. split.
  - change (NoDup [compressor_name K4to2 column level no +:+ "_cout_a";
                   compressor_name K4to2 column level no +:+ "_cout_b";
                   compressor_name K4to2 column level no +:+ "_sum"]).
    repeat (apply NoDup_cons; split); try apply NoDup_nil_2;
      rewrite ?elem_of_cons, ?elem_of_nil; intros H;
      repeat (destruct H as [H|H]); try done; revert H;
      apply suffixes_apart;
      first [apply suffix_in_1|apply suffix_in_3|apply suffix_in_4|done].
  - repeat apply Forall_cons_2; try apply Forall_nil_2.
    + apply (driven_by_init K4to2 _ _ _ "_cout_a"); [apply suffix_in_3|reflexivity|reflexivity].
    + apply (driven_by_init K4to2 _ _ _ "_cout_b"); [apply suffix_in_4|reflexivity|reflexivity].
    + apply (driven_by_init K4to2 _ _ _ "_sum"); [apply suffix_in_1|reflexivity|reflexivity].
Qed.


Lemma carries_count_step n :
  carries_count (n + 5) = (2 + carries_count n)%nat.
Proof.
  unfold carries_count.
  replace (n + 5)%nat with (n + 1 * 5)%nat by lia.
  rewrite Nat.div_add, Nat.Div0.mod_add by lia. lia.
Qed.

Lemma tie_low_of_step n : tie_low_of (n + 5) = tie_low_of n.
Proof.
  unfold tie_low_of. replace (n + 5)%nat with (n + 1 * 5)%nat by lia.
  rewrite Nat.Div0.mod_add. reflexivity.
Qed.

Lemma registered_name_not_among_later column level no kd
    (new : list AnyCompressor) :
  Forall (registered_from column level (no + 1)) new ->
  compressor_name kd column level no ∉ map any_name new.
Proof.
  intros Hnew Hin. apply list_elem_of_fmap in Hin as (k & Ek & Hin).
  rewrite Forall_forall in Hnew.
  destruct (Hnew k Hin) as (kd' & m & Hm & En).
  rewrite En in Ek. apply compressor_name_fields in Ek. lia.
Qed.

Lemma registered_from_weaken column level no no' k :
  no' <= no -> registered_from column level no k ->
  registered_from column level no' k.
Proof. intros H (kd & m & Hm & E). exists kd, m. split; [lia|exact E]. Qed.

(** One compressor, nothing else: the base cases of the reduction. *)
Lemma reduced_by_one column level no v k carries sums :
  (length v <= 5)%nat ->
  ((length v + 4) / 5 = 1)%nat ->
  length sums = 1%nat -> length carries = carries_count (length v) ->
  carries ++ sums = outputs k ->
  inputs k = v ++ tie_low_of (length v) ->
  NoDup (map Signal.name (outputs k)) ->
  Forall (driven_from column level no) (outputs k) ->
  reduced_by column level no v [k] (carries, sums).
Proof.
  intros _ Hd Hs Hc Ho Hi Hnd Hall. unfold reduced_by. cbn [fst snd].
  split; [rewrite Hd; exact Hs|]. split; [exact Hc|].
  split; [rewrite Hd; reflexivity|].
  split; [rewrite Ho; cbn [map concat]; rewrite app_nil_r; reflexivity|].
  split; [cbn [map concat]; rewrite app_nil_r, Hi; reflexivity|].
  rewrite Ho. split; done.
Qed.

Lemma column_add_rec_spec fuel : forall self σ l v column level no,
  heap σ !! l = Some v ->
  (length v < fuel)%nat ->
  exists σ' o new,
    WallaceTree.column_add_rec fuel self l column level no σ = (σ', o)
    /\ compressors σ' = compressors σ ++ new
    /\ NoDup (map any_name new)
    /\ Forall (registered_from column level no) new
    /\ match o with
       | Return r =>
           v <> [] /\ (length v mod 5 <> 1)%nat
           /\ reduced_by column level no v new r
       | Raise AssertionError => v = [] /\ new = []
       | Raise IndexError =>
           (length v mod 5 = 1)%nat /\ length new = (length v / 5)%nat
       | _ => False
       end.
Proof.
  induction fuel as [|fuel IH]; intros self σ l v column level no Hl Hf; [lia|].
  assert (Hreg1 : forall kd k,
            any_name k = compressor_name kd column level no ->
            NoDup (map any_name [k])
            /\ Forall (registered_from column level no) [k]).
  { intros kd k E. split; [apply NoDup_singleton|].
    apply Forall_singleton. exists kd, no. split; [lia|exact E]. }
  destruct v as [|a [|b [|c [|d [|e [|f t]]]]]].
  - rewrite (column_add_rec_0 _ _ _ _ _ _ _ Hl). exists σ, (Raise AssertionError), [].
    rewrite app_nil_r. repeat split; try done; constructor.
  - rewrite (column_add_rec_1 _ _ _ _ _ _ _ _ Hl). eexists _, _, [].
    split; [reflexivity|]. simpl. rewrite app_nil_r.
    repeat split; try done; constructor.
  - rewrite (column_add_rec_2 _ _ _ _ _ _ _ _ _ Hl).
    set (k := Compressor2to1.init a b column level no).
    destruct (Hreg1 K2to1 (Is2to1 k) eq_refl) as [R1 R2].
    destruct (outputs_2to1 a b column level no) as [O1 O2].
    eexists _, _, [Is2to1 k]. split; [reflexivity|].
    split; [reflexivity|]. split; [exact R1|]. split; [exact R2|].
    split; [done|]. split; [done|].
    apply reduced_by_one; try done; simpl; lia.
  - rewrite (column_add_rec_3 _ _ _ _ _ _ _ _ _ _ Hl).
    set (k := Compressor3to2.init a b c column level no).
    destruct (Hreg1 K3to2 (Is3to2 k) eq_refl) as [R1 R2].
    destruct (outputs_3to2 a b c column level no) as [O1 O2].
    eexists _, _, [Is3to2 k]. split; [reflexivity|].
    split; [reflexivity|]. split; [exact R1|]. split; [exact R2|].
    split; [done|]. split; [done|].
    apply reduced_by_one; try done; simpl; lia.
  - rewrite (column_add_rec_4 _ _ _ _ _ _ _ _ _ _ _ Hl).
    set (k := Compressor4to2.init a b c d TIE_LOW column level no).
    destruct (Hreg1 K4to2 (Is4to2 k) eq_refl) as [R1 R2].
    destruct (outputs_4to2 a b c d TIE_LOW column level no) as [O1 O2].
    eexists _, _, [Is4to2 k]. split; [reflexivity|].
    split; [reflexivity|]. split; [exact R1|]. split; [exact R2|].
    split; [done|]. split; [done|].
    apply reduced_by_one; try done; simpl; lia.
  - rewrite (column_add_rec_5 _ _ _ _ _ _ _ _ _ _ _ _ Hl).
    set (k := Compressor4to2.init a b c d e column level no).
    destruct (Hreg1 K4to2 (Is4to2 k) eq_refl) as [R1 R2].
    destruct (outputs_4to2 a b c d e column level no) as [O1 O2].
    eexists _, _, [Is4to2 k]. split; [reflexivity|].
    split; [reflexivity|]. split; [exact R1|]. split; [exact R2|].
    split; [done|]. split; [done|].
    apply reduced_by_one; try done; simpl; lia.
  - destruct (split_last_five (a :: b :: c :: d :: e :: f :: t))
      as (rest & s5 & s4 & s3 & s2 & s1 & Hne & Ev & Hlen); [simpl; lia|].
    rewrite Ev in Hl.
    rewrite (column_add_rec_more _ _ _ _ _ _ _ _ _ _ _ _ _ Hne Hl).
    set (k := Compressor4to2.init s1 s2 s3 s4 s5 column level no).
    set (σ1 := set_heap <[l := rest]> _).
    destruct (IH self σ1 l rest column level (no + 1))
      as (σ' & o & new & E & Hc & Hnd & Hreg & Ho);
      [apply heap_set_heap_insert|lia|].
    destruct (outputs_4to2 s1 s2 s3 s4 s5 column level no) as [O1 O2].
    fold k in O1, O2.
    rewrite run_bind, E, Ev. clear Ev Hlen Hf.
    assert (Hlen : length (rest ++ [s5; s4; s3; s2; s1])
                   = (length rest + 5)%nat)
      by (rewrite length_app; reflexivity).
    assert (Hmod : ((length rest + 5) mod 5 = length rest mod 5)%nat).
    { replace (length rest + 5)%nat with (length rest + 1 * 5)%nat by lia.
      apply Nat.Div0.mod_add. }
    assert (Hdiv : forall j, ((length rest + 5 + j) / 5
                              = S ((length rest + j) / 5))%nat).
    { intros j.
      replace (length rest + 5 + j)%nat with (length rest + j + 1 * 5)%nat
        by lia.
      rewrite Nat.div_add by lia. lia. }
    assert (Hc' : compressors σ' = compressors σ ++ Is4to2 k :: new).
    { rewrite Hc. simpl. rewrite <- app_assoc. reflexivity. }
    assert (Hnd' : NoDup (map any_name (Is4to2 k :: new))).
    { simpl. apply NoDup_cons. split; [|exact Hnd].
      exact (registered_name_not_among_later column level no K4to2 new Hreg). }
    assert (Hreg' : Forall (registered_from column level no) (Is4to2 k :: new)).
    { apply Forall_cons. split; [exists K4to2, no; split; [lia|reflexivity]|].
      eapply Forall_impl; [exact Hreg|]. intros x.
      apply registered_from_weaken. lia. }
    destruct o as [[cs ss]|[| | |]|]; try done.
    + destruct Ho as (_ & Hm & Hs & Hcs & Hn & Hout & Hin & Hnames & Hdr).
      simpl in Hs, Hcs, Hout, Hin, Hnames, Hdr.
      eexists _, _, _. split; [reflexivity|].
      split; [exact Hc'|]. split; [exact Hnd'|]. split; [exact Hreg'|].
      split; [by destruct rest|]. split; [by rewrite Hlen, Hmod|].
      unfold reduced_by. rewrite Hlen. cbn [fst snd].
      assert (Hperm :
        ([Compressor4to2.cout_a k; Compressor4to2.cout_b k] ++ cs)
          ++ [Compressor4to2.sum k] ++ ss
        ≡ₚ outputs (Is4to2 k) ++ (cs ++ ss)).
      { simpl. do 2 apply Permutation_skip. symmetry. apply Permutation_middle. }
      split; [cbn [length app]; rewrite Hs, (Hdiv 4%nat); reflexivity|].
      split; [rewrite carries_count_step; cbn [length app]; rewrite Hcs;
              reflexivity|].
      split; [cbn [length]; rewrite Hn, (Hdiv 4%nat); reflexivity|].
      split; [rewrite Hperm, Hout; reflexivity|].
      split.
      { cbn [map concat]. rewrite Hin, tie_low_of_step.
        change (inputs (Is4to2 k)) with [s1; s2; s3; s4; s5].
        solve_Permutation. }
      split.
      { rewrite Hperm, map_app. apply NoDup_app. split; [exact O1|].
        split; [|exact Hnames].
        intros x Hx Hx'. simpl in Hx.
        rewrite !elem_of_cons, elem_of_nil in Hx.
        destruct Hx as [->|[->|[->|[]]]]; revert Hx';
          apply (name_not_among_later column level no K4to2);
          first [apply suffix_in_1|apply suffix_in_3|apply suffix_in_4
                |exact Hdr]. }
      rewrite Hperm. apply Forall_app. split; [exact O2|].
      eapply Forall_impl; [exact Hdr|]. intros x.
      apply driven_from_weaken. lia.
    + destruct Ho as [Hm Hn]. eexists _, _, _. split; [reflexivity|].
      split; [exact Hc'|]. split; [exact Hnd'|]. split; [exact Hreg'|].
      rewrite Hlen, Hmod. split; [exact Hm|].
      cbn [length]. rewrite Hn. specialize (Hdiv 0%nat).
      rewrite !Nat.add_0_r in Hdiv. rewrite Hdiv. reflexivity.
    + destruct Ho as [Hr _]. done.
Qed.


Lemma insert_empty_list_id σ l :
  heap σ !! l = Some [] -> <[l := []]> (heap σ) = heap σ.
Proof. intros H. by apply insert_id. Qed.

(** X2. On any list object [column_add] returns or raises, and which of
    the two depends on the number [n] of signals alone: it raises
    [AssertionError] for [n = 0], raises [IndexError] for
    [n mod 5 = 1], and otherwise returns [ceil(n / 5)] sums and
    [carries_count n] carries.  In every case the list is empty
    afterwards, no other list object, nothing printed and no earlier
    registry entry is touched, and the registry grows by one compressor
    for each group of five signals or less that was reduced. *)
Theorem column_add_outcome self σ l v column level no :
  heap σ !! l = Some v ->
  exists σ' o new,
    WallaceTree.column_add self l column level no σ = (σ', o)
    /\ heap σ' = <[l := []]> (heap σ)
    /\ compressors σ' = compressors σ ++ new
    /\ next_loc σ' = next_loc σ /\ stdout σ' = stdout σ
    /\ match o with
       | Return (carries, sums) =>
           v <> [] /\ (length v mod 5 <> 1)%nat
           /\ length sums = ((length v + 4) / 5)%nat
           /\ length carries = carries_count (length v)
           /\ length new = ((length v + 4) / 5)%nat
       | Raise AssertionError => v = [] /\ new = []
       | Raise IndexError =>
           (length v mod 5 = 1)%nat /\ length new = (length v / 5)%nat
       | _ => False
       end.
Proof.
  intros Hl. rewrite (column_add_unfold _ _ _ _ _ _ _ Hl).
  destruct (column_add_rec_total (S (length v)) self σ l v column level no Hl)
    as (σ1 & o1 & E1 & _ & Hh & Hn & Hs); [lia|].
  destruct (column_add_rec_spec (S (length v)) self σ l v column level no Hl)
    as (σ' & o & new & E & Hc & _ & _ & Ho); [lia|].
  rewrite E in E1. injection E1 as <- <-.
  exists σ', o, new. split; [exact E|].
  split.
  { rewrite Hh. destruct v; [|reflexivity].
    symmetry. by apply insert_empty_list_id. }
  split; [exact Hc|]. split; [exact Hn|]. split; [exact Hs|].
  destruct o as [[carries sums]|[| | |]|]; try done.
  destruct Ho as (H1 & H2 & H3 & H4 & H5 & _). done.
Qed.

Lemma column_add_outcome_witness :
  exists σ' carries sums,
    WallaceTree.column_add no_tree 0%nat 3 0 0
      (one_list [pp 0 3; pp 1 3; pp 2 3; pp 3 3; pp 4 3; pp 5 3; pp 6 3])
    = (σ', Return (carries, sums))
    /\ length carries = 3%nat /\ length sums = 2%nat
    /\ length (compressors σ') = 2%nat
    /\ heap σ' !! 0%nat = Some [].
Proof.
  destruct (column_add_outcome no_tree
              (one_list [pp 0 3; pp 1 3; pp 2 3; pp 3 3; pp 4 3; pp 5 3;
                         pp 6 3])
              0%nat _ 3 0 0 eq_refl)
    as (σ' & o & new & E & Hh & Hc & _ & _ & Ho).
  destruct o as [[carries sums]|[| | |]|]; try done;
    try (destruct Ho as [Ho _]; vm_compute in Ho; discriminate).
  destruct Ho as (_ & _ & Hs & Hcs & Hn).
  exists σ', carries, sums. split; [exact E|].
  rewrite Hcs, Hs, Hc, Hh, length_app, Hn. simpl.
  rewrite lookup_insert_eq. done.
Defined.

(** X3. When [column_add] returns, the signals it returns carry
    pairwise different names, and so do the compressors it registered;
    every returned signal is named and hosted by a compressor of this
    column and level whose sequence number is at least [no]. *)
Theorem column_add_names_apart self σ σ' l v column level no carries sums :
  heap σ !! l = Some v ->
  WallaceTree.column_add self l column level no σ
  = (σ', Return (carries, sums)) ->
  NoDup (map Signal.name (carries ++ sums))
  /\ Forall (driven_from column level no) (carries ++ sums)
  /\ exists new,
       compressors σ' = compressors σ ++ new
       /\ NoDup (map any_name new)
       /\ Forall (registered_from column level no) new.
Proof.
  intros Hl E. rewrite (column_add_unfold _ _ _ _ _ _ _ Hl) in E.
  destruct (column_add_rec_spec (S (length v)) self σ l v column level no Hl)
    as (σ1 & o & new & E1 & Hc & Hnd & Hreg & Ho); [lia|].
  rewrite E in E1. injection E1 as <- <-.
  destruct Ho as (_ & _ & _ & _ & _ & _ & _ & Hnames & Hdr).
  split; [exact Hnames|]. split; [exact Hdr|]. exists new. done.
Qed.

Lemma column_add_names_apart_witness :
  exists σ' carries sums,
    WallaceTree.column_add no_tree 0%nat 3 0 0
      (one_list [pp 0 3; pp 1 3; pp 2 3; pp 3 3; pp 4 3; pp 5 3; pp 6 3])
    = (σ', Return (carries, sums))
    /\ NoDup (map Signal.name (carries ++ sums)).
Proof.
  eexists _, _, _. split; [vm_compute; reflexivity|].
  refine (proj1 (column_add_names_apart no_tree
                   (one_list [pp 0 3; pp 1 3; pp 2 3; pp 3 3; pp 4 3; pp 5 3;
                              pp 6 3])
                   _ 0%nat _ 3 0 0 _ _ eq_refl _)).
  vm_compute. reflexivity.
Defined.

(** X4. When [column_add] returns, the signals it returns are exactly
    the outputs of the compressors it registered, each once, and the
    signals wired to the input ports of these compressors are exactly
    the signals of the list, each once, together with one [TIE_LOW]
    when the last group holds four signals. *)
Theorem column_add_conserves_signals
    self σ σ' l v column level no carries sums :
  heap σ !! l = Some v ->
  WallaceTree.column_add self l column level no σ
  = (σ', Return (carries, sums)) ->
  exists new,
    compressors σ' = compressors σ ++ new
    /\ carries ++ sums ≡ₚ concat (map outputs new)
    /\ concat (map inputs new) ≡ₚ v ++ tie_low_of (length v).
Proof.
  intros Hl E. rewrite (column_add_unfold _ _ _ _ _ _ _ Hl) in E.
  destruct (column_add_rec_spec (S (length v)) self σ l v column level no Hl)
    as (σ1 & o & new & E1 & Hc & Hnd & Hreg & Ho); [lia|].
  rewrite E in E1. injection E1 as <- <-.
  destruct Ho as (_ & _ & _ & _ & _ & Hout & Hin & _).
  exists new. done.
Qed.

Lemma column_add_conserves_signals_witness :
  exists σ' carries sums,
    WallaceTree.column_add no_tree 0%nat 3 0 0
      (one_list [pp 0 3; pp 1 3; pp 2 3; pp 3 3])
    = (σ', Return (carries, sums))
    /\ exists new,
         compressors σ'
         = compressors (one_list [pp 0 3; pp 1 3; pp 2 3; pp 3 3]) ++ new
         /\ carries ++ sums ≡ₚ concat (map outputs new)
         /\ concat (map inputs new)
            ≡ₚ [pp 0 3; pp 1 3; pp 2 3; pp 3 3] ++ tie_low_of 4.
Proof.
  eexists _, _, _. split; [vm_compute; reflexivity|].
  eapply (column_add_conserves_signals no_tree
            (one_list [pp 0 3; pp 1 3; pp 2 3; pp 3 3]) _ 0%nat
            [pp 0 3; pp 1 3; pp 2 3; pp 3 3] 3 0 0).
  - reflexivity.
  - vm_compute. reflexivity.
Defined.


(** ** Timing of the outputs *)

(** X5. When every addition is exact (input latencies that are
    multiples of one 2^-g, with room for 4.5 below 2^(53-g)), the sum is
    the latest output of every compressor: it leaves at least 0.5 after
    each carry, and at most 4.5 after the latest input. *)
Theorem sum_is_latest_output
    (a b c d cin : Signal.t) (column level no : Z) (g ka kb kc kd kcin : Z) :
  1 <= g ->
  exact_input g ka a -> exact_input g kb b -> exact_input g kc c ->
  exact_input g kd d -> exact_input g kcin cin ->
  let k2 := Compressor2to1.init a b column level no in
  let k3 := Compressor3to2.init a b c column level no in
  let k4 := Compressor4to2.init a b c d cin column level no in
  let latest (ins : list Signal.t) (out : Signal.t) :=
    exists x, x ∈ ins /\ at_most_after g (9 * half_units g) x out in
  (later_by g (half_units g) (Compressor2to1.cout k2) (Compressor2to1.sum k2)
   /\ latest [a; b] (Compressor2to1.sum k2))
  /\ (later_by g (half_units g)
        (Compressor3to2.cout k3) (Compressor3to2.sum k3)
      /\ latest [a; b; c] (Compressor3to2.sum k3))
  /\ (later_by g (half_units g)
        (Compressor4to2.cout_a k4) (Compressor4to2.sum k4)
      /\ later_by g (half_units g)
           (Compressor4to2.cout_b k4) (Compressor4to2.sum k4)
      /\ latest [a; b; c; d; cin] (Compressor4to2.sum k4)).
Proof.
  intros Hg Ha Hb Hc Hd Hi. cbv zeta.
  destruct (grid_2to1 a b column level no g ka kb Hg Ha Hb) as [G1 G2].
  destruct (grid_3to2 a b c column level no g ka kb kc Hg Ha Hb Hc)
    as [G3 G4].
  destruct (grid_4to2 a b c d cin column level no g ka kb kc kd kcin
              Hg Ha Hb Hc Hd Hi) as (G5 & G6 & G7).
  cbv zeta in *.
  destruct Ha as (A1 & A2 & Ea), Hb as (B1 & B2 & Eb), Hc as (C1 & C2 & Ec),
    Hd as (D1 & D2 & Ed), Hi as (I1 & I2 & Ei).
  pose proof (half_units_pos g Hg) as Hu.
  destruct (Z.max_spec ka kb) as [[O1 S1]|[O1 S1]];
    destruct (Z.max_spec (Z.max ka kb) kc) as [[O2 S2]|[O2 S2]];
    destruct (Z.max_spec (Z.max (Z.max ka kb) kc) kd) as [[O3 S3]|[O3 S3]];
    destruct (Z.max_spec (Z.max (Z.max (Z.max ka kb) kc) kd) kcin)
      as [[O4 S4]|[O4 S4]];
    (split; [split|split; [split|split; [|split]]]);
    first [ eexists _, _; split; [eassumption|split; [eassumption|lia]]
          | exists cin; split; [by repeat constructor|];
            eexists _, _; split; [eassumption|split; [eassumption|lia]]
          | exists d; split; [by repeat constructor|];
            eexists _, _; split; [eassumption|split; [eassumption|lia]]
          | exists c; split; [by repeat constructor|];
            eexists _, _; split; [eassumption|split; [eassumption|lia]]
          | exists b; split; [by repeat constructor|];
            eexists _, _; split; [eassumption|split; [eassumption|lia]]
          | exists a; split; [by repeat constructor|];
            eexists _, _; split; [eassumption|split; [eassumption|lia]] ].
Qed.

Lemma sum_is_latest_output_witness :
  let x := Signal.init "x" 4.0 None in
  let y := Signal.init "y" 5.5 None in
  let k2 := Compressor2to1.init x y 0 0 0 in
  later_by 1 1 (Compressor2to1.cout k2) (Compressor2to1.sum k2).
Proof.
  cbv zeta.
  pose (x := Signal.init "x" 4.0 None). pose (y := Signal.init "y" 5.5 None).
  assert (Ex : exact_input 1 8 x) by (repeat split; try reflexivity; lia).
  assert (Ey : exact_input 1 11 y) by (repeat split; try reflexivity; lia).
  exact (proj1 (proj1 (sum_is_latest_output x y x x x 0 0 0 1 8 11 8 8 8
                         ltac:(lia) Ex Ey Ex Ex Ex))).
Defined.

Section Envelope.
Variables g lo hi : Z.
Hypothesis Hg : 1 <= g.
Hypothesis Hlo : 0 <= lo.
Hypothesis Hhi : hi + 9 * half_units g < 2 ^ prec.

Abbreviation hu := (half_units g).

Lemma arrives_exact lo' s :
  0 <= lo' -> arrives_within g lo' hi s ->
  exists k, lo' <= k <= hi /\ exact_input g k s.
Proof.
  intros H0 (k & Hk & E). exists k. split; [exact Hk|].
  repeat split; [lia|lia|exact E].
Qed.

Lemma envelope_2to1 a b column level no :
  arrives_within g lo hi a -> arrives_within g lo hi b ->
  let k := Compressor2to1.init a b column level no in
  arrives_within g (lo + 2 * hu) (hi + 8 * hu) (Compressor2to1.cout k)
  /\ arrives_within g (lo + 3 * hu) (hi + 9 * hu) (Compressor2to1.sum k).
Proof.
  intros (ka & Ka & Ha)%(arrives_exact lo); [|exact Hlo].
  intros (kb & Kb & Hb)%(arrives_exact lo); [|exact Hlo].
  pose proof (half_units_pos g Hg).
  destruct (grid_2to1 a b column level no g ka kb Hg Ha Hb) as [E1 E2].
  cbv zeta in *. split; eexists; (split; [|eassumption]); lia.
Qed.

Lemma envelope_3to2 a b c column level no :
  arrives_within g lo hi a -> arrives_within g lo hi b ->
  arrives_within g lo hi c ->
  let k := Compressor3to2.init a b c column level no in
  arrives_within g (lo + 2 * hu) (hi + 8 * hu) (Compressor3to2.cout k)
  /\ arrives_within g (lo + 3 * hu) (hi + 9 * hu) (Compressor3to2.sum k).
Proof.
  intros (ka & Ka & Ha)%(arrives_exact lo); [|exact Hlo].
  intros (kb & Kb & Hb)%(arrives_exact lo); [|exact Hlo].
  intros (kc & Kc & Hc)%(arrives_exact lo); [|exact Hlo].
  pose proof (half_units_pos g Hg).
  destruct (grid_3to2 a b c column level no g ka kb kc Hg Ha Hb Hc)
    as [E1 E2].
  cbv zeta in *. split; eexists; (split; [|eassumption]); lia.
Qed.

(** The carry input may be [TIE_LOW], which arrives at 0.0. *)
Lemma envelope_4to2 a b c d cin column level no :
  arrives_within g lo hi a -> arrives_within g lo hi b ->
  arrives_within g lo hi c -> arrives_within g lo hi d ->
  arrives_within g 0 hi cin ->
  let k := Compressor4to2.init a b c d cin column level no in
  arrives_within g (lo + 2 * hu) (hi + 8 * hu) (Compressor4to2.cout_a k)
  /\ arrives_within g (lo + 2 * hu) (hi + 8 * hu) (Compressor4to2.cout_b k)
  /\ arrives_within g (lo + 3 * hu) (hi + 9 * hu) (Compressor4to2.sum k).
Proof.
  intros (ka & Ka & Ha)%(arrives_exact lo); [|exact Hlo].
  intros (kb & Kb & Hb)%(arrives_exact lo); [|exact Hlo].
  intros (kc & Kc & Hc)%(arrives_exact lo); [|exact Hlo].
  intros (kd & Kd & Hd)%(arrives_exact lo); [|exact Hlo].
  intros (ki & Ki & Hi)%(arrives_exact 0); [|lia].
  pose proof (half_units_pos g Hg).
  destruct (grid_4to2 a b c d cin column level no g ka kb kc kd ki
              Hg Ha Hb Hc Hd Hi) as (E1 & E2 & E3).
  cbv zeta in *. repeat split; eexists; (split; [|eassumption]); lia.
Qed.

Lemma arrives_weaken s : arrives_within g lo hi s -> arrives_within g 0 hi s.
Proof. intros (k & Hk & E). exists k. split; [lia|exact E]. Qed.

Lemma arrives_TIE_LOW s : arrives_within g lo hi s -> arrives_within g 0 hi TIE_LOW.
Proof. intros (k & Hk & _). exists 0. split; [lia|reflexivity]. Qed.

Lemma column_add_rec_envelope fuel : forall self σ σ' l v column level no r,
  heap σ !! l = Some v ->
  (length v < fuel)%nat ->
  Forall (arrives_within g lo hi) v ->
  WallaceTree.column_add_rec fuel self l column level no σ = (σ', Return r) ->
  Forall (arrives_within g (lo + 2 * hu) (hi + 8 * hu)) r.1
  /\ Forall (arrives_within g (lo + 3 * hu) (hi + 9 * hu)) r.2.
Proof.
  induction fuel as [|fuel IH];
    intros self σ σ' l v column level no r Hl Hf Hv E; [lia|].
  destruct v as [|a [|b [|c [|d [|e [|f t]]]]]].
  - rewrite (column_add_rec_0 _ _ _ _ _ _ _ Hl) in E. discriminate.
  - rewrite (column_add_rec_1 _ _ _ _ _ _ _ _ Hl) in E. discriminate.
  - rewrite (column_add_rec_2 _ _ _ _ _ _ _ _ _ Hl) in E.
    injection E as <- <-.
    apply Forall_cons in Hv as [Ha Hv]; apply Forall_cons in Hv as [Hb Hv].
    destruct (envelope_2to1 a b column level no Ha Hb) as [H1 H2].
    split; apply Forall_singleton; assumption.
  - rewrite (column_add_rec_3 _ _ _ _ _ _ _ _ _ _ Hl) in E.
    injection E as <- <-.
    apply Forall_cons in Hv as [Ha Hv]; apply Forall_cons in Hv as [Hb Hv];
      apply Forall_cons in Hv as [Hc Hv].
    destruct (envelope_3to2 a b c column level no Ha Hb Hc) as [H1 H2].
    split; apply Forall_singleton; assumption.
  - rewrite (column_add_rec_4 _ _ _ _ _ _ _ _ _ _ _ Hl) in E.
    injection E as <- <-.
    apply Forall_cons in Hv as [Ha Hv]; apply Forall_cons in Hv as [Hb Hv];
      apply Forall_cons in Hv as [Hc Hv]; apply Forall_cons in Hv as [Hd Hv].
    destruct (envelope_4to2 a b c d TIE_LOW column level no Ha Hb Hc Hd
                (arrives_TIE_LOW a Ha)) as (H1 & H2 & H3).
    split; repeat (apply Forall_cons; split); try apply Forall_nil_2;
      assumption.
  - rewrite (column_add_rec_5 _ _ _ _ _ _ _ _ _ _ _ _ Hl) in E.
    injection E as <- <-.
    apply Forall_cons in Hv as [Ha Hv]; apply Forall_cons in Hv as [Hb Hv];
      apply Forall_cons in Hv as [Hc Hv]; apply Forall_cons in Hv as [Hd Hv];
      apply Forall_cons in Hv as [He Hv].
    destruct (envelope_4to2 a b c d e column level no Ha Hb Hc Hd
                (arrives_weaken e He)) as (H1 & H2 & H3).
    split; repeat (apply Forall_cons; split); try apply Forall_nil_2;
      assumption.
  - destruct (split_last_five (a :: b :: c :: d :: e :: f :: t))
      as (rest & s5 & s4 & s3 & s2 & s1 & Hne & Ev & Hlen); [simpl; lia|].
    rewrite Ev in Hl, Hv.
    rewrite (column_add_rec_more _ _ _ _ _ _ _ _ _ _ _ _ _ Hne Hl) in E.
    rewrite run_bind in E.
    set (σ1 := set_heap <[l := rest]> _) in E.
    destruct (WallaceTree.column_add_rec fuel self l column level (no + 1) σ1)
      as [σ2 [r'| |]] eqn:E'; try discriminate.
    injection E as <- <-.
    apply Forall_app in Hv as [Hrest Hlast].
    apply Forall_cons in Hlast as [H5 Hlast];
      apply Forall_cons in Hlast as [H4 Hlast];
      apply Forall_cons in Hlast as [H3 Hlast];
      apply Forall_cons in Hlast as [H2 Hlast];
      apply Forall_cons in Hlast as [H1 _].
    destruct (IH self σ1 σ2 l rest column level (no + 1) r')
      as [IH1 IH2]; [apply heap_set_heap_insert|lia|exact Hrest|exact E'|].
    destruct (envelope_4to2 s1 s2 s3 s4 s5 column level no H1 H2 H3 H4
                (arrives_weaken s5 H5)) as (O1 & O2 & O3).
    split; cbn [fst snd app]; repeat (apply Forall_cons; split); assumption.
Qed.
End Envelope.

(** X6. When every addition is exact: if every signal of the list
    arrives between [lo / 2^g] and [hi / 2^g], with [lo] not negative
    and room for 4.5 above [hi], every carry that [column_add] returns
    arrives between 1.0 after [lo] and 4.0 after [hi], and every sum
    between 1.5 after [lo] and 4.5 after [hi]. *)
Theorem column_add_latency_envelope
    (g lo hi : Z) self σ σ' l v column level no carries sums :
  1 <= g -> 0 <= lo -> hi + 9 * half_units g < 2 ^ prec ->
  heap σ !! l = Some v ->
  Forall (arrives_within g lo hi) v ->
  WallaceTree.column_add self l column level no σ
  = (σ', Return (carries, sums)) ->
  Forall (arrives_within g (lo + 2 * half_units g) (hi + 8 * half_units g))
    carries
  /\ Forall (arrives_within g (lo + 3 * half_units g) (hi + 9 * half_units g))
       sums.
Proof.
  intros Hg Hlo Hhi Hl Hv E. rewrite (column_add_unfold _ _ _ _ _ _ _ Hl) in E.
  exact (column_add_rec_envelope g lo hi Hg Hlo Hhi _ _ _ _ _ _ _ _ _ _ Hl
           (Nat.lt_succ_diag_r _) Hv E).
Qed.

Lemma column_add_latency_envelope_witness :
  exists σ' carries sums,
    WallaceTree.column_add no_tree 0%nat 3 0 0
      (one_list [pp 0 3; pp 1 3; pp 2 3; pp 3 3])
    = (σ', Return (carries, sums))
    /\ Forall (arrives_within 1 (8 + 2 * half_units 1) (8 + 8 * half_units 1))
         carries
    /\ Forall (arrives_within 1 (8 + 3 * half_units 1) (8 + 9 * half_units 1))
         sums.
Proof.
  eexists _, _, _. split; [vm_compute; reflexivity|].
  eapply (column_add_latency_envelope 1 8 8 no_tree
            (one_list [pp 0 3; pp 1 3; pp 2 3; pp 3 3]) _ 0%nat
            [pp 0 3; pp 1 3; pp 2 3; pp 3 3] 3 0 0).
  - lia.
  - lia.
  - vm_compute. reflexivity.
  - reflexivity.
  - repeat (apply List.Forall_cons;
            [exists 8; split; [lia|reflexivity]|]).
    apply List.Forall_nil.
  - vm_compute. reflexivity.
Defined.

(** ** The columns of a constructed tree *)

Lemma length_filter_ge {A} (p : A -> bool) (xs l : list A) :
  NoDup xs -> Forall (fun x => x ∈ l /\ p x = true) xs ->
  (length xs <= length (List.filter p l))%nat.
Proof.
  intros Hnd Hall. apply submseteq_length, NoDup_submseteq; [exact Hnd|].
  intros x Hx. rewrite Forall_forall in Hall. destruct (Hall x Hx) as [Hl Hp].
  apply list_elem_of_In, filter_In. split; [by apply list_elem_of_In|exact Hp].
Qed.

Lemma length_filter_le {A} (p : A -> bool) (l : list A) :
  (length (List.filter p l) <= length l)%nat.
Proof. induction l as [|x l IH]; simpl; [lia|]. destruct (p x); simpl; lia. Qed.

Section FreshColumns.
Variable t : WallaceTree.t.
Variable width : Z.
Hypothesis Hw : 4 <= width.
Hypothesis Ew : WallaceTree.width t = width.
Hypothesis Er : WallaceTree.result_width t = 2 * width.
Hypothesis Ep : WallaceTree.pp_num t = width / 2 + 1.

Lemma layout_bit_set row col :
  start_pos row <= col < start_pos row + pp_width t row ->
  (layout_bit t row col =? 1) = true.
Proof.
  intros H. apply Z.eqb_eq. by apply (proj2 (layout_bit_spec t row col)).
Qed.

(** Two rows cover every column of the result: rows 0 and 1 cover the
    low columns, the last two rows the high ones. *)
Lemma column_signals_bounds c :
  0 <= c < 2 * width ->
  (2 <= length (column_signals t c))%nat
  /\ Z.of_nat (length (column_signals t c)) <= WallaceTree.pp_num t.
Proof.
  intros Hc. unfold column_signals. rewrite length_map. split.
  - destruct (Z.lt_ge_cases c (width + 4)) as [Hlow|Hhigh].
    + apply (length_filter_ge _ [0; 1]).
      * apply NoDup_cons. split; [|apply NoDup_singleton].
        rewrite list_elem_of_singleton. lia.
      * repeat (apply Forall_cons; split); try apply Forall_nil_2;
          try (split; [apply elem_of_range; rewrite Ep;
                       destruct (even_cases width) as [[_ Hq]|[_ Hq]]; lia|]);
          apply layout_bit_set; unfold start_pos, pp_width; rewrite Ew, Ep;
          destruct (even_cases width) as [[_ Hq]|[_ Hq]];
          repeat match goal with
                 | |- context [?x <=? ?y] =>
                     destruct (Z.leb_spec x y); cbv iota
                 | |- context [?x =? ?y] =>
                     destruct (Z.eqb_spec x y); cbv iota
                 end; lia.
    + apply (length_filter_ge _ [width / 2 - 1; width / 2]).
      * apply NoDup_cons. split; [|apply NoDup_singleton].
        rewrite list_elem_of_singleton. lia.
      * repeat (apply Forall_cons; split); try apply Forall_nil_2;
          try (split; [apply elem_of_range; rewrite Ep;
                       destruct (even_cases width) as [[_ Hq]|[_ Hq]]; lia|]);
          apply layout_bit_set; unfold start_pos, pp_width; rewrite Ew, Ep;
          destruct (even_cases width) as [[_ Hq]|[_ Hq]];
          repeat match goal with
                 | |- context [?x <=? ?y] =>
                     destruct (Z.leb_spec x y); cbv iota
                 | |- context [?x =? ?y] =>
                     destruct (Z.eqb_spec x y); cbv iota
                 end; lia.
  - pose proof (length_filter_le
                  (fun i => layout_bit t i c =? 1)
                  (range 0 (WallaceTree.pp_num t))) as H.
    rewrite length_range in H.
    assert (0 <= WallaceTree.pp_num t).
    { rewrite Ep. destruct (even_cases width) as [[_ Hq]|[_ Hq]]; lia. }
    lia.
Qed.

(** The staircase of the low columns: up to column [width + 2] every
    row that has started is still running, and rows 0 and 1 start in
    column 0, row [i >= 2] in column [2 i - 2]. *)
Lemma column_signals_stairs c :
  0 <= c <= width + 2 ->
  length (column_signals t c)
  = Z.to_nat (Z.min (c / 2 + 2) (WallaceTree.pp_num t)).
Proof.
  intros Hc. unfold column_signals. rewrite length_map.
  assert (Hn : 3 <= WallaceTree.pp_num t).
  { rewrite Ep. destruct (even_cases width) as [[_ Hq]|[_ Hq]]; lia. }
  rewrite (List.filter_ext_in _
             (fun i => (0 <=? i) && (i <? c / 2 + 2))).
  - replace (WallaceTree.pp_num t)
      with (Z.of_nat (Z.to_nat (WallaceTree.pp_num t))) at 1 by lia.
    rewrite count_interval.
    assert (0 <= c / 2) by (apply Z.div_pos; lia).
    lia.
  - intros i Hi. apply list_elem_of_In, elem_of_range in Hi.
    rewrite layout_bit_interval.
    assert (Hc2 : 2 * (c / 2) <= c < 2 * (c / 2) + 2).
    { pose proof (Z.div_mod c 2 ltac:(lia)).
      pose proof (Z.mod_pos_bound c 2 ltac:(lia)). lia. }
    unfold start_pos, pp_width. rewrite Ew.
    destruct (Z.leb_spec i 1); destruct (Z.eqb_spec i 0);
      destruct (Z.eqb_spec i (WallaceTree.pp_num t - 1)); cbv iota;
      repeat match goal with
             | |- context [?x <=? ?y] => destruct (Z.leb_spec x y)
             | |- context [?x <? ?y] => destruct (Z.ltb_spec x y)
             end; simpl; try reflexivity; lia.
Qed.

(** Below column 9 of a tree of width 10 or more, column [c] holds
    [c / 2 + 2] signals: 2, 2, 3, 3, 4, 4, 5, 5 and 6. *)
Lemma column_signals_low c :
  10 <= width -> 0 <= c <= 8 ->
  length (column_signals t c) = Z.to_nat (c / 2 + 2).
Proof.
  intros Hwide Hc. rewrite column_signals_stairs by lia.
  assert (Hn : 6 <= WallaceTree.pp_num t).
  { rewrite Ep. destruct (even_cases width) as [[_ Hq]|[_ Hq]]; lia. }
  assert (c / 2 <= 4) by (apply Z.div_le_upper_bound; lia).
  lia.
Qed.
End FreshColumns.


(** X7. Every column of a constructed tree holds at least two primary
    signals and at most one for each partial-product row, so
    [get_column_num] never returns 0 or 1 on a fresh tree. *)
Theorem fresh_columns_hold_two_or_more
    width pp_name logic_depth σ σ' t column :
  WallaceTree.init width pp_name logic_depth σ = (σ', Return t) ->
  0 <= column < WallaceTree.result_width t ->
  exists n,
    WallaceTree.get_column_num t column σ' = (σ', Return n)
    /\ 2 <= n <= WallaceTree.pp_num t.
Proof.
  intros E Hc.
  destruct (init_inv _ _ _ _ _ _ E)
    as (Hw & Hd & Ew & Er & Ep & Em & Ec & Hh & _).
  exists (len (column_signals t column)). split.
  - unfold WallaceTree.get_column_num.
    destruct (Z.ltb_spec column 0); [lia|].
    destruct (Z.gtb_spec column (WallaceTree.result_width t)); [lia|].
    cbn [orb].
    rewrite (bind_Return _ _ σ' σ' (next_loc σ + Z.to_nat column)%nat).
    + apply list_len_eq, Hh. lia.
    + apply item_eq. rewrite Ec. apply index_map_seq. lia.
  - destruct (column_signals_bounds t width Hw Ew Ep column) as [H1 H2];
      [lia|]. unfold len. lia.
Qed.

Lemma fresh_columns_hold_two_or_more_witness :
  exists σ' t,
    WallaceTree.init 8 "pp" 20 empty_store = (σ', Return t)
    /\ exists n,
         WallaceTree.get_column_num t 15 σ' = (σ', Return n)
         /\ 2 <= n <= WallaceTree.pp_num t.
Proof.
  eexists _, _. split; [vm_compute; reflexivity|].
  eapply (fresh_columns_hold_two_or_more 8 "pp" 20 empty_store).
  - vm_compute. reflexivity.
  - change (0 <= 15 < 16). lia.
Defined.

(** X8. [__init__] gives every column of the result its own list
    object, and column [c] lists, in increasing row order, one primary
    signal [pp_ext[i][c]] for each row [i] whose layout entry in column
    [c] is 1. *)
Theorem init_builds_columns width pp_name logic_depth σ σ' t :
  WallaceTree.init width pp_name logic_depth σ = (σ', Return t) ->
  NoDup (WallaceTree.columns t)
  /\ len (WallaceTree.columns t) = WallaceTree.result_width t
  /\ forall c, 0 <= c < WallaceTree.result_width t ->
       (forall i, 0 <= i < WallaceTree.pp_num t ->
          exists r, index (WallaceTree.tree_map t) i = Some r
                    /\ index r c = Some (layout_bit t i c))
       /\ exists l,
            index (WallaceTree.columns t) c = Some l
            /\ heap σ' !! l
               = Some (map (fun i => pp i c)
                         (List.filter
                            (fun i => layout_bit t i c =? 1)
                            (range 0 (WallaceTree.pp_num t)))).
Proof.
  intros E.
  destruct (init_inv _ _ _ _ _ _ E)
    as (Hw & Hd & Ew & Er & Ep & Em & Ec & Hh & _).
  split; [|split].
  - rewrite Ec. apply NoDup_fmap_2_strong; [|apply NoDup_seq].
    intros x y _ _ H. lia.
  - rewrite Ec, len_map. unfold len. rewrite length_seq, Er. lia.
  - intros c Hc. rewrite Er in Hc. split.
    + intros i Hi. exists (layout_row t i). split.
      * rewrite Em. apply index_map_range, Hi.
      * apply index_map_range. rewrite Er. lia.
    + exists (next_loc σ + Z.to_nat c)%nat.
      split; [rewrite Ec; apply index_map_seq; lia|exact (Hh c Hc)].
Qed.

Lemma init_builds_columns_witness :
  exists σ' t,
    WallaceTree.init 4 "pp" 20 empty_store = (σ', Return t)
    /\ NoDup (WallaceTree.columns t).
Proof.
  eexists _, _. split; [vm_compute; reflexivity|].
  refine (proj1 (init_builds_columns 4 "pp" 20 empty_store _ _ _)).
  vm_compute. reflexivity.
Defined.


(** ** Which exception ends [tree_reduce] *)

Lemma column_add_step self σ l v column level no :
  heap σ !! l = Some v ->
  exists σ' o,
    WallaceTree.column_add self l column level no σ = (σ', o)
    /\ heap σ' = <[l := []]> (heap σ)
    /\ match o with
       | Return _ => v <> [] /\ (length v mod 5 <> 1)%nat
       | Raise AssertionError => v = []
       | Raise IndexError => (length v mod 5 = 1)%nat
       | _ => False
       end.
Proof.
  intros Hl. rewrite (column_add_unfold _ _ _ _ _ _ _ Hl).
  destruct (column_add_rec_total (S (length v)) self σ l v column level no Hl)
    as (σ1 & o1 & E1 & _ & Hh & _); [lia|].
  destruct (column_add_rec_outcome (S (length v)) self σ l v column level no Hl)
    as (σ' & o & E & Ho); [lia|].
  rewrite E in E1. injection E1 as <- <-.
  exists σ', o. split; [exact E|]. split.
  - rewrite Hh. destruct v; [|reflexivity]. symmetry. by apply insert_id.
  - destruct o as [[cs ss]|[| | |]|]; try done. tauto.
Qed.

Lemma first_failure_cons v vs :
  first_failure (v :: vs)
  = if (length v =? 0)%nat then AssertionError
    else if (length v mod 5 =? 1)%nat then IndexError
    else first_failure vs.
Proof. reflexivity. Qed.

Lemma first_failure_skip v vs :
  v <> [] -> (length v mod 5 <> 1)%nat ->
  first_failure (v :: vs) = first_failure vs.
Proof.
  intros Hne Hmod. rewrite first_failure_cons.
  destruct (Nat.eqb_spec (length v) 0) as [H0|_].
  { by apply length_zero_iff_nil in H0. }
  destruct (Nat.eqb_spec (length v mod 5) 1); done.
Qed.

Lemma first_failure_IndexError v vs :
  (length v mod 5 = 1)%nat -> first_failure (v :: vs) = IndexError.
Proof.
  intros Hmod. rewrite first_failure_cons.
  destruct (Nat.eqb_spec (length v) 0) as [H0|_].
  { rewrite H0 in Hmod. discriminate. }
  destruct (Nat.eqb_spec (length v mod 5) 1); done.
Qed.

Lemma Forall2_insert_other (h : gmap nat (list Signal.t)) l w
    (ls : list loc) (vs : list (list Signal.t)) :
  l ∉ ls ->
  Forall2 (fun l' v => h !! l' = Some v) ls vs ->
  Forall2 (fun l' v => <[l := w]> h !! l' = Some v) ls vs.
Proof.
  intros Hnotin F. induction F as [|l' v ls vs Hl' F IH]; [constructor|].
  apply not_elem_of_cons in Hnotin as [Hne Hnotin].
  constructor; [|by apply IH].
  rewrite lookup_insert_ne; done.
Qed.

Lemma reduce_loop_exception self level : forall (ics : list (Z * loc)) vs σ acc,
  NoDup (ics.*2) ->
  Forall2 (fun l v => heap σ !! l = Some v) (ics.*2) vs ->
  exists σ' o,
    for_acc ics acc (fun acc ic =>
      r ← WallaceTree.column_add self ic.2 ic.1 level 0;
      mret (acc.1 ++ [r.1], acc.2 ++ [r.2])) σ = (σ', o)
    /\ match o with
       | Return _ => first_failure vs = TypeError
       | Raise e => e = first_failure vs
       | Stuck => False
       end.
Proof.
  induction ics as [|[i l] ics IH]; intros vs σ acc Hnd F.
  - apply Forall2_nil_inv_l in F as ->. eexists _, _.
    split; [reflexivity|reflexivity].
  - simpl in Hnd, F. apply NoDup_cons in Hnd as [Hnotin Hnd].
    apply Forall2_cons_inv_l in F as (v & vs' & Hv & F & ->).
    destruct (column_add_step self σ l v i level 0 Hv) as (σ1 & o & E & Hh & Ho).
    cbn [for_acc]. rewrite run_bind, run_bind. cbn [fst snd]. rewrite E.
    destruct o as [r|[| | |]|]; try done.
    + destruct Ho as [Hne Hmod].
      destruct (IH vs' σ1 (acc.1 ++ [r.1], acc.2 ++ [r.2]) Hnd)
        as (σ' & o & E' & Ho').
      { rewrite Hh. apply Forall2_insert_other; done. }
      exists σ', o. split; [exact E'|].
      rewrite (first_failure_skip _ _ Hne Hmod). exact Ho'.
    + eexists _, _. split; [reflexivity|].
      symmetry. by apply first_failure_IndexError.
    + eexists _, _. split; [reflexivity|]. subst v. reflexivity.
Qed.


Lemma tree_reduce_first_failure self (columns : list loc) vs level σ :
  NoDup columns ->
  Forall2 (fun l v => heap σ !! l = Some v) columns vs ->
  Exists (fun v => 2 < len v) vs ->
  exists σ',
    WallaceTree.tree_reduce self columns level σ
    = (σ', Raise (first_failure vs)).
Proof.
  intros Hnd F Hbig. unfold WallaceTree.tree_reduce.
  assert (Hall : Forall (allocated σ) columns).
  { apply Forall_forall. intros l Hin.
    apply list_elem_of_lookup in Hin as [i Hi].
    destruct (Forall2_lookup_l _ _ _ _ _ F Hi) as (v & _ & Hv).
    by exists v. }
  destruct (lens_loop σ columns [] Hall) as (ns & E & Fn).
  rewrite (bind_Return _ _ _ _ _ E). cbn [app].
  destruct ns as [|n ns].
  { apply Forall2_nil_inv_r in Fn as ->.
    apply Forall2_nil_inv_l in F as ->. by apply Exists_nil in Hbig. }
  destruct (Z.leb_spec (fold_left Z.max ns n) 2) as [Hle|_].
  { exfalso. apply fold_max_le in Hle.
    assert (Hns : Forall (fun k => k <= 2) (n :: ns))
      by (apply Forall_cons; tauto).
    apply Exists_exists in Hbig as (v & Hin & Hlen).
    apply list_elem_of_lookup in Hin as [i Hi].
    destruct (Forall2_lookup_r _ _ _ _ _ F Hi) as (l & Hl & Hv).
    destruct (Forall2_lookup_l _ _ _ _ _ Fn Hl) as (k & Hk & w & Hw & ->).
    rewrite Forall_forall in Hns.
    specialize (Hns (len w) (list_elem_of_lookup_2 _ _ _ Hk)).
    rewrite Hv in Hw. injection Hw as <-. lia. }
  assert (Esnd : (enumerate columns).*2 = columns).
  { unfold enumerate. apply snd_zip.
    rewrite length_range. unfold len. lia. }
  destruct (reduce_loop_exception self level (enumerate columns) vs σ ([], []))
    as (σ' & o & E' & Ho); [by rewrite Esnd|by rewrite Esnd|].
  rewrite run_bind, E'.
  destruct o as [r|e|]; [|subst e|done]; eexists; [|reflexivity].
  rewrite Ho. reflexivity.
Qed.

(** X9. When the columns are different list objects and one of them
    holds more than two signals, [tree_reduce] ends with the exception
    of the first column that [column_add] cannot reduce:
    [AssertionError] for an empty column, [IndexError] for a column of
    5k + 1 signals; when every column can be reduced it ends with the
    [TypeError] of the recursive call. *)
Theorem tree_reduce_exception self (columns : list loc) vs level σ :
  NoDup columns ->
  Forall2 (fun l v => heap σ !! l = Some v) columns vs ->
  Exists (fun v => 2 < len v) vs ->
  exists σ',
    WallaceTree.tree_reduce self columns level σ
    = (σ', Raise (first_failure vs)).
Proof. apply tree_reduce_first_failure. Qed.

Lemma tree_reduce_exception_witness :
  exists σ',
    WallaceTree.tree_reduce no_tree [0%nat] 0
      (one_list [pp 0 8; pp 1 8; pp 2 8; pp 3 8; pp 4 8; pp 5 8])
    = (σ', Raise IndexError).
Proof.
  apply (tree_reduce_exception no_tree [0%nat]
           [[pp 0 8; pp 1 8; pp 2 8; pp 3 8; pp 4 8; pp 5 8]]).
  - apply NoDup_singleton.
  - constructor; [reflexivity|constructor].
  - apply Exists_cons_hd. vm_compute. reflexivity.
Defined.

Lemma range_first_nine n :
  9 <= n -> range 0 n = [0; 1; 2; 3; 4; 5; 6; 7; 8] ++ range 9 n.
Proof.
  intros Hn. unfold range.
  replace (Z.to_nat (n - 0)) with (9 + Z.to_nat (n - 9))%nat by lia.
  rewrite seq_app, map_app. f_equal.
  change (0 + 9)%nat with (9 + 0)%nat.
  rewrite <- fmap_add_seq.
  change (map ?f (?g <$> ?l)) with (map f (map g l)).
  rewrite map_map. apply map_ext. intros k. lia.
Qed.

(** The exception on a constructed tree, by width. *)
Lemma first_failure_fresh t width :
  4 <= width ->
  WallaceTree.width t = width ->
  WallaceTree.result_width t = 2 * width ->
  WallaceTree.pp_num t = width / 2 + 1 ->
  first_failure (map (column_signals t) (range 0 (WallaceTree.result_width t)))
  = if width <? 10 then TypeError else IndexError.
Proof.
  intros Hw Ew Er Ep.
  destruct (Z.ltb_spec width 10) as [Hsmall|Hwide].
  - destruct t as [w rw n m cs]. simpl in Ew, Er, Ep. subst w rw n.
    assert (Hcases : width = 4 \/ width = 5 \/ width = 6 \/ width = 7
                     \/ width = 8 \/ width = 9) by lia.
    destruct Hcases as [-> | [-> | [-> | [-> | [-> | ->]]]]];
      vm_compute; reflexivity.
  - rewrite Er.
    rewrite range_first_nine by lia. cbn [map app].
    assert (Hlen : forall c, 0 <= c <= 8 ->
              length (column_signals t c) = Z.to_nat (c / 2 + 2)).
    { intros c Hc. apply (column_signals_low t width); assumption. }
    rewrite !first_failure_cons.
    rewrite (Hlen 0), (Hlen 1), (Hlen 2), (Hlen 3), (Hlen 4), (Hlen 5),
      (Hlen 6), (Hlen 7), (Hlen 8) by lia.
    reflexivity.
Qed.

Lemma column_two_holds_three t width :
  4 <= width ->
  WallaceTree.width t = width ->
  WallaceTree.pp_num t = width / 2 + 1 ->
  (3 <= length (column_signals t 2))%nat.
Proof.
  intros Hw Ew Ep. unfold column_signals. rewrite length_map.
  apply (length_filter_ge _ [0; 1; 2]).
  - repeat (apply NoDup_cons; split); try apply NoDup_nil_2;
      rewrite ?elem_of_cons, ?elem_of_nil; lia.
  - repeat (apply Forall_cons; split); try apply Forall_nil_2;
      try (split; [apply elem_of_range; rewrite Ep;
                   destruct (even_cases width) as [[_ Hq]|[_ Hq]]; lia|]);
      apply (layout_bit_set t); unfold start_pos, pp_width; rewrite Ew, Ep;
      destruct (even_cases width) as [[_ Hq]|[_ Hq]];
      repeat match goal with
             | |- context [?x <=? ?y] => destruct (Z.leb_spec x y); cbv iota
             | |- context [?x =? ?y] => destruct (Z.eqb_spec x y); cbv iota
             end; lia.
Qed.

(** X10. On every constructed tree [tree_reduce(self.columns, level)]
    raises: [TypeError] for a width below 10, where [column_add]
    reduces every column, and [IndexError] for a width of 10 or more,
    where column 8 holds six signals. *)
Theorem tree_reduce_fresh_tree width pp_name logic_depth level σ σ' t :
  WallaceTree.init width pp_name logic_depth σ = (σ', Return t) ->
  exists σ'',
    WallaceTree.tree_reduce t (WallaceTree.columns t) level σ'
    = (σ'', Raise (if width <? 10 then TypeError else IndexError)).
Proof.
  intros E.
  destruct (init_inv _ _ _ _ _ _ E)
    as (Hw & Hd & Ew & Er & Ep & Em & Ec & Hh & _).
  rewrite <- (first_failure_fresh t width Hw Ew Er Ep).
  apply tree_reduce_first_failure.
  - rewrite Ec. apply NoDup_fmap_2_strong; [|apply NoDup_seq].
    intros x y _ _ H. lia.
  - rewrite Ec, Er. unfold range. rewrite Z.sub_0_r, map_map.
    apply Forall2_fmap, Forall_Forall2_diag, Forall_forall.
    intros k Hk. apply elem_of_seq in Hk.
    replace k with (Z.to_nat (0 + Z.of_nat k)) at 1 by lia.
    apply Hh. lia.
  - apply Exists_exists. exists (column_signals t 2). split.
    + apply list_elem_of_fmap. exists 2. split; [reflexivity|].
      apply elem_of_range. lia.
    + pose proof (column_two_holds_three t width Hw Ew Ep). unfold len. lia.
Qed.

Lemma tree_reduce_fresh_tree_witness :
  exists σ' t,
    WallaceTree.init 10 "pp" 20 empty_store = (σ', Return t)
    /\ exists σ'',
         WallaceTree.tree_reduce t (WallaceTree.columns t) 0 σ'
         = (σ'', Raise IndexError).
Proof.
  eexists _, _. split; [vm_compute; reflexivity|].
  eapply (tree_reduce_fresh_tree 10 "pp" 20 0 empty_store).
  vm_compute. reflexivity.
Defined.


(** ** When [tree_reduce] returns *)

Lemma Forall2_allocated σ (columns : list loc) (vs : list (list Signal.t)) :
  Forall2 (fun l v => heap σ !! l = Some v) columns vs ->
  Forall (allocated σ) columns.
Proof.
  intros F. induction F as [|l v ls vs Hl F IH]; constructor; [|exact IH].
  by exists v.
Qed.

Lemma tree_reduce_else_never_returns self (columns : list loc) vs level σ σ' u :
  Forall2 (fun l v => heap σ !! l = Some v) columns vs ->
  Exists (fun v => 2 < len v) vs ->
  WallaceTree.tree_reduce self columns level σ <> (σ', Return u).
Proof.
  intros F Hbig. unfold WallaceTree.tree_reduce.
  destruct (lens_loop σ columns [] (Forall2_allocated _ _ _ F)) as (ns & E & Fn).
  rewrite (bind_Return _ _ _ _ _ E). cbn [app].
  destruct ns as [|n ns]; [discriminate|].
  destruct (Z.leb_spec (fold_left Z.max ns n) 2) as [Hle|_].
  { exfalso. apply fold_max_le in Hle.
    assert (Hns : Forall (fun k => k <= 2) (n :: ns))
      by (apply Forall_cons; tauto).
    apply Exists_exists in Hbig as (v & Hin & Hlen).
    apply list_elem_of_lookup in Hin as [i Hi].
    destruct (Forall2_lookup_r _ _ _ _ _ F Hi) as (l & Hl & Hv).
    destruct (Forall2_lookup_l _ _ _ _ _ Fn Hl) as (k & Hk & w & Hw & ->).
    rewrite Forall_forall in Hns.
    specialize (Hns (len w) (list_elem_of_lookup_2 _ _ _ Hk)).
    rewrite Hv in Hw. injection Hw as <-. lia. }
  rewrite run_bind.
  destruct (for_acc (enumerate columns) ([], []) _ σ) as [σ1 [r|e|]];
    discriminate.
Qed.

(** X11. [tree_reduce] returns exactly when there is at least one
    column and no column holds more than two signals; it has then
    printed the names of the signals, column by column, and changed
    nothing else. *)
Theorem tree_reduce_returns_iff_reduced
    self (columns : list loc) vs level σ σ' :
  Forall2 (fun l v => heap σ !! l = Some v) columns vs ->
  WallaceTree.tree_reduce self columns level σ = (σ', Return tt)
  <-> columns <> [] /\ Forall (fun v => len v <= 2) vs
      /\ σ' = set_stdout (stdout σ ++ map Signal.name (concat vs)) σ.
Proof.
  intros F.
  assert (Hred : columns <> [] -> Forall (fun v => len v <= 2) vs ->
            WallaceTree.tree_reduce self columns level σ
            = (set_stdout (stdout σ ++ map Signal.name (concat vs)) σ,
               Return tt)).
  { intros Hne Hsmall. apply tree_reduce_reduced; [exact Hne|].
    clear Hne. induction F as [|l v ls vs' Hl F IH]; [constructor|].
    apply Forall_cons in Hsmall as [Hv Hsmall].
    constructor; [split; assumption|by apply IH]. }
  split.
  - intros E.
    destruct columns as [|l columns]; [discriminate|].
    destruct (decide (Forall (fun v => len v <= 2) vs)) as [Hsmall|Hbig].
    + rewrite Hred in E by done. injection E as <-. done.
    + exfalso. apply not_Forall_Exists in Hbig; [|apply _].
      apply (tree_reduce_else_never_returns self (l :: columns) vs level σ σ' tt F);
        [|exact E].
      eapply Exists_impl; [exact Hbig|]. simpl. intros v; lia.
  - intros (Hne & Hsmall & ->). by apply Hred.
Qed.

Lemma tree_reduce_returns_iff_reduced_witness :
  WallaceTree.tree_reduce no_tree [0%nat] 0 (one_list [pp 0 0; pp 1 0])
  = (set_stdout ["pp_ext[0][0]"; "pp_ext[1][0]"] (one_list [pp 0 0; pp 1 0]),
     Return tt).
Proof.
  apply (tree_reduce_returns_iff_reduced no_tree [0%nat] [[pp 0 0; pp 1 0]]).
  - constructor; [reflexivity|constructor].
  - split; [discriminate|]. split; [|reflexivity].
    constructor; [vm_compute; discriminate|constructor].
Defined.


(** ** The heights of the low columns *)

(** X12. On a constructed tree [get_column_num] returns
    [min(column // 2 + 2, pp_num)] for every column up to
    [width + 2]: the heights 2, 2, 3, 3, 4, 4, ... until every row has
    started. *)
Theorem fresh_column_heights width pp_name logic_depth σ σ' t column :
  WallaceTree.init width pp_name logic_depth σ = (σ', Return t) ->
  0 <= column <= width + 2 ->
  WallaceTree.get_column_num t column σ'
  = (σ', Return (Z.min (column / 2 + 2) (WallaceTree.pp_num t))).
Proof.
  intros E Hc.
  destruct (init_inv _ _ _ _ _ _ E)
    as (Hw & Hd & Ew & Er & Ep & Em & Ec & Hh & _).
  unfold WallaceTree.get_column_num.
  destruct (Z.ltb_spec column 0); [lia|].
  destruct (Z.gtb_spec column (WallaceTree.result_width t)); [lia|].
  cbn [orb].
  rewrite (bind_Return _ _ σ' σ' (next_loc σ + Z.to_nat column)%nat).
  - rewrite (list_len_eq _ _ _ (Hh column ltac:(lia))). unfold len.
    rewrite (column_signals_stairs t width Hw Ew Ep column Hc).
    assert (0 <= column / 2) by (apply Z.div_pos; lia).
    assert (3 <= WallaceTree.pp_num t).
    { rewrite Ep. destruct (even_cases width) as [[_ Hq]|[_ Hq]]; lia. }
    do 2 f_equal. lia.
  - apply item_eq. rewrite Ec. apply index_map_seq. lia.
Qed.

Lemma fresh_column_heights_witness :
  exists σ' t,
    WallaceTree.init 8 "pp" 20 empty_store = (σ', Return t)
    /\ WallaceTree.get_column_num t 7 σ' = (σ', Return 5).
Proof.
  eexists _, _. split; [vm_compute; reflexivity|].
  eapply (fresh_column_heights 8 "pp" 20 empty_store).
  - vm_compute. reflexivity.
  - change (0 <= 7 <= 8 + 2). lia.
Defined.


(** ** How many primary signals a tree holds *)

Section SignalCount.
Variable t : WallaceTree.t.
Variable width : Z.
Hypothesis Hw : 4 <= width.
Hypothesis Ew : WallaceTree.width t = width.
Hypothesis Er : WallaceTree.result_width t = 2 * width.
Hypothesis Ep : WallaceTree.pp_num t = width / 2 + 1.

Lemma pp_num_ge_3 : 3 <= WallaceTree.pp_num t.
Proof. rewrite Ep. destruct (even_cases width) as [[_ Hq]|[_ Hq]]; lia. Qed.

(** Row 0 is [width + 4] wide and every row before the last one
    [width + 5]. *)
Lemma rows_sum_upto (k : nat) :
  (1 <= k)%nat -> Z.of_nat k <= WallaceTree.pp_num t - 1 ->
  Z.of_nat (sum_list_with (fun row => ones (layout_row t row))
              (range 0 (Z.of_nat k)))
  = width + 4 + (Z.of_nat k - 1) * (width + 5).
Proof.
  pose proof pp_num_ge_3 as Hn.
  induction k as [|k IH]; intros Hk Hle; [lia|].
  replace (Z.of_nat (S k)) with (Z.of_nat k + 1) in * by lia.
  rewrite range_snoc, sum_list_with_app by lia. cbn [sum_list_with].
  rewrite Nat2Z.inj_add, Nat2Z.inj_add.
  rewrite (ones_layout_row t width Hw Ew Er Ep (Z.of_nat k)) by lia.
  destruct k as [|k].
  - rewrite range_nil by lia. unfold pp_width. rewrite Ew. simpl. lia.
  - rewrite IH by lia. unfold pp_width. rewrite Ew.
    destruct (Z.eqb_spec (Z.of_nat (S k)) 0); [lia|].
    destruct (Z.eqb_spec (Z.of_nat (S k)) (WallaceTree.pp_num t - 1)); lia.
Qed.

Lemma rows_sum :
  Z.of_nat (sum_list_with (fun row => ones (layout_row t row))
              (range 0 (WallaceTree.pp_num t)))
  = (width / 2 - 1) * (width + 5) + 2 * width + 7.
Proof.
  pose proof pp_num_ge_3 as Hn.
  replace (WallaceTree.pp_num t) with (WallaceTree.pp_num t - 1 + 1) at 1 by lia.
  rewrite range_snoc, sum_list_with_app by lia. cbn [sum_list_with].
  rewrite Nat2Z.inj_add, Nat2Z.inj_add.
  rewrite (ones_layout_row t width Hw Ew Er Ep (WallaceTree.pp_num t - 1)) by lia.
  replace (WallaceTree.pp_num t - 1)
    with (Z.of_nat (Z.to_nat (WallaceTree.pp_num t - 1))) at 1 by lia.
  rewrite rows_sum_upto by lia.
  unfold pp_width. rewrite Ew.
  destruct (Z.eqb_spec (WallaceTree.pp_num t - 1) 0); [lia|].
  rewrite Z.eqb_refl. rewrite Ep. lia.
Qed.
End SignalCount.

Lemma total_signals_by_rows width pp_name logic_depth σ σ' t :
  WallaceTree.init width pp_name logic_depth σ = (σ', Return t) ->
  total_signals σ' t
  = sum_list_with
      (fun row => ones (take (Z.to_nat (WallaceTree.result_width t))
                          (layout_row t row)))
      (range 0 (WallaceTree.pp_num t)).
Proof.
  intros E.
  destruct (init_inv _ _ _ _ _ _ E)
    as (Hw & Hd & Ew & Er & Ep & Em & Ec & Hh & _).
  unfold total_signals. rewrite Ec, sum_list_with_map.
  transitivity
    (sum_list_with
       (fun c => length (List.filter (fun i => layout_bit t i c =? 1)
                           (range 0 (WallaceTree.pp_num t))))
       (range 0 (WallaceTree.result_width t))).
  - rewrite sum_list_with_range, Er.
    apply sum_list_with_ext_in. intros k Hk. apply elem_of_seq in Hk.
    unfold column_size.
    replace k with (Z.to_nat (Z.of_nat k)) at 1 by lia.
    rewrite Hh by lia. unfold column_signals. apply length_map.
  - rewrite (count_exchange (fun i c => layout_bit t i c =? 1)).
    apply sum_list_with_ext_in. intros row Hrow. unfold ones, layout_row.
    change (map ?f ?l) with (f <$> l) at 1. rewrite <- fmap_take.
    change (?f <$> ?l) with (map f l). rewrite take_range by lia.
    rewrite length_filter_map. reflexivity.
Qed.

(** X13. [__init__] creates
    [(width // 2 - 1) * (width + 5) + 2 * width + 7] primary signals
    for an odd width and two less for an even width. *)
Theorem primary_signal_count width pp_name logic_depth σ σ' t :
  WallaceTree.init width pp_name logic_depth σ = (σ', Return t) ->
  Z.of_nat (total_signals σ' t)
  = (width / 2 - 1) * (width + 5) + 2 * width + 7
    - (if Z.even width then 2 else 0).
Proof.
  intros E. rewrite (total_signals_by_rows _ _ _ _ _ _ E).
  destruct (init_inv _ _ _ _ _ _ E)
    as (Hw & Hd & Ew & Er & Ep & _).
  rewrite <- (rows_sum t width Hw Ew Er Ep).
  rewrite (sum_list_with_ext_in
             (fun row => ones (layout_row t row))
             (fun row =>
                (ones (take (Z.to_nat (WallaceTree.result_width t))
                         (layout_row t row))
                 + overflow t row)%nat)).
  - rewrite sum_list_with_plus, (overflow_total t width Hw Ew Ep).
    destruct (Z.even width); lia.
  - intros row Hrow. apply elem_of_range in Hrow.
    apply (ones_layout_row_split t width Hw Ew Er Ep row Hrow).
Qed.

Lemma primary_signal_count_witness :
  exists σ' t,
    WallaceTree.init 16 "pp" 20 empty_store = (σ', Return t)
    /\ Z.of_nat (total_signals σ' t) = 184.
Proof.
  eexists _, _. split; [vm_compute; reflexivity|].
  eapply (primary_signal_count 16 "pp" 20 empty_store).
  vm_compute. reflexivity.
Defined.


(** ** The names of the primary signals *)

Lemma pp_name_inj i c i' c' :
  Signal.name (pp i c) = Signal.name (pp i' c') -> i = i' /\ c = c'.
Proof.
  unfold pp. cbn [Signal.init Signal.name]. intros E.
  apply (inj (String.app "pp_ext[")) in E.
  apply (split_at "]") in E as [Ei E];
    try apply str_free_of, bracket_not_in_str.
  apply (inj (String.app "[")) in E.
  apply append_inj_l in E.
  split; by apply str_inj.
Qed.

Lemma NoDup_List_filter {A} (p : A -> bool) (l : list A) :
  NoDup l -> NoDup (List.filter p l).
Proof.
  induction 1 as [|x l Hx Hnd IH]; simpl; [constructor|].
  destruct (p x); [|exact IH].
  constructor; [|exact IH].
  intros Hin. apply Hx. apply list_elem_of_In in Hin.
  apply filter_In in Hin as [Hin _]. by apply list_elem_of_In.
Qed.

Lemma NoDup_range lo hi : NoDup (range lo hi).
Proof.
  unfold range. apply NoDup_fmap_2_strong; [|apply NoDup_seq].
  intros x y _ _ H. lia.
Qed.

Lemma elem_of_concat_map {A B} (f : A -> list B) (l : list A) b :
  b ∈ concat (map f l) -> exists a, a ∈ l /\ b ∈ f a.
Proof.
  induction l as [|a l IH]; simpl; [by intros H%elem_of_nil|].
  intros [H|H]%elem_of_app.
  - exists a. split; [left|exact H].
  - destruct (IH H) as (a' & Ha' & Hb). exists a'. split; [by right|exact Hb].
Qed.

Lemma NoDup_concat_map {A B} (f : A -> list B) (l : list A) :
  NoDup l ->
  (forall a, NoDup (f a)) ->
  (forall a a' b, b ∈ f a -> b ∈ f a' -> a = a') ->
  NoDup (concat (map f l)).
Proof.
  intros Hnd Hf Hdisj.
  induction Hnd as [|a l Ha Hnd IH]; simpl; [constructor|].
  apply NoDup_app. split; [apply Hf|]. split; [|exact IH].
  intros b Hb Hin. apply Ha.
  apply elem_of_concat_map in Hin as (a' & Ha' & Hbk).
  by rewrite (Hdisj a a' b Hb Hbk).
Qed.

Lemma column_names_apart t :
  NoDup (map Signal.name
           (concat (map (column_signals t)
                      (range 0 (WallaceTree.result_width t))))).
Proof.
  rewrite concat_map, map_map.
  apply NoDup_concat_map; [apply NoDup_range| |].
  - intros c. unfold column_signals. rewrite map_map.
    apply NoDup_fmap_2_strong; [|apply NoDup_List_filter, NoDup_range].
    intros i i' _ _ E. by apply pp_name_inj in E as [-> _].
  - intros c c' b Hb Hb'. unfold column_signals in Hb, Hb'.
    rewrite map_map in Hb, Hb'.
    apply list_elem_of_fmap in Hb as (i & -> & _).
    apply list_elem_of_fmap in Hb' as (i' & E & _).
    by apply pp_name_inj in E as [_ ->].
Qed.

(** X14. The primary signals of a constructed tree carry pairwise
    different names: the name [pp_ext[i][c]] determines the row [i]
    and the column [c]. *)
Theorem primary_names_apart width pp_name logic_depth σ σ' t :
  WallaceTree.init width pp_name logic_depth σ = (σ', Return t) ->
  exists vs,
    Forall2 (fun l v => heap σ' !! l = Some v) (WallaceTree.columns t) vs
    /\ NoDup (map Signal.name (concat vs)).
Proof.
  intros E.
  destruct (init_inv _ _ _ _ _ _ E)
    as (Hw & Hd & Ew & Er & Ep & Em & Ec & Hh & _).
  exists (map (column_signals t) (range 0 (WallaceTree.result_width t))).
  split; [|apply column_names_apart].
  rewrite Ec, Er. unfold range. rewrite Z.sub_0_r, map_map.
  apply Forall2_fmap, Forall_Forall2_diag, Forall_forall.
  intros k Hk. apply elem_of_seq in Hk.
  replace k with (Z.to_nat (0 + Z.of_nat k)) at 1 by lia.
  apply Hh. lia.
Qed.

Lemma primary_names_apart_witness :
  exists σ' t,
    WallaceTree.init 4 "pp" 20 empty_store = (σ', Return t)
    /\ exists vs,
         Forall2 (fun l v => heap σ' !! l = Some v) (WallaceTree.columns t) vs
         /\ NoDup (map Signal.name (concat vs)).
Proof.
  eexists _, _. split; [vm_compute; reflexivity|].
  eapply (primary_names_apart 4 "pp" 20 empty_store).
  vm_compute. reflexivity.
Defined.

(** ** What [__init__] does not use *)

(** X15. [__init__] never uses [pp_name], and uses [logic_depth] only
    for the test against 3: two constructions with the same width
    build the same tree and the same list objects. *)
Theorem init_ignores_pp_name width pp_name pp_name' logic_depth logic_depth' σ :
  3 <= logic_depth -> 3 <= logic_depth' ->
  WallaceTree.init width pp_name logic_depth σ
  = WallaceTree.init width pp_name' logic_depth' σ.
Proof.
  intros Hd Hd'. unfold WallaceTree.init.
  destruct (Z.ltb_spec width 4); [reflexivity|].
  destruct (Z.ltb_spec logic_depth 3); [lia|].
  destruct (Z.ltb_spec logic_depth' 3); [lia|].
  reflexivity.
Qed.

Lemma init_ignores_pp_name_witness :
  WallaceTree.init 4 "pp" 20 empty_store
  = WallaceTree.init 4 "partial_product" 3 empty_store.
Proof. apply init_ignores_pp_name; lia. Defined.
